(** * GemPy potential-field interpolator: a shallow embedding of
      [gempy/core/theano/theano_graph_pro.py] and the properties of its
      kriging kernel, geometry split, evaluator and segmentation.

    Numbers: the source computes in IEEE floating point; the embedding
    idealises them as the reals of the Standard Library, so "exactly 0"
    and "symmetric" are statements about exact arithmetic.

    Tensors: a Theano vector is a [list R]; a Theano matrix is a shape
    together with an entry function ([matrix]), so that a matrix with zero
    rows still has a width, as in NumPy.  An operation on which Theano
    raises (shape mismatch, index out of bounds) returns [None].

    The variogram models of [gempy/assets/kriging.py] and the distance and
    range functions of [gempy/GeoPhysics.py] are embedded after the
    interpolator, with their properties at the end. *)

From Stdlib Require Import String.
From Stdlib Require Import Reals Lra Lia List Bool Arith ZArith.
Import ListNotations.

Open Scope R_scope.

(** ** Error monad for operations that can raise *)

Definition bind {A B : Type} (m : option A) (k : A -> option B) : option B :=
  match m with
  | Some x => k x
  | None => None
  end.

Notation "x <- m ;; k" := (bind m (fun x => k))
  (at level 61, m at next level, right associativity).

Notation "' p <- m ;; k" := (bind m (fun x => match x with p => k end))
  (at level 61, p pattern, m at next level, right associativity).

Definition guard (b : bool) : option unit :=
  if b then Some tt else None.

(** ** Tensors *)

Record point : Type := mkP { px : R; py : R; pz : R }.

Definition origin : point := mkP 0 0 0.

(** [p[:, k]] for one row. *)
Definition coord (p : point) (k : nat) : R :=
  match k with
  | O => px p
  | S O => py p
  | _ => pz p
  end.

Record matrix : Type := mkM { n_rows : nat; n_cols : nat; entry : nat -> nat -> R }.

Definition same_shape (A B : matrix) : bool :=
  (n_rows A =? n_rows B)%nat && (n_cols A =? n_cols B)%nat.

(** Agreement on every entry inside the shape. *)
Definition meq (A B : matrix) : Prop :=
  n_rows A = n_rows B /\ n_cols A = n_cols B /\
  forall i j, (i < n_rows A)%nat -> (j < n_cols A)%nat -> entry A i j = entry B i j.

Definition T_zeros (r c : nat) : matrix := mkM r c (fun _ _ => 0).

Definition T_eye (n : nat) : matrix :=
  mkM n n (fun i j => if (i =? j)%nat then 1 else 0).

Definition transpose (A : matrix) : matrix :=
  mkM (n_cols A) (n_rows A) (fun i j => entry A j i).

(** Elementwise binary operation on two matrices none of whose dimensions is
    broadcastable: Theano requires equal extents. *)
Definition elemwise2 (f : R -> R -> R) (A B : matrix) : option matrix :=
  _ <- guard (same_shape A B) ;;
  Some (mkM (n_rows A) (n_cols A) (fun i j => f (entry A i j) (entry B i j))).

Definition elemwise1 (f : R -> R) (A : matrix) : matrix :=
  mkM (n_rows A) (n_cols A) (fun i j => f (entry A i j)).

Definition madd := elemwise2 Rplus.
Definition msub := elemwise2 Rminus.
Definition mmul := elemwise2 Rmult.

(** [M[r0:r1, c0:c1]] with non-negative bounds; Python clips them to the
    shape. *)
Definition slice_len (n lo hi : nat) : nat := (Nat.min hi n - lo)%nat.

Definition submatrix (M : matrix) (r0 r1 c0 c1 : nat) : matrix :=
  mkM (slice_len (n_rows M) r0 r1) (slice_len (n_cols M) c0 c1)
      (fun i j => entry M (r0 + i) (c0 + j)).

Definition in_slice (n lo hi i : nat) : bool :=
  (lo <=? i)%nat && (i <? Nat.min hi n)%nat.

(** NumPy assignment broadcasts the assigned value: an extent of the value
    must equal the extent of the slice or be 1. *)
Definition broadcastable_to (b s : nat) : bool := (b =? s)%nat || (b =? 1)%nat.

Definition bidx (b i : nat) : nat := if (b =? 1)%nat then 0%nat else i.

(** [T.set_subtensor(M[r0:r1, c0:c1], B)] *)
Definition set_subtensor (M : matrix) (r0 r1 c0 c1 : nat) (B : matrix) : option matrix :=
  _ <- guard (broadcastable_to (n_rows B) (slice_len (n_rows M) r0 r1) &&
              broadcastable_to (n_cols B) (slice_len (n_cols M) c0 c1)) ;;
  Some (mkM (n_rows M) (n_cols M)
            (fun i j =>
               if in_slice (n_rows M) r0 r1 i && in_slice (n_cols M) c0 c1 j
               then entry B (bidx (n_rows B) (i - r0)) (bidx (n_cols B) (j - c0))
               else entry M i j)).

(** [T.set_subtensor(M[r0:r1, c0:c1], v)] with a scalar [v]. *)
Definition set_subtensor_scalar (M : matrix) (r0 r1 c0 c1 : nat) (v : R) : matrix :=
  mkM (n_rows M) (n_cols M)
      (fun i j =>
         if in_slice (n_rows M) r0 r1 i && in_slice (n_cols M) c0 c1 j
         then v
         else entry M i j).

(** [row - col.reshape((len(col), 1))]: entry [(i, j)] is [row[j] - col[i]]. *)
Definition row_minus_col (row col : list R) : matrix :=
  mkM (length col) (length row) (fun i j => nth j row 0 - nth i col 0).

(** [T.tile(M, reps)] with an integer [reps]: repetition along the last
    axis. *)
Definition T_tile (M : matrix) (reps : nat) : matrix :=
  mkM (n_rows M) (n_cols M * reps) (fun i j => entry M i (j mod n_cols M)).

(** [T.vertical_stack(A, B)] for operands of one width. *)
Definition T_vertical_stack (A B : matrix) : matrix :=
  mkM (n_rows A + n_rows B) (n_cols A)
      (fun i j => if (i <? n_rows A)%nat then entry A i j else entry B (i - n_rows A) j).

(** [T.set_subtensor(M[r0:r1, c], v)] for a column index [c] inside the
    matrix and a vector [v] as long as the slice. *)
Definition set_column (M : matrix) (r0 r1 c : nat) (v : list R) : matrix :=
  mkM (n_rows M) (n_cols M)
      (fun i j =>
         if in_slice (n_rows M) r0 r1 i && (j =? c)%nat
         then nth (i - r0) v 0
         else entry M i j).

(** [pts[:, k]] *)
Definition column (pts : list point) (k : nat) : list R :=
  map (fun p => coord p k) pts.

(** [x[a:b]] on a vector, with non-negative bounds. *)
Definition slice {A : Type} (l : list A) (a b : nat) : list A :=
  skipn a (firstn b l).

(** [(x < y)] as the number Theano multiplies with. *)
Definition T_lt (x y : R) : R := if Rlt_dec x y then 1 else 0.

Definition T_eq (x y : R) : bool := if Req_dec_T x y then true else false.

Definition Rsum (l : list R) : R := fold_right Rplus 0 l.

(** [T.sum(M, axis=0)]: one entry per column. *)
Definition T_sum_axis0 (M : matrix) : list R :=
  map (fun j => Rsum (map (fun i => entry M i j) (seq 0 (n_rows M)))) (seq 0 (n_cols M)).

(** ** The interpolator object

    The attributes of [TheanoGraphPro] that the kriging and evaluation
    methods read, as they stand for the series being computed. *)

Record TheanoGraphPro : Type := mkSelf {
  a_T : R;
  c_o_T : R;
  nugget_effect_grad_T : R;
  nugget_effect_scalar_T : R;
  i_reescale : R;
  gi_reescale : R;
  n_universal_eq_T_op : nat;
  dips_position : list point;
  ref_layer_points : list point;
  rest_layer_points : list point;
  ref_layer_points_all : list point;
  rest_layer_points_all : list point;
  fault_matrix : matrix;
  fault_drift_at_surface_points_rest : matrix;
  fault_drift_at_surface_points_ref : matrix;
  len_points : nat;
  npf_op : list nat;
  inf_factor : list R
}.

Definition n_dimensions : nat := 3.

(** [T.tile(self.dips_position, (self.n_dimensions, 1))] *)
Definition dips_position_tiled (self : TheanoGraphPro) : list point :=
  dips_position self ++ dips_position self ++ dips_position self.

(** ** Geometry: pairwise distances *)

Definition sum_sq (p : point) : R := px p ^ 2 + py p ^ 2 + pz p ^ 2.

Definition dot (p q : point) : R := px p * px q + py p * py q + pz p * pz q.

Definition squared_euclidean_distances (x_1 x_2 : list point) : matrix :=
  mkM (length x_1) (length x_2)
      (fun i j =>
         let p := nth i x_1 origin in
         let q := nth j x_2 origin in
         sqrt (Rmax (sum_sq p + sum_sq q - 2 * dot p q) 1e-12)).

Definition length_of_CG (self : TheanoGraphPro) : nat := length (dips_position_tiled self).
Definition length_of_CGI (self : TheanoGraphPro) : nat := length (rest_layer_points self).
Definition length_of_U_I (self : TheanoGraphPro) : nat := n_universal_eq_T_op self.
Definition length_of_faults (self : TheanoGraphPro) : nat := n_rows (fault_matrix self).
Definition length_of_C (self : TheanoGraphPro) : nat :=
  (length_of_CG self + length_of_CGI self + length_of_U_I self + length_of_faults self)%nat.

Definition matrices_shapes (self : TheanoGraphPro) : nat * nat * nat * nat * nat :=
  (length_of_CG self, length_of_CGI self, length_of_U_I self, length_of_faults self,
   length_of_C self).

(** ** Kriging kernel

    The spline polynomials are written inline at every use in the source;
    they are named here once.  [cov_poly a d] is the degree-7 polynomial of
    [cov_surface_points] in [d / a]; [grad_poly a d] is the "first
    derivative" factor of [cov_gradients], [cov_interface_gradients] and
    [contribution_gradient_interface]; [second_poly a d] is the "second
    derivative" factor of [cov_gradients]. *)

Definition cov_poly (a d : R) : R :=
  1 - 7 * (d / a) ^ 2 + 35 / 4 * (d / a) ^ 3 - 7 / 2 * (d / a) ^ 5 + 3 / 4 * (d / a) ^ 7.

Definition grad_poly (a d : R) : R :=
  (-14 / a ^ 2) + 105 / 4 * d / a ^ 3 - 35 / 2 * d ^ 3 / a ^ 5 + 21 / 4 * d ^ 5 / a ^ 7.

Definition second_poly (a d : R) : R :=
  9 * d ^ 5 - 20 * a ^ 2 * d ^ 3 + 15 * a ^ 4 * d - 4 * a ^ 5.

(** One compactly supported term of [cov_surface_points]:
    [(sed < a_T) * (1 - 7 * (sed / a_T) ** 2 + ...)]. *)
Definition cov_term (a d : R) : R := T_lt d a * cov_poly a d.

(** ** Covariance blocks *)

Definition cov_surface_points (self : TheanoGraphPro) : option matrix :=
  let sed_rest_rest :=
    squared_euclidean_distances (rest_layer_points self) (rest_layer_points self) in
  let sed_ref_rest :=
    squared_euclidean_distances (ref_layer_points self) (rest_layer_points self) in
  let sed_rest_ref :=
    squared_euclidean_distances (rest_layer_points self) (ref_layer_points self) in
  let sed_ref_ref :=
    squared_euclidean_distances (ref_layer_points self) (ref_layer_points self) in
  let term := elemwise1 (cov_term (a_T self)) in
  t1 <- msub (term sed_rest_rest) (term sed_ref_rest) ;;
  t2 <- msub t1 (term sed_rest_ref) ;;
  t3 <- madd t2 (term sed_ref_ref) ;;
  let C_I := elemwise1 (fun x => c_o_T self * i_reescale self * x) t3 in
  madd C_I (elemwise1 (fun e => e * 2 * nugget_effect_scalar_T self) (T_eye (n_rows C_I))).

(** Cartesian distances between the dips, one band of rows per axis:
    [T.vertical_stack] of the three tiled difference matrices. *)
Definition h_u_dips (dips : list point) : matrix :=
  let band k := T_tile (row_minus_col (column dips k) (column dips k)) n_dimensions in
  T_vertical_stack (T_vertical_stack (band 0%nat) (band 1%nat)) (band 2%nat).

Definition perpendicularity_matrix (n : nat) (like : matrix) : matrix :=
  let p0 := T_zeros (n_rows like) (n_cols like) in
  let p1 := set_subtensor_scalar p0 0 n 0 n 1 in
  let p2 := set_subtensor_scalar p1 n (n * 2) n (n * 2) 1 in
  set_subtensor_scalar p2 (n * 2) (n * 3) (n * 2) (n * 3) 1.

(** The "else" operand of the [T.switch] in [cov_gradients], for one pair:
    [hh] is the entry of [h_u * h_v], [d] the entry of [sed_dips_dips],
    [perp] the entry of the perpendicularity matrix. *)
Definition cov_gradients_else (a c_o hh d perp : R) : R :=
  (hh / d ^ 2) *
  ((T_lt d a * (- c_o * grad_poly a d)) +
   T_lt d a * c_o * 7 * second_poly a d / (2 * a ^ 7)) -
  (perp * T_lt d a * c_o * grad_poly a d).

(** All operands of the elementwise expression are [3n x 3n] by
    construction, so it is written entry by entry. *)
Definition cov_gradients (self : TheanoGraphPro) : matrix :=
  let sed_dips_dips :=
    squared_euclidean_distances (dips_position_tiled self) (dips_position_tiled self) in
  let h_u := h_u_dips (dips_position self) in
  let h_v := transpose h_u in
  let perp := perpendicularity_matrix (length (dips_position self)) sed_dips_dips in
  let C_G :=
    mkM (n_rows sed_dips_dips) (n_cols sed_dips_dips)
        (fun i j =>
           let d := entry sed_dips_dips i j in
           if T_eq d 0 then 0
           else cov_gradients_else (a_T self) (c_o_T self)
                                   (entry h_u i j * entry h_v i j) d (entry perp i j)) in
  mkM (n_rows C_G) (n_cols C_G)
      (fun i j => entry C_G i j + entry (T_eye (n_rows C_G)) i j * nugget_effect_grad_T self).

(** Cartesian distances between the dips and a set of points, one band of
    rows per axis: [(dips[:, k] - pts[:, k].reshape((m, 1))).T] stacked. *)
Definition hu_points (dips pts : list point) : matrix :=
  let band k := transpose (row_minus_col (column dips k) (column pts k)) in
  T_vertical_stack (T_vertical_stack (band 0%nat) (band 1%nat)) (band 2%nat).

(** [hu * (sed < a_T) * (- c_o_T * (first derivative))], entry by entry;
    [hu] and [sed] have one shape by construction. *)
Definition gradient_interface_term (self : TheanoGraphPro) (hu sed : matrix) : matrix :=
  mkM (n_rows sed) (n_cols sed)
      (fun i j =>
         let d := entry sed i j in
         entry hu i j * T_lt d (a_T self) * (- c_o_T self * grad_poly (a_T self) d)).

Definition cov_interface_gradients (self : TheanoGraphPro) : option matrix :=
  let sed_dips_rest :=
    squared_euclidean_distances (dips_position_tiled self) (rest_layer_points self) in
  let sed_dips_ref :=
    squared_euclidean_distances (dips_position_tiled self) (ref_layer_points self) in
  let hu_rest := hu_points (dips_position self) (rest_layer_points self) in
  let hu_ref := hu_points (dips_position self) (ref_layer_points self) in
  D <- msub (gradient_interface_term self hu_rest sed_dips_rest)
            (gradient_interface_term self hu_ref sed_dips_ref) ;;
  Some (elemwise1 (fun x => gi_reescale self * x) (transpose D)).

(** The nine drift columns of one rest/reference pair, before the sign
    change: linear, squared and cross terms. *)
Definition drift_interface (gi : R) (rest ref : point) (k : nat) : R :=
  match k with
  | 0%nat => gi * (px rest - px ref)
  | 1%nat => gi * (py rest - py ref)
  | 2%nat => gi * (pz rest - pz ref)
  | 3%nat => gi ^ 2 * (px rest ^ 2 - px ref ^ 2)
  | 4%nat => gi ^ 2 * (py rest ^ 2 - py ref ^ 2)
  | 5%nat => gi ^ 2 * (pz rest ^ 2 - pz ref ^ 2)
  | 6%nat => gi ^ 2 * (px rest * py rest - px ref * py ref)
  | 7%nat => gi ^ 2 * (px rest * pz rest - px ref * pz ref)
  | _ => gi ^ 2 * (py rest * pz rest - py ref * pz ref)
  end.

Definition universal_matrix (self : TheanoGraphPro) : option (matrix * matrix) :=
  let dips := dips_position self in
  let gi := gi_reescale self in
  let n := length dips in
  let scaled (c : R) (k : nat) := map (fun x => c * x) (column dips k) in
  let U_G := T_zeros (n * n_dimensions) (3 * n_dimensions) in
  let U_G := set_subtensor_scalar U_G 0 n 0 1 1 in
  let U_G := set_subtensor_scalar U_G (n * 1) (n * 2) 1 2 1 in
  let U_G := set_subtensor_scalar U_G (n * 2) (n * 3) 2 3 1 in
  let U_G := set_column U_G 0 n 3 (scaled (2 * gi) 0%nat) in
  let U_G := set_column U_G (n * 1) (n * 2) 4 (scaled (2 * gi) 1%nat) in
  let U_G := set_column U_G (n * 2) (n * 3) 5 (scaled (2 * gi) 2%nat) in
  let U_G := set_column U_G 0 n 6 (scaled gi 1%nat) in
  let U_G := set_column U_G (n * 1) (n * 2) 6 (scaled gi 0%nat) in
  let U_G := set_column U_G 0 n 7 (scaled gi 2%nat) in
  let U_G := set_column U_G (n * 2) (n * 3) 7 (scaled gi 0%nat) in
  let U_G := set_column U_G (n * 1) (n * 2) 8 (scaled gi 2%nat) in
  let U_G := set_column U_G (n * 2) (n * 3) 8 (scaled gi 1%nat) in
  _ <- guard (length (rest_layer_points self) =? length (ref_layer_points self))%nat ;;
  let U_I :=
    mkM (length (rest_layer_points self)) 9
        (fun i k => - drift_interface gi (nth i (rest_layer_points self) origin)
                                         (nth i (ref_layer_points self) origin) k) in
  Some (submatrix U_I 0 (n_rows U_I) 0 (n_universal_eq_T_op self),
        submatrix U_G 0 (n_rows U_G) 0 (n_universal_eq_T_op self)).

Definition faults_matrix (self : TheanoGraphPro) : option (matrix * matrix) :=
  D <- msub (fault_drift_at_surface_points_ref self)
            (fault_drift_at_surface_points_rest self) ;;
  let F_I := elemwise1 (fun x => x + 0.0001) D in
  let F_G := elemwise1 (fun x => x + 0.0001)
                       (T_zeros (length_of_faults self) (length_of_CG self)) in
  Some (F_I, F_G).

(** The twelve [T.set_subtensor] calls of [covariance_matrix], in the
    order of the source. *)
Definition assemble_blocks (length_of_CG length_of_CGI length_of_U_I length_of_C : nat)
    (C_G C_I C_GI U_I U_G F_I F_G : matrix) : option matrix :=
  let g := length_of_CG in
  let gi := (length_of_CG + length_of_CGI)%nat in
  let giu := (length_of_CG + length_of_CGI + length_of_U_I)%nat in
  let C_matrix := T_zeros length_of_C length_of_C in
  C_matrix <- set_subtensor C_matrix 0 g 0 g C_G ;;
  C_matrix <- set_subtensor C_matrix 0 g g gi (transpose C_GI) ;;
  C_matrix <- set_subtensor C_matrix 0 g gi giu U_G ;;
  C_matrix <- set_subtensor C_matrix 0 g giu length_of_C (transpose F_G) ;;
  C_matrix <- set_subtensor C_matrix g gi 0 g C_GI ;;
  C_matrix <- set_subtensor C_matrix g gi g gi C_I ;;
  C_matrix <- set_subtensor C_matrix g gi gi giu U_I ;;
  C_matrix <- set_subtensor C_matrix g gi giu length_of_C (transpose F_I) ;;
  C_matrix <- set_subtensor C_matrix gi giu 0 g (transpose U_G) ;;
  C_matrix <- set_subtensor C_matrix gi giu g gi (transpose U_I) ;;
  C_matrix <- set_subtensor C_matrix giu length_of_C 0 g F_G ;;
  set_subtensor C_matrix giu length_of_C g gi F_I.

Definition covariance_matrix (self : TheanoGraphPro) : option matrix :=
  let '(length_of_CG, length_of_CGI, length_of_U_I, length_of_faults, length_of_C) :=
    matrices_shapes self in
  let C_G := cov_gradients self in
  C_I <- cov_surface_points self ;;
  C_GI <- cov_interface_gradients self ;;
  '(U_I, U_G) <- universal_matrix self ;;
  '(F_I, F_G) <- faults_matrix self ;;
  assemble_blocks length_of_CG length_of_CGI length_of_U_I length_of_C
                  C_G C_I C_GI U_I U_G F_I F_G.

(** ** Geometry: reference / rest split *)

Fixpoint cumsum_from (acc : nat) (l : list nat) : list nat :=
  match l with
  | [] => []
  | x :: t => (acc + x)%nat :: cumsum_from (acc + x) t
  end.

(** [T.cumsum] *)
Definition cumsum (l : list nat) : list nat := cumsum_from 0 l.

(** [x[idx]] with an index vector: out of bounds raises. *)
Fixpoint take_rows {A : Type} (x : list A) (idx : list nat) : option (list A) :=
  match idx with
  | [] => Some []
  | i :: rest =>
      r <- nth_error x i ;;
      rs <- take_rows x rest ;;
      Some (r :: rs)
  end.

(** [T.repeat(x, repeats, axis=0)]: row [i] is repeated [repeats[i]] times;
    a single repeat count is broadcast to every row. *)
Definition T_repeat {A : Type} (x : list A) (repeats : list nat) : option (list A) :=
  if (length repeats =? length x)%nat
  then Some (concat (map (fun '(r, c) => repeat r c) (combine x repeats)))
  else match repeats with
       | [c] => Some (concat (map (fun r => repeat r c) x))
       | _ => None
       end.

(** [T.set_subtensor(mask[idx], 0)] on a vector: out of bounds raises. *)
Fixpoint clear_at (mask : list nat) (idx : list nat) : option (list nat) :=
  match idx with
  | [] => Some mask
  | i :: rest =>
      _ <- guard (i <? length mask)%nat ;;
      clear_at (firstn i mask ++ 0%nat :: skipn (S i) mask) rest
  end.

(** [T.nonzero(mask)[0]] *)
Definition nonzero (mask : list nat) : list nat :=
  filter (fun i => negb (nth i mask 0 =? 0)%nat) (seq 0 (length mask)).

(** The counts are the numbers of rest points per surface (a surface of
    [c + 1] points has count [c]); they are lengths, hence naturals. *)
Definition set_rest_ref_matrix {A : Type} (surface_points_all : list A)
    (number_of_points_per_surface : list nat)
    : option (list A * list A * list nat * list nat) :=
  let ref_positions :=
    cumsum (0%nat :: map (fun c => (c + 1)%nat) (removelast number_of_points_per_surface)) in
  refs <- take_rows surface_points_all ref_positions ;;
  ref_points <- T_repeat refs number_of_points_per_surface ;;
  let rest_mask := repeat 1%nat (length surface_points_all) in
  rest_mask <- clear_at rest_mask ref_positions ;;
  rest_points <- take_rows surface_points_all (nonzero rest_mask) ;;
  Some (ref_points, rest_points, rest_mask, nonzero rest_mask).

(** ** Evaluation points *)

Definition x_to_interpolate (self : TheanoGraphPro) (grid : list point) : list point :=
  grid ++ rest_layer_points_all self ++ ref_layer_points_all self.

(** [T.tile(weights, (grid_shape, 1)).T]: one column of weights per
    evaluation point. *)
Definition extend_dual_kriging (weights : list R) (grid_shape : nat) : matrix :=
  mkM (length weights) grid_shape (fun k _ => nth k weights 0).

(** Python slice bounds that may be negative. *)
Definition py_bound (len : nat) (i : Z) : nat :=
  if (i <? 0)%Z then Z.to_nat (Z.max (i + Z.of_nat len) 0) else Nat.min (Z.to_nat i) len.

Definition py_slice {A : Type} (l : list A) (i j : Z) : list A :=
  slice l (py_bound (length l) i) (py_bound (length l) j).

(** [l[i]] for an integer that may be negative: out of bounds raises. *)
Definition py_index {A : Type} (l : list A) (i : Z) : option A :=
  if (i <? 0)%Z
  then (if (i + Z.of_nat (length l) <? 0)%Z then None
        else nth_error l (Z.to_nat (i + Z.of_nat (length l))))
  else nth_error l (Z.to_nat i).

(** ** Scalar field *)

Definition vadd (u v : list R) : option (list R) :=
  _ <- guard (length u =? length v)%nat ;;
  Some (map (fun '(x, y) => x + y) (combine u v)).

(** [T.set_subtensor(Z_x[a:b], v)] on a vector; NumPy broadcasts a value of
    length 1. *)
Definition set_subvector (Z_x : list R) (a b : nat) (v : list R) : option (list R) :=
  let n := slice_len (length Z_x) a b in
  _ <- guard (broadcastable_to (length v) n) ;;
  Some (map (fun i => if in_slice (length Z_x) a b i
                      then nth (bidx (length v) (i - a)) v 0
                      else nth i Z_x 0)
            (seq 0 (length Z_x))).

(** In the contributions, the kernel operands have one shape by
    construction and are written entry by entry; the products with the
    slices of the weights are checked. *)
Definition contribution_gradient_interface (self : TheanoGraphPro)
    (grid_val : list point) (weights : matrix) : option (list R) :=
  let hu_SimPoint := hu_points (dips_position self) grid_val in
  let sed_dips_SimPoint :=
    squared_euclidean_distances (dips_position_tiled self) grid_val in
  let kernel :=
    mkM (n_rows sed_dips_SimPoint) (n_cols sed_dips_SimPoint)
        (fun i j =>
           let d := entry sed_dips_SimPoint i j in
           - entry hu_SimPoint i j * T_lt d (a_T self) *
           (- c_o_T self * grad_poly (a_T self) d)) in
  let w := submatrix weights 0 (length_of_CG self) 0 (n_cols weights) in
  P <- mmul (elemwise1 (fun x => x * gi_reescale self) w) kernel ;;
  Some (T_sum_axis0 P).

Definition contribution_interface (self : TheanoGraphPro)
    (grid_val : list point) (weights : matrix) : option (list R) :=
  let sed_rest_SimPoint := squared_euclidean_distances (rest_layer_points self) grid_val in
  let sed_ref_SimPoint := squared_euclidean_distances (ref_layer_points self) grid_val in
  let term := elemwise1 (cov_term (a_T self)) in
  D <- msub (term sed_rest_SimPoint) (term sed_ref_SimPoint) ;;
  let K := elemwise1 (fun x => c_o_T self * i_reescale self * x) D in
  let w := submatrix weights (length_of_CG self) (length_of_CG self + length_of_CGI self)
                     0 (n_cols weights) in
  P <- mmul (elemwise1 Ropp w) K ;;
  Some (T_sum_axis0 P).

(** Row [k] of [universal_grid_surface_points_matrix] at one point. *)
Definition universal_term (p : point) (k : nat) : R :=
  match k with
  | 0%nat => px p
  | 1%nat => py p
  | 2%nat => pz p
  | 3%nat => px p ^ 2
  | 4%nat => py p ^ 2
  | 5%nat => pz p ^ 2
  | 6%nat => px p * py p
  | 7%nat => px p * pz p
  | _ => py p * pz p
  end.

Definition contribution_universal_drift (self : TheanoGraphPro)
    (grid_val : list point) (weights : matrix) (a b : nat) : option (list R) :=
  let universal_grid_surface_points_matrix :=
    mkM 9 (length grid_val) (fun k j => universal_term (nth j grid_val origin) k) in
  let i_rescale_aux := repeat 1 3 ++ repeat (gi_reescale self) 6 in
  let _aux_magic_term :=
    mkM (length (firstn (n_universal_eq_T_op self) i_rescale_aux)) (length grid_val)
        (fun k _ => nth k (firstn (n_universal_eq_T_op self) i_rescale_aux) 0) in
  let w := submatrix weights (length_of_CG self + length_of_CGI self)
                     (length_of_CG self + length_of_CGI self + length_of_U_I self)
                     0 (n_cols weights) in
  P <- mmul (elemwise1 (fun x => x * gi_reescale self) w) _aux_magic_term ;;
  P <- mmul P (submatrix universal_grid_surface_points_matrix
                         0 (n_universal_eq_T_op self) 0 (length grid_val)) ;;
  Some (T_sum_axis0 P).

(** [self.fault_matrix[a:b]] slices the first axis of the fault matrix. *)
Definition contribution_faults (self : TheanoGraphPro) (weights : matrix) (a b : nat)
    : option (list R) :=
  let fault_matrix_selection_non_zero :=
    submatrix (fault_matrix self) a b 0 (n_cols (fault_matrix self)) in
  let w := submatrix weights
                     (length_of_CG self + length_of_CGI self + length_of_U_I self)
                     (n_rows weights) 0 (n_cols weights) in
  P <- mmul w fault_matrix_selection_non_zero ;;
  Some (T_sum_axis0 P).

Definition scalar_field_loop (self : TheanoGraphPro) (a b : nat) (Z_x : list R)
    (grid_val : list point) (weights : matrix) : option (list R) :=
  let w := submatrix weights 0 (n_rows weights) a b in
  sigma_0_grad <- contribution_gradient_interface self (slice grid_val a b) w ;;
  sigma_0_interf <- contribution_interface self (slice grid_val a b) w ;;
  f_0 <- contribution_universal_drift self (slice grid_val a b) w a b ;;
  f_1 <- contribution_faults self w a b ;;
  s1 <- vadd sigma_0_grad sigma_0_interf ;;
  s2 <- vadd s1 f_0 ;;
  partial_Z_x <- vadd s2 f_1 ;;
  set_subvector Z_x a b partial_Z_x.

(** [theano.scan] of [scalar_field_loop] over [slices] with taps [0, 1],
    carrying [Z_x]. *)
Fixpoint scalar_field_scan (self : TheanoGraphPro) (slices : list nat) (Z_x : list R)
    (grid_val : list point) (weights : matrix) : option (list R) :=
  match slices with
  | a :: (b :: _) as rest =>
      Z_x <- scalar_field_loop self a b Z_x grid_val weights ;;
      scalar_field_scan self rest Z_x grid_val weights
  | _ => Some Z_x
  end.

(** [T.arange(0, stop, step)] for a positive integer step. *)
Definition T_arange (stop step : nat) : list nat :=
  map (fun i => (i * step)%nat) (seq 0 ((stop + step - 1) / step)).

(** [Z_x[-2 * self.len_points: -self.len_points][self.npf_op]] *)
Definition surface_points_values (self : TheanoGraphPro) (Z_x : list R) : option (list R) :=
  take_rows (py_slice Z_x (-2 * Z.of_nat (len_points self)) (- Z.of_nat (len_points self)))
            (npf_op self).

(** The source derives the chunk length [steps] from the element budget,
    [1e13 / length_of_C / grid_shape]; it is an argument here, and it has
    to be positive for [T.arange].  The result is the last step of the
    scan, which has to exist. *)
Definition scalar_field_at_all (self : TheanoGraphPro) (steps : nat) (weights : list R)
    (grid_val : list point) : option (list R * list R) :=
  let tiled_weights := extend_dual_kriging weights (length grid_val) in
  let grid_shape := length grid_val in
  let Z_x_init := repeat 0 grid_shape in
  _ <- guard (0 <? steps)%nat ;;
  let slices := T_arange grid_shape steps ++ [grid_shape] in
  _ <- guard (2 <=? length slices)%nat ;;
  Z_x <- scalar_field_scan self slices Z_x_init grid_val tiled_weights ;;
  scalar_field_at_surface_points_values <- surface_points_values self Z_x ;;
  Some (Z_x, scalar_field_at_surface_points_values).

Definition compute_scalar_field (self : TheanoGraphPro) (steps : nat) (weights : list R)
    (grid : list point) : option (list R * list R) :=
  scalar_field_at_all self steps weights (x_to_interpolate self grid).

(** The points of the series being computed, as [compute_a_series] sets
    them: [self.ref_layer_points = self.ref_layer_points_all[len_i_0: len_i_1, :]]
    and the same for the rest points. *)
Definition compute_a_series_points (self : TheanoGraphPro) (len_i_0 len_i_1 : nat)
    : TheanoGraphPro :=
  mkSelf (a_T self) (c_o_T self) (nugget_effect_grad_T self) (nugget_effect_scalar_T self)
         (i_reescale self) (gi_reescale self) (n_universal_eq_T_op self)
         (dips_position self)
         (slice (ref_layer_points_all self) len_i_0 len_i_1)
         (slice (rest_layer_points_all self) len_i_0 len_i_1)
         (ref_layer_points_all self) (rest_layer_points_all self)
         (fault_matrix self)
         (fault_drift_at_surface_points_rest self) (fault_drift_at_surface_points_ref self)
         (len_points self) (npf_op self) (inf_factor self).

(** ** Finite faults *)

Definition T_max (l : list R) : option R :=
  match l with
  | [] => None
  | x :: t => Some (fold_left Rmax t x)
  end.

Definition T_min (l : list R) : option R :=
  match l with
  | [] => None
  | x :: t => Some (fold_left Rmin t x)
  end.

(** [T.mean] of each coordinate over a set of points. *)
Definition mean_point (pts : list point) : point :=
  let n := INR (length pts) in
  mkP (Rsum (column pts 0) / n) (Rsum (column pts 1) / n) (Rsum (column pts 2) / n).

(** [T.dot(x, x.T)] for the [3 x n] matrix whose columns are [pts]. *)
Definition scatter_matrix (pts : list point) : matrix :=
  mkM 3 3 (fun r c => Rsum (map (fun p => coord p r * coord p c) pts)).

(** One row of [T.dot(pts, U)]. *)
Definition rotate (U : matrix) (p : point) : point :=
  let comp k := coord p 0 * entry U 0 k + coord p 1 * entry U 1 k + coord p 2 * entry U 2 k in
  mkP (comp 0%nat) (comp 1%nat) (comp 2%nat).

(** [svd_Vh M] stands for [T.nlinalg.svd(M)[2]], which the linear-algebra
    library computes. *)
Definition select_finite_faults (svd_Vh : matrix -> matrix) (self : TheanoGraphPro)
    (n_series : Z) (grid : list point) : option (list bool) :=
  ref0 <- nth_error (ref_layer_points self) 0 ;;
  let fault_points := ref0 :: rest_layer_points self in
  let ctr := mean_point fault_points in
  let x := map (fun p => mkP (px p - px ctr) (py p - py ctr) (pz p - pz ctr)) fault_points in
  let M := scatter_matrix x in
  let U := svd_Vh M in
  let rotated_x := map (rotate U) grid in
  let rotated_fault_points := map (rotate U) fault_points in
  let rotated_ctr := mean_point rotated_fault_points in
  inf <- py_index (inf_factor self) (n_series - 1) ;;
  max0 <- T_max (column rotated_fault_points 0) ;;
  min0 <- T_min (column rotated_fault_points 0) ;;
  max1 <- T_max (column rotated_fault_points 1) ;;
  min1 <- T_min (column rotated_fault_points 1) ;;
  let a_radio := (max0 - min0) / 2 + inf in
  let b_radio := (max1 - min1) / 2 + inf in
  Some (map (fun p =>
               if Rlt_dec ((px p - px rotated_ctr) ^ 2 / a_radio ^ 2 +
                           (py p - py rotated_ctr) ^ 2 / b_radio ^ 2) 1
               then true else false)
            rotated_x).

(** ** Block export *)

(** The slope [l] handed to [compare]: a scalar for formations, one value per
    evaluation point for faults. *)
Inductive slope_t : Type :=
| Scalar (l : R)
| Vector (l : list R).

Definition slope_at (l : slope_t) (i : nat) : R :=
  match l with
  | Scalar x => x
  | Vector v => nth i v 0
  end.

Definition slope_fits (l : slope_t) (n : nat) : bool :=
  match l with
  | Scalar _ => true
  | Vector v => (length v =? n)%nat
  end.

(** [M[:, s:s + 1].reshape((-1, 1))]: a column, or no row at all when [s]
    is past the last column. *)
Definition column_reshaped (M : matrix) (s : nat) : matrix :=
  mkM (n_rows M * slice_len (n_cols M) s (s + 1)) 1 (fun i _ => entry M i s).

Definition compare (a b : R) (slice_init : nat) (Z_x : list R) (l : slope_t)
    (n_surface drift : matrix) : option matrix :=
  let n_surface_0 := column_reshaped n_surface slice_init in
  let n_surface_1 := column_reshaped n_surface (slice_init + 1) in
  let drift := column_reshaped drift slice_init in
  _ <- guard (slope_fits l (length Z_x)) ;;
  let low :=
    mkM (n_rows n_surface_0) (length Z_x)
        (fun p i => - entry n_surface_0 p 0 / (1 + exp (- slope_at l i * (nth i Z_x 0 - a)))) in
  let high :=
    mkM (n_rows n_surface_1) (length Z_x)
        (fun p i => entry n_surface_1 p 0 / (1 + exp (slope_at l i * (nth i Z_x 0 - b)))) in
  D <- msub low high ;;
  _ <- guard (n_rows D =? n_rows drift)%nat ;;
  Some (mkM (n_rows D) (n_cols D) (fun p i => entry D p i + entry drift p 0)).

(** [T.repeat(M, 2, axis=1)] *)
Definition repeat_columns_twice (M : matrix) : matrix :=
  mkM (n_rows M) (n_cols M * 2) (fun p j => entry M p (j / 2)).

(** [M[[r], :]]: the row has to exist. *)
Definition select_row (M : matrix) (r : nat) : option matrix :=
  _ <- guard (r <? n_rows M)%nat ;;
  Some (mkM 1 (n_cols M) (fun _ j => entry M r j)).

(** [T.set_subtensor(M[:, c], v)] for a scalar [v]: the column has to
    exist. *)
Definition set_whole_column (M : matrix) (c : nat) (v : nat -> R) : option matrix :=
  _ <- guard (c <? n_cols M)%nat ;;
  Some (mkM (n_rows M) (n_cols M) (fun p j => if (j =? c)%nat then v p else entry M p j)).

(** [theano.scan] of [compare] over the adjacent pairs of
    [scalar_field_iter] and over [T.arange(0, n_cols, 2)]; it runs for the
    shorter of the two sequences. *)
Fixpoint compare_scan (scalar_field_iter : list R) (starts : list nat) (Z_x : list R)
    (l : slope_t) (n_surface drift : matrix) : option (list matrix) :=
  match scalar_field_iter, starts with
  | a :: (b :: _) as rest, slice_init :: starts' =>
      sigm <- compare a b slice_init Z_x l n_surface drift ;;
      sigms <- compare_scan rest starts' Z_x l n_surface drift ;;
      Some (sigm :: sigms)
  | _, _ => Some []
  end.

(** [block.sum(axis=0)] over the stacked outputs of the scan. *)
Definition sum_over_steps (steps : list matrix) : option matrix :=
  match steps with
  | [] => None
  | first :: _ =>
      Some (mkM (n_rows first) (n_cols first)
                (fun p i => Rsum (map (fun m => entry m p i) steps)))
  end.

(** [scalar_field_iter] of the two block exports. *)
Definition segmentation_thresholds (Z_x scalar_field_at_surface_points : list R)
    : option (list R) :=
  max_pot <- T_max Z_x ;;
  min_pot <- T_min Z_x ;;
  let boundary_pad := (max_pot - min_pot) * 0.01 in
  Some ([max_pot + boundary_pad] ++ scalar_field_at_surface_points ++
        [min_pot - boundary_pad]).

(** [T.switch(finite_faults_sel, offset_slope / (max_pot - min_pot),
    slope / (max_pot - min_pot))] *)
Definition fault_slopes (max_pot min_pot slope offset_slope : R)
    (finite_faults_sel : list bool) : list R :=
  map (fun sel : bool => if sel then offset_slope / (max_pot - min_pot)
                         else slope / (max_pot - min_pot))
      finite_faults_sel.

Definition export_fault_block (Z_x scalar_field_at_surface_points : list R)
    (values_properties_op : matrix) (finite_faults_sel : list bool)
    (slope offset_slope : R) : option matrix :=
  max_pot <- T_max Z_x ;;
  min_pot <- T_min Z_x ;;
  let l := fault_slopes max_pot min_pot slope offset_slope finite_faults_sel in
  scalar_field_iter <- segmentation_thresholds Z_x scalar_field_at_surface_points ;;
  first_row <- select_row values_properties_op 0 ;;
  let n_surface_op_float_sigmoid := repeat_columns_twice first_row in
  n_surface_op_float_sigmoid <-
    set_whole_column n_surface_op_float_sigmoid 1 (fun _ => -1) ;;
  n_surface_op_float_sigmoid <-
    set_whole_column n_surface_op_float_sigmoid (n_cols n_surface_op_float_sigmoid - 1)
                     (fun _ => -1) ;;
  _ <- guard (1 <? n_cols n_surface_op_float_sigmoid)%nat ;;
  drift <- set_whole_column n_surface_op_float_sigmoid 0
                            (fun p => entry n_surface_op_float_sigmoid p 1) ;;
  fault_block <- compare_scan scalar_field_iter
                              (T_arange (n_cols n_surface_op_float_sigmoid) 2)
                              Z_x (Vector l) n_surface_op_float_sigmoid drift ;;
  sum_over_steps fault_block.

Definition export_formation_block (Z_x scalar_field_at_surface_points : list R)
    (values_properties_op : matrix) (slope : R) : option matrix :=
  max_pot <- T_max Z_x ;;
  min_pot <- T_min Z_x ;;
  let l := slope / (max_pot - min_pot) in
  scalar_field_iter <- segmentation_thresholds Z_x scalar_field_at_surface_points ;;
  let n_surface_op_float_sigmoid := repeat_columns_twice values_properties_op in
  n_surface_op_float_sigmoid <-
    set_whole_column n_surface_op_float_sigmoid 0 (fun _ => -1) ;;
  n_surface_op_float_sigmoid <-
    set_whole_column n_surface_op_float_sigmoid (n_cols n_surface_op_float_sigmoid - 1)
                     (fun _ => -1) ;;
  _ <- guard (1 <? n_cols n_surface_op_float_sigmoid)%nat ;;
  drift <- set_whole_column n_surface_op_float_sigmoid 0
                            (fun p => entry n_surface_op_float_sigmoid p 1) ;;
  formations_block <- compare_scan scalar_field_iter
                                   (T_arange (n_cols n_surface_op_float_sigmoid) 2)
                                   Z_x (Scalar l) n_surface_op_float_sigmoid drift ;;
  sum_over_steps formations_block.

(** Default slopes of the two block exports. *)
Definition fault_slope : R := 50.
Definition fault_offset_slope : R := 5000.
Definition formation_slope : R := 5000.

Definition compute_formation_block (Z_x scalar_field_at_surface_points : list R)
    (values : matrix) : option matrix :=
  export_formation_block Z_x scalar_field_at_surface_points values formation_slope.

Definition compute_fault_block (svd_Vh : matrix -> matrix) (self : TheanoGraphPro)
    (Z_x scalar_field_at_surface_points : list R) (values : matrix) (n_series : Z)
    (grid : list point) : option matrix :=
  let grid_val := x_to_interpolate self grid in
  finite_faults_sel <- select_finite_faults svd_Vh self n_series grid_val ;;
  export_fault_block Z_x scalar_field_at_surface_points values finite_faults_sel
                     fault_slope fault_offset_slope.

(** ** Surfaces as the split describes them

    A surface is given by its first point and the points that follow it;
    [flatten] lays the surfaces out as [surface_points_all] holds them and
    [counts] is the matching [number_of_points_per_surface]. *)

Definition flatten {A : Type} (surfaces : list (A * list A)) : list A :=
  concat (map (fun s => fst s :: snd s) surfaces).

Definition counts {A : Type} (surfaces : list (A * list A)) : list nat :=
  map (fun s => length (snd s)) surfaces.

(** The first point of each surface, once per rest point of the surface. *)
Definition replicated_refs {A : Type} (surfaces : list (A * list A)) : list A :=
  concat (map (fun s => repeat (fst s) (length (snd s))) surfaces).

Definition rest_mask_of {A : Type} (surfaces : list (A * list A)) : list nat :=
  concat (map (fun s => 0%nat :: repeat 1%nat (length (snd s))) surfaces).

Fixpoint ref_pos {A : Type} (off : nat) (surfaces : list (A * list A)) : list nat :=
  match surfaces with
  | [] => []
  | s :: ss => off :: ref_pos (off + S (length (snd s))) ss
  end.

(** The entries of [x] at the non-zero positions of [mask]. *)
Fixpoint select {A : Type} (x : list A) (mask : list nat) : list A :=
  match x, mask with
  | a :: x', m :: mask' => if (m =? 0)%nat then select x' mask' else a :: select x' mask'
  | _, _ => []
  end.

(** ** Segmentation as the block exports sum it

    [adjacent_pairs] lists the threshold pairs the scan visits;
    [sigmoid_pair] is the value [compare] gives one evaluation point for the
    pair [(a, b)]. *)

Definition adjacent_pairs (thresholds : list R) : list (R * R) :=
  combine thresholds (tl thresholds).

Definition sigmoid_pair (id_low id_high drift l z a b : R) : R :=
  - id_low / (1 + exp (- l * (z - a))) - id_high / (1 + exp (l * (z - b))) + drift.

(** The identifiers of [export_formation_block] after the two border
    columns are set to -1, and the drift derived from them. *)
Definition formation_ids (values : matrix) (p j : nat) : R :=
  if (j =? n_cols values * 2 - 1)%nat then -1
  else if (j =? 0)%nat then -1
  else entry values p (j / 2).

Definition formation_drift (values : matrix) (p j : nat) : R :=
  if (j =? 0)%nat then formation_ids values p 1 else formation_ids values p j.

(** The same for [export_fault_block], which reads the first row of the
    values only and sets columns 1 and -1. *)
Definition fault_ids (values : matrix) (j : nat) : R :=
  if (j =? n_cols values * 2 - 1)%nat then -1
  else if (j =? 1)%nat then -1
  else entry values 0 (j / 2).

Definition fault_drift (values : matrix) (j : nat) : R :=
  if (j =? 0)%nat then fault_ids values 1 else fault_ids values j.

(** ** Inputs of one series whose shapes agree

    The reference and rest points are aligned row by row (as the split
    produces them), the drift has at most its nine terms, and the fault
    drifts at the reference and rest points have one row per incoming fault
    and one column per rest point. *)
Definition admissible (self : TheanoGraphPro) : Prop :=
  length (ref_layer_points self) = length (rest_layer_points self) /\
  (n_universal_eq_T_op self <= 9)%nat /\
  n_rows (fault_drift_at_surface_points_ref self) = n_rows (fault_matrix self) /\
  n_rows (fault_drift_at_surface_points_rest self) = n_rows (fault_matrix self) /\
  n_cols (fault_drift_at_surface_points_ref self) = length (rest_layer_points self) /\
  n_cols (fault_drift_at_surface_points_rest self) = length (rest_layer_points self).

Definition symmetric (C : matrix) : Prop :=
  n_rows C = n_cols C /\
  forall i j, (i < n_rows C)%nat -> (j < n_rows C)%nat -> entry C i j = entry C j i.

(** ** The scalar field as one sum per evaluation point

    The four contributions to the field at evaluation point [j] of
    [grid_val], for a weight vector laid out as the covariance matrix is:
    gradients, interface points, universal drift, faults. *)

Definition gradient_part (self : TheanoGraphPro) (weights : list R)
    (grid_val : list point) (j : nat) : R :=
  let hu := hu_points (dips_position self) grid_val in
  let sed := squared_euclidean_distances (dips_position_tiled self) grid_val in
  Rsum (map (fun k =>
               nth k weights 0 * gi_reescale self *
               (- entry hu k j * T_lt (entry sed k j) (a_T self) *
                (- c_o_T self * grad_poly (a_T self) (entry sed k j))))
            (seq 0 (length_of_CG self))).

Definition interface_part (self : TheanoGraphPro) (weights : list R)
    (grid_val : list point) (j : nat) : R :=
  let sed_rest := squared_euclidean_distances (rest_layer_points self) grid_val in
  let sed_ref := squared_euclidean_distances (ref_layer_points self) grid_val in
  Rsum (map (fun k =>
               - nth (length_of_CG self + k) weights 0 *
               (c_o_T self * i_reescale self *
                (cov_term (a_T self) (entry sed_rest k j)
                 - cov_term (a_T self) (entry sed_ref k j))))
            (seq 0 (length_of_CGI self))).

Definition drift_part (self : TheanoGraphPro) (weights : list R)
    (grid_val : list point) (j : nat) : R :=
  Rsum (map (fun k =>
               nth (length_of_CG self + length_of_CGI self + k) weights 0 *
               gi_reescale self *
               nth k (repeat 1 3 ++ repeat (gi_reescale self) 6) 0 *
               universal_term (nth j grid_val origin) k)
            (seq 0 (length_of_U_I self))).

Definition fault_part (self : TheanoGraphPro) (weights : list R) (j : nat) : R :=
  Rsum (map (fun k =>
               nth (length_of_CG self + length_of_CGI self + length_of_U_I self + k)
                   weights 0 *
               entry (fault_matrix self) k j)
            (seq 0 (length_of_faults self))).

Definition field_value (self : TheanoGraphPro) (weights : list R)
    (grid_val : list point) (j : nat) : R :=
  gradient_part self weights grid_val j + interface_part self weights grid_val j
  + drift_part self weights grid_val j + fault_part self weights j.

(** Shapes that the evaluation of one series needs: a weight per row of the
    covariance matrix, aligned reference and rest points, at most nine
    drift terms, and a fault matrix with one column per evaluation point and
    no more rows than columns. *)
Definition evaluable (self : TheanoGraphPro) (weights : list R) (grid_val : list point)
    : Prop :=
  length weights = length_of_C self /\
  length (ref_layer_points self) = length (rest_layer_points self) /\
  (n_universal_eq_T_op self <= 9)%nat /\
  n_cols (fault_matrix self) = length grid_val /\
  (n_rows (fault_matrix self) <= length grid_val)%nat.

(** ** Concrete inputs used in the examples *)

Definition p000 : point := mkP 0 0 0.
Definition p100 : point := mkP 1 0 0.
Definition p200 : point := mkP 2 0 0.
Definition p010 : point := mkP 0 1 0.
Definition p001 : point := mkP 0 0 1.

(** One orientation, one surface of two points, a linear universal drift,
    one incoming fault whose block is 1 at the three evaluation points. *)
Definition one_fault_series : TheanoGraphPro :=
  mkSelf 1 1 0.01 0.000001 4 2 3
         [p000] [p100] [p200] [p100] [p200]
         (mkM 1 3 (fun _ _ => 1))
         (mkM 1 1 (fun _ _ => 1)) (mkM 1 1 (fun _ _ => 1))
         1 [0%nat] [0].

Definition eight_weights : list R := [1; 1; 1; 1; 1; 1; 1; 1].

(** A finite fault: one surface of two points, inflation factor 10; the
    decomposition is taken to return the identity, so the principal axes are
    the coordinate axes. *)
Definition identity_Vh (M : matrix) : matrix := T_eye 3.

Definition finite_fault_series : TheanoGraphPro :=
  mkSelf 1 1 0.01 0.000001 4 2 0
         [p000] [p100] [p200] [p100] [p200]
         (mkM 0 4 (fun _ _ => 0))
         (mkM 0 1 (fun _ _ => 0)) (mkM 0 1 (fun _ _ => 0))
         1 [0%nat] [10].

Definition p_far : point := mkP 100 0 0.

Definition two_values : matrix := mkM 1 2 (fun _ j => INR j + 1).

(** Two series of one two-point surface each. *)
Definition two_series : TheanoGraphPro :=
  mkSelf 1 1 0.01 0.000001 4 2 0
         [p000] [p000; p001] [p100; p010] [p000; p001] [p100; p010]
         (mkM 0 5 (fun _ _ => 0))
         (mkM 0 2 (fun _ _ => 0)) (mkM 0 2 (fun _ _ => 0))
         2 [0%nat; 1%nat] [0; 0].

(** Two orientations two units apart, range 1. *)
Definition two_dips : TheanoGraphPro :=
  mkSelf 1 1 0.01 0.000001 4 2 0
         [p000; p200] [p100] [p200] [p100] [p200]
         (mkM 0 3 (fun _ _ => 0))
         (mkM 0 1 (fun _ _ => 0)) (mkM 0 1 (fun _ _ => 0))
         1 [0%nat] [0].

(** Surfaces for the split: two surfaces of three and two points, and a
    pair of surfaces the first of which has a single point. *)
Definition two_surfaces : list (point * list point) :=
  [(p000, [p100; p200]); (p010, [p001])].

Definition single_point_surface : list (point * list point) :=
  [(p000, []); (p100, [p200])].

(** Two surfaces of two points each, every pair of points at least two
    units apart, range 1. *)
Definition p030 : point := mkP 0 3 0.
Definition p230 : point := mkP 2 3 0.

Definition far_surfaces : TheanoGraphPro :=
  mkSelf 1 1 0.01 0.000001 4 2 0
         [p000] [p030; p230] [p000; p200] [p030; p230] [p000; p200]
         (mkM 0 4 (fun _ _ => 0))
         (mkM 0 2 (fun _ _ => 0)) (mkM 0 2 (fun _ _ => 0))
         2 [0%nat; 1%nat] [0].

(** ** Attributes set by the constructor

    [__init__] derives two index quantities from the inputs of the split:
    [self.npf], the position in the rest points of the first rest point of
    every surface, and [self.len_points], the number of rest points.  The
    difference is an integer and may be negative. *)

Definition npf (number_of_points_per_surface_T : list nat) : list nat :=
  cumsum (0%nat :: removelast number_of_points_per_surface_T).

Definition init_len_points {A : Type} (surface_points_all : list A)
    (number_of_points_per_surface_T : list nat) : Z :=
  (Z.of_nat (length surface_points_all) - Z.of_nat (length number_of_points_per_surface_T))%Z.

(** ** The independent term of the kriging system *)

(** [T.deg2rad] *)
Definition deg2rad (x : R) : R := x * (PI / 180).

(** Elementwise product of two vectors: Theano requires equal lengths. *)
Definition vmul (u v : list R) : option (list R) :=
  _ <- guard (length u =? length v)%nat ;;
  Some (map (fun '(x, y) => x * y) (combine u v)).

(** The orientation attributes [self.dip_angles], [self.azimuth] and
    [self.polarity] of the series are arguments here. *)
Definition b_vector (self : TheanoGraphPro) (dip_angles azimuth polarity : list R)
    : option (list R) :=
  let '(_, _, _, _, length_of_C) := matrices_shapes self in
  let sin_deg := map (fun x => sin (deg2rad x)) in
  let cos_deg := map (fun x => cos (deg2rad x)) in
  s <- vmul (sin_deg dip_angles) (sin_deg azimuth) ;;
  G_x <- vmul s polarity ;;
  s <- vmul (sin_deg dip_angles) (cos_deg azimuth) ;;
  G_y <- vmul s polarity ;;
  G_z <- vmul (cos_deg dip_angles) polarity ;;
  let G := G_x ++ G_y ++ G_z in
  let b := repeat 0 length_of_C in
  set_subvector b 0 (length G) G.

(** [solve C b] stands for [theano.tensor.slinalg.solve(C, b2)] reshaped to
    a vector, which the linear-algebra library computes; it raises on a
    singular matrix. *)
Definition solve_kriging (solve : matrix -> list R -> option (list R))
    (self : TheanoGraphPro) (dip_angles azimuth polarity : list R) : option (list R) :=
  C_matrix <- covariance_matrix self ;;
  b <- b_vector self dip_angles azimuth polarity ;;
  solve C_matrix b.

Definition compute_weights (solve : matrix -> list R -> option (list R))
    (self : TheanoGraphPro) (dip_angles azimuth polarity : list R) : option (list R) :=
  solve_kriging solve self dip_angles azimuth polarity.

(** ** The kriging system, row by row

    [mat_vec C w i] is row [i] of the product of [C] with the vector [w];
    [solves C w b] says that [w] is a solution of [C w = b], which is what
    the linear solver returns. *)

Definition mat_vec (C : matrix) (w : list R) (i : nat) : R :=
  Rsum (map (fun k => entry C i k * nth k w 0) (seq 0 (n_cols C))).

Definition solves (C : matrix) (w b : list R) : Prop :=
  length w = n_cols C /\
  forall i, (i < n_rows C)%nat -> mat_vec C w i = nth i b 0.

(** The entry of the assembled covariance matrix, block by block: rows and
    columns run over gradients ([g]), interface points ([m]), drift terms
    ([u]) and faults. *)
Definition block_entry (g m u : nat) (C_G C_I C_GI U_I U_G F_I F_G : matrix) (i j : nat) : R :=
  if (i <? g)%nat then
    if (j <? g)%nat then entry C_G i j
    else if (j <? g + m)%nat then entry C_GI (j - g) i
    else if (j <? g + m + u)%nat then entry U_G i (j - (g + m))
    else entry F_G (j - (g + m + u)) i
  else if (i <? g + m)%nat then
    if (j <? g)%nat then entry C_GI (i - g) j
    else if (j <? g + m)%nat then entry C_I (i - g) (j - g)
    else if (j <? g + m + u)%nat then entry U_I (i - g) (j - (g + m))
    else entry F_I (j - (g + m + u)) (i - g)
  else if (i <? g + m + u)%nat then
    if (j <? g)%nat then entry U_G j (i - (g + m))
    else if (j <? g + m)%nat then entry U_I (j - g) (i - (g + m))
    else 0
  else
    if (j <? g)%nat then entry F_G (i - (g + m + u)) j
    else if (j <? g + m)%nat then entry F_I (i - (g + m + u)) (j - g)
    else 0.

(** The nine drift functions of the universal kriging, as the gradient
    block differentiates them: the coordinates, their squares and their
    products, the second-degree ones scaled by [gi_reescale]. *)
Definition drift_monomial (gi : R) (c : nat) (p : point) : R :=
  match c with
  | 0%nat => px p
  | 1%nat => py p
  | 2%nat => pz p
  | 3%nat => gi * px p ^ 2
  | 4%nat => gi * py p ^ 2
  | 5%nat => gi * pz p ^ 2
  | 6%nat => gi * (px p * py p)
  | 7%nat => gi * (px p * pz p)
  | _ => gi * (py p * pz p)
  end.

(** The point [p] with coordinate [k] replaced by [t]. *)
Definition set_coord (p : point) (k : nat) (t : R) : point :=
  match k with
  | 0%nat => mkP t (py p) (pz p)
  | 1%nat => mkP (px p) t (pz p)
  | _ => mkP (px p) (py p) t
  end.

(** The Euclidean distance between two points. *)
Definition euclidean_distance (p q : point) : R :=
  sqrt ((px p - px q) ^ 2 + (py p - py q) ^ 2 + (pz p - pz q) ^ 2).

(** A solver that checks a candidate: it returns [w] when [w] solves the
    system and raises otherwise. *)
Definition solves_b (C : matrix) (w b : list R) : bool :=
  (length w =? n_cols C)%nat &&
  forallb (fun i => T_eq (mat_vec C w i) (nth i b 0)) (seq 0 (n_rows C)).

Definition checking_solver (w : list R) (C : matrix) (b : list R) : option (list R) :=
  if solves_b C w b then Some w else None.

(** The position, in a concatenation of blocks, at which each block
    starts. *)
Fixpoint block_starts (off : nat) (lengths : list nat) : list nat :=
  match lengths with
  | [] => []
  | n :: t => off :: block_starts (off + n) t
  end.

(** * Kriging of a property field: [gempy/assets/kriging.py]

    The variogram models are applied to arrays of distances element by
    element; they are embedded on one distance. *)

Record variogram_model : Type := mkVariogram {
  theoretical_model : string;
  range_ : R;
  sill : R;
  nugget : R
}.

Definition exponential_variogram_model (self : variogram_model) (d : R) : R :=
  let psill := sill self - nugget self in
  psill * (1 - exp (- (Rabs d / range_ self))) + nugget self.

Definition exponential_covariance_model (self : variogram_model) (d : R) : R :=
  let psill := sill self - nugget self in
  psill * exp (- (Rabs d / range_ self)).

Definition gaussian_variogram_model (self : variogram_model) (d : R) : R :=
  let psill := sill self - nugget self in
  psill * (1 - exp (- d ^ 2 / range_ self ^ 2)) + nugget self.

Definition gaussian_covariance_model (self : variogram_model) (d : R) : R :=
  let psill := sill self - nugget self in
  psill * exp (- d ^ 2 / range_ self ^ 2).

(** [np.piecewise(d, [d <= self.range_, d > self.range_], [..., ...])] *)
Definition spherical_variogram_model (self : variogram_model) (d : R) : R :=
  let psill := sill self - nugget self in
  if Rle_dec d (range_ self)
  then psill * ((3 * d) / (2 * range_ self) - d ^ 3 / (2 * range_ self ^ 3)) + nugget self
  else sill self.

Definition spherical_covariance_model (self : variogram_model) (d : R) : R :=
  let psill := sill self - nugget self in
  if Rle_dec d (range_ self)
  then psill * (1 - ((3 * d) / (2 * range_ self) - d ^ 3 / (2 * range_ self ^ 3)))
  else 0.

(** An unknown model name raises [KeyError]. *)
Definition calculate_semivariance (self : variogram_model) (d : R) : option R :=
  if (theoretical_model self =? "exponential")%string
  then Some (exponential_variogram_model self d)
  else if (theoretical_model self =? "gaussian")%string
  then Some (gaussian_variogram_model self d)
  else if (theoretical_model self =? "spherical")%string
  then Some (spherical_variogram_model self d)
  else None.

Definition calculate_covariance (self : variogram_model) (d : R) : option R :=
  if (theoretical_model self =? "exponential")%string
  then Some (exponential_covariance_model self d)
  else if (theoretical_model self =? "gaussian")%string
  then Some (gaussian_covariance_model self d)
  else if (theoretical_model self =? "spherical")%string
  then Some (spherical_covariance_model self d)
  else None.

(** * Gravity preprocessing: [gempy/GeoPhysics.py] *)

(** The function compiled by [compile_eu_f]: the distances between the
    points of two arrays, the radicand raised to 0. *)
Definition eu (x_1 x_2 : list point) : matrix :=
  mkM (length x_1) (length x_2)
      (fun i j =>
         let p := nth i x_1 origin in
         let q := nth j x_2 origin in
         sqrt (Rmax (sum_sq p + sum_sq q - 2 * dot p q) 0)).

(** [(self.model_grid[:, 2].max() - self.model_grid[:, 2].min()) * 0.9];
    the extrema of an empty grid raise. *)
Definition default_range (model_grid : list point) : option R :=
  z_max <- T_max (column model_grid 2) ;;
  z_min <- T_min (column model_grid 2) ;;
  Some ((z_max - z_min) * 0.9).

(** ** Further concrete inputs *)

(** A series whose reference and rest points are not aligned: two
    reference points, one rest point. *)
Definition mismatched_series : TheanoGraphPro :=
  mkSelf 1 1 0.01 0.000001 4 2 3
         [p000] [p100; p100] [p200] [p100; p100] [p200]
         (mkM 0 4 (fun _ _ => 0))
         (mkM 0 1 (fun _ _ => 0)) (mkM 0 1 (fun _ _ => 0))
         1 [0%nat] [0].

(** A series that asks for ten drift terms. *)
Definition ten_drift_terms : TheanoGraphPro :=
  mkSelf 1 1 0.01 0.000001 4 2 10
         [p000] [p100] [p200] [p100] [p200]
         (mkM 0 3 (fun _ _ => 0))
         (mkM 0 1 (fun _ _ => 0)) (mkM 0 1 (fun _ _ => 0))
         1 [0%nat] [0].

(** One horizontal orientation (dip 0, polarity 1) at the origin, one
    surface of two points on the x axis, a linear drift and no fault. *)
Definition horizontal_series : TheanoGraphPro :=
  mkSelf 1 1 0.01 0.000001 4 2 3
         [p000] [p100] [p200] [p100] [p200]
         (mkM 0 3 (fun _ _ => 0))
         (mkM 0 1 (fun _ _ => 0)) (mkM 0 1 (fun _ _ => 0))
         1 [0%nat] [0].

(** Weights that are 0 except on the drift term along z. *)
Definition vertical_drift_weights : list R := [0; 0; 0; 0; 0; 0; 1].

(** Orientation attributes of one dip: horizontal with the gradient
    pointing up, and dipping 30 degrees towards azimuth 45 with reversed
    polarity. *)
Definition level_dip : list R := [0].
Definition north_azimuth : list R := [0].
Definition normal_polarity : list R := [1].
Definition dip_30 : list R := [30].
Definition azimuth_45 : list R := [45].
Definition reversed_polarity : list R := [-1].

(** Variogram models of range 2, sill 3 and nugget 1. *)
Definition spherical_2_3_1 : variogram_model := mkVariogram "spherical" 2 3 1.
Definition exponential_2_3_1 : variogram_model := mkVariogram "exponential" 2 3 1.

(** A surface whose second point repeats its first one: the rest point
    coincides with its reference point. *)
Definition repeated_point_series : TheanoGraphPro :=
  mkSelf 1 1 0.01 0.000001 4 2 3
         [p000] [p100] [p100] [p100] [p100]
         (mkM 0 3 (fun _ _ => 0))
         (mkM 0 1 (fun _ _ => 0)) (mkM 0 1 (fun _ _ => 0))
         1 [0%nat] [0].

(** * Properties *)

(** ** Basic facts about the tensor operations *)

Lemma T_lt_ge (x y : R) : y <= x -> T_lt x y = 0.
Proof.
  intros H. unfold T_lt. destruct (Rlt_dec x y) as [Hlt | _]; [lra | reflexivity].
Qed.

Lemma T_lt_lt (x y : R) : x < y -> T_lt x y = 1.
Proof.
  intros H. unfold T_lt. destruct (Rlt_dec x y) as [_ | Hn]; [reflexivity | contradiction].
Qed.

Lemma clamp_value : sqrt 1e-12 = 1e-6.
Proof.
  replace 1e-12 with (1e-6 * 1e-6) by lra.
  apply sqrt_square. lra.
Qed.

Lemma sed_entry (x_1 x_2 : list point) (i j : nat) :
  entry (squared_euclidean_distances x_1 x_2) i j =
  sqrt (Rmax (sum_sq (nth i x_1 origin) + sum_sq (nth j x_2 origin)
              - 2 * dot (nth i x_1 origin) (nth j x_2 origin)) 1e-12).
Proof. reflexivity. Qed.

Lemma sed_lower_bound (x_1 x_2 : list point) (i j : nat) :
  1e-6 <= entry (squared_euclidean_distances x_1 x_2) i j.
Proof.
  rewrite sed_entry, <- clamp_value.
  apply sqrt_le_1; [lra | | apply Rmax_r].
  apply Rle_trans with (2 := Rmax_r _ _). lra.
Qed.

Lemma sed_pos (x_1 x_2 : list point) (i j : nat) :
  0 < entry (squared_euclidean_distances x_1 x_2) i j.
Proof.
  apply Rlt_le_trans with (2 := sed_lower_bound x_1 x_2 i j). lra.
Qed.

Lemma sed_sym (x_1 x_2 : list point) (i j : nat) :
  entry (squared_euclidean_distances x_1 x_2) i j =
  entry (squared_euclidean_distances x_2 x_1) j i.
Proof.
  rewrite !sed_entry. do 2 f_equal. unfold dot. ring.
Qed.

Lemma sed_coincident (p : point) :
  entry (squared_euclidean_distances [p] [p]) 0 0 = 1e-6.
Proof.
  rewrite sed_entry. simpl.
  replace (sum_sq p + sum_sq p - 2 * dot p p) with 0 by (unfold sum_sq, dot; ring).
  rewrite Rmax_right by lra. apply clamp_value.
Qed.

Lemma T_eq_sed_zero (x_1 x_2 : list point) (i j : nat) :
  T_eq (entry (squared_euclidean_distances x_1 x_2) i j) 0 = false.
Proof.
  unfold T_eq. destruct (Req_dec_T _ 0) as [H | _]; [| reflexivity].
  pose proof (sed_pos x_1 x_2 i j). lra.
Qed.

Lemma guard_true (b : bool) : b = true -> guard b = Some tt.
Proof. intros ->. reflexivity. Qed.

Lemma slice_len_one (n s : nat) : (s < n)%nat -> slice_len n s (s + 1) = 1%nat.
Proof. intros H. unfold slice_len. lia. Qed.

Lemma slice_full {A : Type} (l : list A) : slice l 0 (length l) = l.
Proof. unfold slice. rewrite firstn_all. reflexivity. Qed.

Lemma slice_len_mid (n a b : nat) : (b <= n)%nat -> slice_len n a b = (b - a)%nat.
Proof. intros H. unfold slice_len. lia. Qed.

Lemma slice_len_full (n : nat) : slice_len n 0 n = n.
Proof. unfold slice_len. lia. Qed.

Lemma in_slice_true (n lo hi i : nat) :
  (lo <= i)%nat -> (i < hi)%nat -> (i < n)%nat -> in_slice n lo hi i = true.
Proof.
  intros H1 H2 H3. unfold in_slice.
  apply andb_true_intro. split; [apply Nat.leb_le | apply Nat.ltb_lt]; lia.
Qed.

Lemma in_slice_false (n lo hi i : nat) :
  (i < lo)%nat \/ (hi <= i)%nat \/ (n <= i)%nat -> in_slice n lo hi i = false.
Proof.
  intros H. unfold in_slice. apply andb_false_iff.
  destruct (Nat.leb_spec lo i); [right; apply Nat.ltb_ge; lia | left; reflexivity].
Qed.

Lemma bidx_lt (b i : nat) : (i < b)%nat -> bidx b i = i.
Proof.
  intros H. unfold bidx. destruct (Nat.eqb_spec b 1); [lia | reflexivity].
Qed.

Lemma eye_off_diagonal (n i j : nat) : i <> j -> entry (T_eye n) i j = 0.
Proof.
  intros H. cbn [T_eye entry].
  destruct (Nat.eqb_spec i j) as [E | _]; [contradiction | reflexivity].
Qed.

Lemma cov_term_ge (a d : R) : a <= d -> cov_term a d = 0.
Proof.
  intros H. unfold cov_term. rewrite T_lt_ge by assumption. ring.
Qed.

Lemma cov_gradients_else_ge (a c_o hh d perp : R) :
  a <= d -> cov_gradients_else a c_o hh d perp = 0.
Proof.
  intros H. unfold cov_gradients_else. rewrite T_lt_ge by assumption.
  unfold Rdiv. ring.
Qed.

(** ** C10: the clamp keeps every distance at or above 1e-6 *)

(** C10: every entry of the matrix returned by
    [squared_euclidean_distances] is at least 1e-6, the square root of the
    1e-12 clamp; two coincident points are at distance exactly 1e-6; hence
    the test [T.eq(sed_dips_dips, 0)] of [cov_gradients] never holds and
    every entry of the gradient covariance is the "else" operand of the
    switch plus the nugget on the diagonal. *)
Theorem C10_distance_clamp :
  (forall x_1 x_2 i j, 1e-6 <= entry (squared_euclidean_distances x_1 x_2) i j) /\
  (forall p, entry (squared_euclidean_distances [p] [p]) 0 0 = 1e-6) /\
  (forall self i j,
      T_eq (entry (squared_euclidean_distances (dips_position_tiled self)
                                               (dips_position_tiled self)) i j) 0 = false /\
      entry (cov_gradients self) i j =
      cov_gradients_else
        (a_T self) (c_o_T self)
        (entry (h_u_dips (dips_position self)) i j *
         entry (transpose (h_u_dips (dips_position self))) i j)
        (entry (squared_euclidean_distances (dips_position_tiled self)
                                            (dips_position_tiled self)) i j)
        (entry (perpendicularity_matrix
                  (length (dips_position self))
                  (squared_euclidean_distances (dips_position_tiled self)
                                               (dips_position_tiled self))) i j)
      + entry (T_eye (length (dips_position_tiled self))) i j * nugget_effect_grad_T self).
Proof.
  split; [exact sed_lower_bound |].
  split; [exact sed_coincident |].
  intros self i j. split; [apply T_eq_sed_zero |].
  unfold cov_gradients. cbn [entry n_rows n_cols].
  rewrite T_eq_sed_zero. reflexivity.
Qed.

(** ** C8: the spline vanishes smoothly at the range *)

Lemma derivable_pt_lim_eq (f g : R -> R) (x l : R) :
  (forall y, f y = g y) -> derivable_pt_lim f x l -> derivable_pt_lim g x l.
Proof.
  intros E H eps Heps.
  destruct (H eps Heps) as [delta Hd].
  exists delta. intros h Hh Hlt. rewrite <- !E. apply Hd; assumption.
Qed.

Lemma derivable_pt_lim_val (f : R -> R) (x l l' : R) :
  l = l' -> derivable_pt_lim f x l -> derivable_pt_lim f x l'.
Proof. intros ->. exact (fun H => H). Qed.

Lemma monomial_deriv (c a : R) (n : nat) (d : R) :
  derivable_pt_lim (fun x => c * (x / a) ^ n) d (c * (INR n * (d / a) ^ pred n * / a)).
Proof.
  apply (derivable_pt_lim_scal (fun x => (x / a) ^ n) c d).
  apply derivable_pt_lim_val with (l := INR n * (d / a) ^ pred n * (1 * / a)).
  { ring. }
  apply (derivable_pt_lim_comp (fun x => x / a) (fun u => u ^ n)).
  - apply derivable_pt_lim_val with (l := 1 * / a + d * 0); [ring |].
    apply (derivable_pt_lim_mult id (fun _ => / a)).
    + apply derivable_pt_lim_id.
    + apply derivable_pt_lim_const.
  - apply derivable_pt_lim_pow.
Qed.

Lemma cov_poly_deriv (a d : R) :
  a <> 0 -> derivable_pt_lim (cov_poly a) d (d * grad_poly a d).
Proof.
  intros Ha.
  pose proof (monomial_deriv 7 a 2 d) as H2.
  pose proof (monomial_deriv (35 / 4) a 3 d) as H3.
  pose proof (monomial_deriv (7 / 2) a 5 d) as H5.
  pose proof (monomial_deriv (3 / 4) a 7 d) as H7.
  pose proof (derivable_pt_lim_const 1 d) as H0.
  pose proof (derivable_pt_lim_minus _ _ _ _ _ H0 H2) as S1.
  pose proof (derivable_pt_lim_plus _ _ _ _ _ S1 H3) as S2.
  pose proof (derivable_pt_lim_minus _ _ _ _ _ S2 H5) as S3.
  pose proof (derivable_pt_lim_plus _ _ _ _ _ S3 H7) as S4.
  eapply derivable_pt_lim_val; [| eapply derivable_pt_lim_eq; [| exact S4]].
  - unfold grad_poly. simpl. field. exact Ha.
  - intros y. unfold cov_poly, plus_fct, minus_fct, fct_cte. reflexivity.
Qed.

Lemma cov_poly_at_range (a : R) : a <> 0 -> cov_poly a a = 0.
Proof. intros Ha. unfold cov_poly. field. exact Ha. Qed.

Lemma grad_poly_at_range (a : R) : a <> 0 -> grad_poly a a = 0.
Proof. intros Ha. unfold grad_poly. field. exact Ha. Qed.

Lemma cov_term_at_range (a : R) : cov_term a a = 0.
Proof. apply cov_term_ge. lra. Qed.

Lemma cov_term_continuous_at_range (a : R) : a <> 0 -> continuity_pt (cov_term a) a.
Proof.
  intros Ha eps Heps.
  assert (Hc : continuity_pt (cov_poly a) a).
  { apply derivable_continuous_pt. exists (a * grad_poly a a).
    apply cov_poly_deriv, Ha. }
  destruct (Hc eps Heps) as [delta [Hdelta Hd]].
  exists delta. split; [exact Hdelta |].
  intros x Hx. rewrite cov_term_at_range.
  specialize (Hd x Hx). rewrite (cov_poly_at_range a Ha) in Hd.
  unfold cov_term, T_lt. destruct (Rlt_dec x a) as [_ | _].
  - rewrite Rmult_1_l. exact Hd.
  - rewrite Rmult_0_l. simpl. unfold R_dist. rewrite Rminus_diag, Rabs_R0. exact Heps.
Qed.

Lemma cov_term_deriv_at_range (a : R) : a <> 0 -> derivable_pt_lim (cov_term a) a 0.
Proof.
  intros Ha eps Heps.
  pose proof (cov_poly_deriv a a Ha) as Hd.
  rewrite (grad_poly_at_range a Ha), Rmult_0_r in Hd.
  destruct (Hd eps Heps) as [delta Hdelta].
  exists delta. intros h Hh Hlt.
  specialize (Hdelta h Hh Hlt).
  rewrite (cov_poly_at_range a Ha) in Hdelta.
  rewrite cov_term_at_range.
  unfold cov_term, T_lt. destruct (Rlt_dec (a + h) a) as [_ | _].
  - rewrite Rmult_1_l. exact Hdelta.
  - rewrite Rmult_0_l.
    replace ((0 - 0) / h - 0) with 0 by (unfold Rdiv; ring).
    rewrite Rabs_R0. exact Heps.
Qed.

Lemma grad_poly_continuous (a x : R) :
  a <> 0 -> continuity_pt (fun d => d * grad_poly a d) x.
Proof.
  intros Ha. unfold grad_poly. reg.
  all: repeat split; try apply pow_nonzero; assumption.
Qed.

Lemma first_derivative_continuous_at_range (a : R) :
  a <> 0 -> continuity_pt (fun d => T_lt d a * (d * grad_poly a d)) a.
Proof.
  intros Ha eps Heps.
  destruct (grad_poly_continuous a a Ha eps Heps) as [delta [Hdelta Hd]].
  exists delta. split; [exact Hdelta |].
  intros x Hx. specialize (Hd x Hx).
  rewrite (T_lt_ge a a) by lra.
  rewrite (grad_poly_at_range a Ha) in Hd.
  rewrite Rmult_0_l. rewrite Rmult_0_r in Hd.
  unfold T_lt. destruct (Rlt_dec x a) as [_ | _].
  - rewrite Rmult_1_l. exact Hd.
  - rewrite Rmult_0_l. simpl. unfold R_dist. rewrite Rminus_diag, Rabs_R0. exact Heps.
Qed.

(** C8: for a positive range [a], the polynomial of the interface
    covariance is 0 at [d = a] (that is, at [u = d / a = 1]); its first
    derivative in [d] is [d * grad_poly a d], the polynomial of the
    gradient kernels up to the factor [d], and that polynomial is 0 at
    [d = a] as well; so the compactly supported covariance term is
    continuous at [d = a], differentiable there with derivative 0, and its
    first derivative is continuous across [d = a].  With [a = 1] the first
    two identities are the identities on the coefficients. *)
Theorem C8_spline_smooth_at_range (a : R) (Ha : 0 < a) :
  cov_poly a a = 0 /\
  grad_poly a a = 0 /\
  (forall d, derivable_pt_lim (cov_poly a) d (d * grad_poly a d)) /\
  continuity_pt (cov_term a) a /\
  derivable_pt_lim (cov_term a) a 0 /\
  continuity_pt (fun d => T_lt d a * (d * grad_poly a d)) a.
Proof.
  assert (Hne : a <> 0) by lra.
  repeat split.
  - apply cov_poly_at_range, Hne.
  - apply grad_poly_at_range, Hne.
  - intros d. apply cov_poly_deriv, Hne.
  - apply cov_term_continuous_at_range, Hne.
  - apply cov_term_deriv_at_range, Hne.
  - apply first_derivative_continuous_at_range, Hne.
Qed.

(** ** The covariance matrix and its blocks *)

Lemma set_subtensor_ok (M : matrix) (r0 r1 c0 c1 : nat) (B : matrix) :
  n_rows B = slice_len (n_rows M) r0 r1 ->
  n_cols B = slice_len (n_cols M) c0 c1 ->
  set_subtensor M r0 r1 c0 c1 B
  = Some (mkM (n_rows M) (n_cols M)
              (fun i j =>
                 if in_slice (n_rows M) r0 r1 i && in_slice (n_cols M) c0 c1 j
                 then entry B (bidx (n_rows B) (i - r0)) (bidx (n_cols B) (j - c0))
                 else entry M i j)).
Proof.
  intros Hr Hc. unfold set_subtensor, broadcastable_to.
  rewrite <- Hr, <- Hc, !Nat.eqb_refl. reflexivity.
Qed.

(** Which band of rows (or columns) an index of the assembled matrix falls
    in: gradients, interface points, universal drift, faults. *)
Lemma band_cases (g m u f i : nat) :
  (i < g + m + u + f)%nat ->
  (i < g)%nat \/ (g <= i < g + m)%nat \/ (g + m <= i < g + m + u)%nat \/
  (g + m + u <= i < g + m + u + f)%nat.
Proof. lia. Qed.

Ltac decide_slices :=
  repeat match goal with
         | |- context [in_slice ?n ?lo ?hi ?i] =>
             first [ rewrite (in_slice_true n lo hi i) by lia
                   | rewrite (in_slice_false n lo hi i) by lia ]
         end;
  cbn [andb].

Lemma assemble_blocks_symmetric (g m u f : nat) (C_G C_I C_GI U_I U_G F_I F_G : matrix) :
  n_rows C_G = g -> n_cols C_G = g ->
  n_rows C_I = m -> n_cols C_I = m ->
  n_rows C_GI = m -> n_cols C_GI = g ->
  n_rows U_I = m -> n_cols U_I = u ->
  n_rows U_G = g -> n_cols U_G = u ->
  n_rows F_I = f -> n_cols F_I = m ->
  n_rows F_G = f -> n_cols F_G = g ->
  (forall i j, (i < g)%nat -> (j < g)%nat -> entry C_G i j = entry C_G j i) ->
  (forall i j, (i < m)%nat -> (j < m)%nat -> entry C_I i j = entry C_I j i) ->
  exists C,
    assemble_blocks g m u (g + m + u + f) C_G C_I C_GI U_I U_G F_I F_G = Some C /\
    n_rows C = (g + m + u + f)%nat /\
    symmetric C.
Proof.
  intros HGr HGc HIr HIc HGIr HGIc HUIr HUIc HUGr HUGc HFIr HFIc HFGr HFGc HsymG HsymI.
  unfold assemble_blocks.
  repeat (rewrite set_subtensor_ok
            by (cbn [n_rows n_cols transpose T_zeros]; unfold slice_len; lia);
          cbn [bind n_rows n_cols T_zeros]).
  eexists. split; [reflexivity |].
  cbn [n_rows n_cols T_zeros].
  split; [reflexivity |]. split; [reflexivity |].
  intros i j Hi Hj. cbn [entry n_rows n_cols transpose T_zeros].
  rewrite HGr, HGc, HIr, HIc, HGIr, HGIc, HUIr, HUIc, HUGr, HUGc, HFIr, HFIc, HFGr, HFGc.
  destruct (band_cases g m u f i Hi) as [Bi | [Bi | [Bi | Bi]]];
    destruct (band_cases g m u f j Hj) as [Bj | [Bj | [Bj | Bj]]];
    decide_slices;
    rewrite ?bidx_lt by lia;
    try reflexivity.
  - apply HsymG; lia.
  - apply HsymI; lia.
Qed.

Lemma dips_tiled_length (self : TheanoGraphPro) :
  length (dips_position_tiled self) = (length (dips_position self) * 3)%nat.
Proof. unfold dips_position_tiled. rewrite !length_app. lia. Qed.

Lemma cov_surface_points_ok (self : TheanoGraphPro) :
  length (ref_layer_points self) = length (rest_layer_points self) ->
  exists C_I,
    cov_surface_points self = Some C_I /\
    n_rows C_I = length (rest_layer_points self) /\
    n_cols C_I = length (rest_layer_points self) /\
    forall i j,
      entry C_I i j =
      c_o_T self * i_reescale self *
      (cov_term (a_T self)
         (entry (squared_euclidean_distances (rest_layer_points self)
                                             (rest_layer_points self)) i j)
       - cov_term (a_T self)
           (entry (squared_euclidean_distances (ref_layer_points self)
                                               (rest_layer_points self)) i j)
       - cov_term (a_T self)
           (entry (squared_euclidean_distances (rest_layer_points self)
                                               (ref_layer_points self)) i j)
       + cov_term (a_T self)
           (entry (squared_euclidean_distances (ref_layer_points self)
                                               (ref_layer_points self)) i j))
      + (if (i =? j)%nat then 1 else 0) * 2 * nugget_effect_scalar_T self.
Proof.
  intros Hlen.
  unfold cov_surface_points, msub, madd, elemwise2, same_shape.
  cbn [n_rows n_cols entry elemwise1 squared_euclidean_distances T_eye].
  rewrite Hlen, !Nat.eqb_refl. cbn [andb guard bind n_rows n_cols entry].
  rewrite !Nat.eqb_refl. cbn [andb guard bind n_rows n_cols entry].
  rewrite !Nat.eqb_refl. cbn [andb guard bind n_rows n_cols entry].
  rewrite !Nat.eqb_refl. cbn [andb guard bind n_rows n_cols entry].
  eexists. split; [reflexivity |]. cbn [n_rows n_cols entry].
  repeat split.
Qed.

Lemma cov_surface_points_sym (self : TheanoGraphPro) (C_I : matrix) :
  length (ref_layer_points self) = length (rest_layer_points self) ->
  cov_surface_points self = Some C_I ->
  forall i j, entry C_I i j = entry C_I j i.
Proof.
  intros Hlen HC i j.
  destruct (cov_surface_points_ok self Hlen) as [C [HC' [_ [_ He]]]].
  rewrite HC in HC'. injection HC' as ->.
  rewrite !He.
  rewrite (sed_sym (rest_layer_points self) (rest_layer_points self) i j).
  rewrite (sed_sym (ref_layer_points self) (rest_layer_points self) i j).
  rewrite (sed_sym (rest_layer_points self) (ref_layer_points self) i j).
  rewrite (sed_sym (ref_layer_points self) (ref_layer_points self) i j).
  rewrite (Nat.eqb_sym i j). ring.
Qed.

Lemma perpendicularity_sym (n : nat) (like : matrix) (i j : nat) :
  n_rows like = n_cols like ->
  entry (perpendicularity_matrix n like) i j = entry (perpendicularity_matrix n like) j i.
Proof.
  intros Hsq. unfold perpendicularity_matrix, set_subtensor_scalar.
  cbn [n_rows n_cols entry T_zeros]. rewrite Hsq.
  rewrite (andb_comm (in_slice (n_cols like) (n * 2) (n * 3) i)).
  rewrite (andb_comm (in_slice (n_cols like) n (n * 2) i)).
  rewrite (andb_comm (in_slice (n_cols like) 0 n i)).
  reflexivity.
Qed.

Lemma cov_gradients_sym (self : TheanoGraphPro) (i j : nat) :
  entry (cov_gradients self) i j = entry (cov_gradients self) j i.
Proof.
  unfold cov_gradients. cbn [entry n_rows n_cols transpose].
  rewrite !T_eq_sed_zero.
  rewrite (perpendicularity_sym _ _ i j) by reflexivity.
  rewrite (sed_sym (dips_position_tiled self) (dips_position_tiled self) i j).
  rewrite (Rmult_comm (entry (h_u_dips (dips_position self)) i j)).
  cbn [T_eye entry]. rewrite (Nat.eqb_sym i j). reflexivity.
Qed.

Lemma cov_gradients_shape (self : TheanoGraphPro) :
  n_rows (cov_gradients self) = length_of_CG self /\
  n_cols (cov_gradients self) = length_of_CG self.
Proof. split; reflexivity. Qed.

Lemma cov_interface_gradients_ok (self : TheanoGraphPro) :
  length (ref_layer_points self) = length (rest_layer_points self) ->
  exists C_GI,
    cov_interface_gradients self = Some C_GI /\
    n_rows C_GI = length_of_CGI self /\ n_cols C_GI = length_of_CG self.
Proof.
  intros Hlen.
  unfold cov_interface_gradients, msub, elemwise2, same_shape, gradient_interface_term.
  cbn [n_rows n_cols entry squared_euclidean_distances].
  rewrite Hlen, !Nat.eqb_refl. cbn [andb guard bind].
  eexists. split; [reflexivity |]. split; reflexivity.
Qed.

Lemma universal_matrix_ok (self : TheanoGraphPro) :
  length (ref_layer_points self) = length (rest_layer_points self) ->
  (n_universal_eq_T_op self <= 9)%nat ->
  exists U_I U_G,
    universal_matrix self = Some (U_I, U_G) /\
    n_rows U_I = length_of_CGI self /\ n_cols U_I = length_of_U_I self /\
    n_rows U_G = length_of_CG self /\ n_cols U_G = length_of_U_I self.
Proof.
  intros Hlen Hu. unfold universal_matrix.
  rewrite Hlen, Nat.eqb_refl. cbn [guard bind].
  eexists. eexists. split; [reflexivity |].
  cbn [n_rows n_cols submatrix set_column set_subtensor_scalar T_zeros].
  unfold slice_len, length_of_CGI, length_of_U_I, length_of_CG, n_dimensions.
  rewrite dips_tiled_length. repeat split; lia.
Qed.

Lemma faults_matrix_ok (self : TheanoGraphPro) :
  n_rows (fault_drift_at_surface_points_ref self) = n_rows (fault_matrix self) ->
  n_rows (fault_drift_at_surface_points_rest self) = n_rows (fault_matrix self) ->
  n_cols (fault_drift_at_surface_points_ref self) = length (rest_layer_points self) ->
  n_cols (fault_drift_at_surface_points_rest self) = length (rest_layer_points self) ->
  exists F_I F_G,
    faults_matrix self = Some (F_I, F_G) /\
    n_rows F_I = length_of_faults self /\ n_cols F_I = length_of_CGI self /\
    n_rows F_G = length_of_faults self /\ n_cols F_G = length_of_CG self.
Proof.
  intros H1 H2 H3 H4. unfold faults_matrix, msub, elemwise2, same_shape.
  rewrite H1, H2, H3, H4, !Nat.eqb_refl. cbn [andb guard bind].
  eexists. eexists. split; [reflexivity |].
  cbn [n_rows n_cols elemwise1 T_zeros].
  repeat split; assumption.
Qed.

(** ** C2: compact support of the kernels *)

(** C2: for a pair of points at distance at least the range [a_T], the
    compactly supported term that [cov_surface_points] computes for that
    pair is exactly 0, and so is the entry of [cov_gradients] for that pair
    off the diagonal (where no nugget is added).  An entry of the interface
    covariance combines the terms of four pairs (rest-rest, reference-rest,
    rest-reference, reference-reference); off the diagonal it is exactly 0
    when each of the four pairs is at distance at least [a_T]. *)
Theorem C2_zero_beyond_range :
  (forall a x_1 x_2 i j,
      a <= entry (squared_euclidean_distances x_1 x_2) i j ->
      cov_term a (entry (squared_euclidean_distances x_1 x_2) i j) = 0) /\
  (forall self i j,
      i <> j ->
      a_T self <= entry (squared_euclidean_distances (dips_position_tiled self)
                                                     (dips_position_tiled self)) i j ->
      entry (cov_gradients self) i j = 0) /\
  (forall self i j,
      length (ref_layer_points self) = length (rest_layer_points self) ->
      i <> j ->
      a_T self <= entry (squared_euclidean_distances (rest_layer_points self)
                                                     (rest_layer_points self)) i j ->
      a_T self <= entry (squared_euclidean_distances (ref_layer_points self)
                                                     (rest_layer_points self)) i j ->
      a_T self <= entry (squared_euclidean_distances (rest_layer_points self)
                                                     (ref_layer_points self)) i j ->
      a_T self <= entry (squared_euclidean_distances (ref_layer_points self)
                                                     (ref_layer_points self)) i j ->
      exists C_I, cov_surface_points self = Some C_I /\ entry C_I i j = 0).
Proof.
  split; [| split].
  - intros a x_1 x_2 i j H. apply cov_term_ge, H.
  - intros self i j Hij H.
    unfold cov_gradients. cbn [entry n_rows n_cols].
    rewrite T_eq_sed_zero.
    rewrite cov_gradients_else_ge by exact H.
    rewrite eye_off_diagonal by exact Hij. ring.
  - intros self i j Hlen Hij H1 H2 H3 H4.
    destruct (cov_surface_points_ok self Hlen) as [C_I [HC [_ [_ He]]]].
    exists C_I. split; [exact HC |].
    rewrite He, !cov_term_ge by assumption.
    destruct (Nat.eqb_spec i j) as [E | _]; [contradiction | ring].
Qed.

(** ** C1: symmetry of the covariance matrix *)

(** C1: for a series whose input shapes agree, [covariance_matrix] returns a
    square matrix of side [length_of_C] that equals its transpose: the
    gradient block and the interface block are symmetric, and the
    gradient-interface, universal-drift and fault-drift blocks are stored
    together with their transposes in the mirrored positions. *)
Theorem C1_covariance_matrix_symmetric (self : TheanoGraphPro) :
  admissible self ->
  exists C,
    covariance_matrix self = Some C /\
    n_rows C = length_of_C self /\
    symmetric C /\
    meq C (transpose C).
Proof.
  intros [Hlen [Hu [Hr1 [Hr2 [Hc1 Hc2]]]]].
  destruct (cov_surface_points_ok self Hlen) as [C_I [HCI [HIr [HIc _]]]].
  destruct (cov_interface_gradients_ok self Hlen) as [C_GI [HCGI [HGIr HGIc]]].
  destruct (universal_matrix_ok self Hlen Hu) as [U_I [U_G [HU [HUIr [HUIc [HUGr HUGc]]]]]].
  destruct (faults_matrix_ok self Hr1 Hr2 Hc1 Hc2)
    as [F_I [F_G [HF [HFIr [HFIc [HFGr HFGc]]]]]].
  destruct (cov_gradients_shape self) as [HGr HGc].
  destruct (assemble_blocks_symmetric
              (length_of_CG self) (length_of_CGI self) (length_of_U_I self)
              (length_of_faults self)
              (cov_gradients self) C_I C_GI U_I U_G F_I F_G
              HGr HGc HIr HIc HGIr HGIc HUIr HUIc HUGr HUGc HFIr HFIc HFGr HFGc
              (fun i j _ _ => cov_gradients_sym self i j)
              (fun i j _ _ => cov_surface_points_sym self C_I Hlen HCI i j))
    as [C [HC [HCr [HCsq Hsym]]]].
  exists C.
  split.
  { unfold covariance_matrix, matrices_shapes.
    rewrite HCI. cbn [bind]. rewrite HCGI. cbn [bind].
    rewrite HU. cbn [bind]. rewrite HF. cbn [bind]. exact HC. }
  split; [exact HCr |].
  split; [split; [exact HCsq | exact Hsym] |].
  split; [exact HCsq |]. split; [symmetry; exact HCsq |].
  intros i j Hi Hj. cbn [transpose entry]. apply Hsym; [exact Hi | rewrite HCsq; exact Hj].
Qed.

(** ** The reference / rest split *)

Section Split.

Context {A : Type}.
Implicit Types (surfaces : list (A * list A)) (x pre : list A).

Lemma ref_positions_from (off : nat) (s : A * list A) surfaces :
  off :: cumsum_from off (map (fun c => (c + 1)%nat) (removelast (counts (s :: surfaces))))
  = ref_pos off (s :: surfaces).
Proof.
  revert off s. induction surfaces as [| s' ss IH]; intros off s.
  - reflexivity.
  - change (counts (s :: s' :: ss)) with (length (snd s) :: counts (s' :: ss)).
    change (removelast (length (snd s) :: counts (s' :: ss)))
      with (length (snd s) :: removelast (counts (s' :: ss))).
    cbn [map cumsum_from ref_pos]. f_equal.
    replace (off + (length (snd s) + 1))%nat with (off + S (length (snd s)))%nat by lia.
    apply IH.
Qed.

Lemma ref_positions_eq surfaces :
  surfaces <> [] ->
  cumsum (0%nat :: map (fun c => (c + 1)%nat) (removelast (counts surfaces)))
  = ref_pos 0 surfaces.
Proof.
  destruct surfaces as [| s ss]; [congruence | intros _].
  unfold cumsum. cbn [cumsum_from]. apply ref_positions_from.
Qed.

Lemma take_rows_refs pre surfaces :
  take_rows (pre ++ flatten surfaces) (ref_pos (length pre) surfaces)
  = Some (map fst surfaces).
Proof.
  revert pre. induction surfaces as [| [h t] ss IH]; intros pre.
  - reflexivity.
  - cbn [ref_pos take_rows map fst snd].
    unfold flatten. cbn [map concat fst snd]. fold (flatten ss).
    rewrite nth_error_app2 by lia. rewrite Nat.sub_diag. cbn [nth_error bind].
    replace (pre ++ (h :: t) ++ flatten ss) with ((pre ++ h :: t) ++ flatten ss)
      by (rewrite <- app_assoc; reflexivity).
    replace (length pre + S (length t))%nat with (length (pre ++ h :: t))
      by (rewrite length_app; reflexivity).
    rewrite IH. reflexivity.
Qed.

Lemma T_repeat_refs surfaces :
  T_repeat (map fst surfaces) (counts surfaces) = Some (replicated_refs surfaces).
Proof.
  unfold T_repeat, counts. rewrite !length_map, Nat.eqb_refl. f_equal.
  unfold replicated_refs.
  induction surfaces as [| s ss IH]; [reflexivity |].
  cbn [map combine concat]. rewrite IH. reflexivity.
Qed.

Lemma clear_at_refs (pre : list nat) surfaces :
  clear_at (pre ++ repeat 1%nat (length (flatten surfaces))) (ref_pos (length pre) surfaces)
  = Some (pre ++ rest_mask_of surfaces).
Proof.
  revert pre. induction surfaces as [| [h t] ss IH]; intros pre.
  - cbn. reflexivity.
  - cbn [ref_pos clear_at snd].
    unfold flatten, rest_mask_of. cbn [map concat fst snd].
    fold (flatten ss). fold (rest_mask_of ss).
    assert (Hlt : (length pre <? length (pre ++ repeat 1%nat (length ((h :: t) ++ flatten ss))))%nat = true).
    { apply Nat.ltb_lt. rewrite length_app, repeat_length. cbn. lia. }
    rewrite Hlt. cbn [guard bind].
    rewrite firstn_app, firstn_all, Nat.sub_diag, firstn_0, app_nil_r.
    rewrite skipn_app, skipn_all2 by lia.
    replace (S (length pre) - length pre)%nat with 1%nat by lia.
    rewrite length_app. cbn [length Nat.add repeat skipn app].
    rewrite repeat_app.
    replace (pre ++ 0%nat :: repeat 1%nat (length t) ++ repeat 1%nat (length (flatten ss)))
      with ((pre ++ 0%nat :: repeat 1%nat (length t)) ++ repeat 1%nat (length (flatten ss)))
      by (rewrite <- app_assoc; reflexivity).
    replace (length pre + S (length t))%nat
      with (length (pre ++ 0%nat :: repeat 1%nat (length t)))
      by (rewrite length_app; cbn; rewrite repeat_length; reflexivity).
    rewrite IH. rewrite <- app_assoc. reflexivity.
Qed.

Lemma take_rows_shift (a : A) x (idx : list nat) :
  take_rows (a :: x) (map S idx) = take_rows x idx.
Proof.
  induction idx as [| i idx IH]; [reflexivity |].
  cbn [map take_rows nth_error]. rewrite IH. reflexivity.
Qed.

Lemma nonzero_cons (m : nat) (mask : list nat) :
  nonzero (m :: mask) =
  (if (m =? 0)%nat then [] else [0%nat]) ++ map S (nonzero mask).
Proof.
  unfold nonzero. cbn [length seq filter nth].
  rewrite <- seq_shift, filter_map_swap. cbn [nth].
  destruct (m =? 0)%nat; reflexivity.
Qed.

Lemma take_rows_nonzero x (mask : list nat) :
  length x = length mask -> take_rows x (nonzero mask) = Some (select x mask).
Proof.
  revert mask. induction x as [| a x IH]; intros [| m mask] Hlen; try discriminate.
  - reflexivity.
  - rewrite nonzero_cons. cbn [select].
    injection Hlen as Hlen.
    destruct (m =? 0)%nat.
    + cbn [app]. rewrite take_rows_shift. apply IH, Hlen.
    + cbn [app take_rows nth_error bind]. rewrite take_rows_shift, (IH mask Hlen).
      reflexivity.
Qed.

Lemma select_ones (t : list A) x (mask : list nat) :
  select (t ++ x) (repeat 1%nat (length t) ++ mask) = t ++ select x mask.
Proof.
  induction t as [| a t IH]; [reflexivity |].
  cbn. rewrite IH. reflexivity.
Qed.

Lemma select_rest surfaces :
  select (flatten surfaces) (rest_mask_of surfaces) = concat (map snd surfaces).
Proof.
  induction surfaces as [| [h t] ss IH]; [reflexivity |].
  unfold flatten, rest_mask_of. cbn [map concat fst snd].
  fold (flatten ss). fold (rest_mask_of ss).
  cbn [app select Nat.eqb]. rewrite select_ones, IH. reflexivity.
Qed.

Lemma rest_mask_length surfaces :
  length (rest_mask_of surfaces) = length (flatten surfaces).
Proof.
  induction surfaces as [| [h t] ss IH]; [reflexivity |].
  unfold flatten, rest_mask_of in *. cbn [map concat fst snd].
  rewrite !length_app, IH. cbn. rewrite repeat_length. reflexivity.
Qed.

Lemma flatten_length surfaces :
  length (flatten surfaces) = (length (concat (map snd surfaces)) + length surfaces)%nat.
Proof.
  induction surfaces as [| [h t] ss IH]; [reflexivity |].
  unfold flatten in *. cbn [map concat fst snd].
  rewrite !length_app, IH. cbn [length]. lia.
Qed.

Lemma replicated_refs_length surfaces :
  length (replicated_refs surfaces) = length (concat (map snd surfaces)).
Proof.
  induction surfaces as [| [h t] ss IH]; [reflexivity |].
  unfold replicated_refs in *. cbn [map concat fst snd].
  rewrite !length_app, IH, repeat_length. reflexivity.
Qed.

(** What the split returns on a non-empty list of surfaces. *)
Lemma set_rest_ref_matrix_split surfaces :
  surfaces <> [] ->
  set_rest_ref_matrix (flatten surfaces) (counts surfaces)
  = Some (replicated_refs surfaces, concat (map snd surfaces),
          rest_mask_of surfaces, nonzero (rest_mask_of surfaces)).
Proof.
  intros Hne. unfold set_rest_ref_matrix.
  rewrite (ref_positions_eq surfaces Hne).
  pose proof (take_rows_refs [] surfaces) as Hrefs.
  pose proof (clear_at_refs [] surfaces) as Hmask.
  cbn [app length] in Hrefs, Hmask.
  rewrite Hrefs. cbn [bind].
  rewrite T_repeat_refs. cbn [bind].
  rewrite Hmask. cbn [bind].
  rewrite take_rows_nonzero by (symmetry; apply rest_mask_length).
  cbn [bind]. rewrite select_rest. reflexivity.
Qed.

End Split.

(** C5: for surfaces that each have at least one point beyond their first
    one, [set_rest_ref_matrix] returns a rest set of (total number of
    points) - (number of surfaces) points, namely the points after the
    first of each surface in order, and a reference set made of the first
    point of each surface repeated once per rest point of that surface, so
    that the two sets are aligned row by row. *)
Theorem C5_reference_rest_split {A : Type} (surfaces : list (A * list A)) :
  surfaces <> [] ->
  Forall (fun s => (1 <= length (snd s))%nat) surfaces ->
  exists ref_points rest_points rest_mask idx,
    set_rest_ref_matrix (flatten surfaces) (counts surfaces)
    = Some (ref_points, rest_points, rest_mask, idx) /\
    length rest_points = (length (flatten surfaces) - length surfaces)%nat /\
    rest_points = concat (map snd surfaces) /\
    ref_points = replicated_refs surfaces /\
    length ref_points = length rest_points.
Proof.
  intros Hne _.
  exists (replicated_refs surfaces), (concat (map snd surfaces)),
         (rest_mask_of surfaces), (nonzero (rest_mask_of surfaces)).
  split; [apply set_rest_ref_matrix_split, Hne |].
  split; [rewrite flatten_length; lia |].
  split; [reflexivity |].
  split; [reflexivity | apply replicated_refs_length].
Qed.

(** C6, as the code has it: [set_rest_ref_matrix] does not check how many
    points a surface contributes.  When some surface consists of its first
    point only, the split is still produced: the rest set has (total number
    of points) - (number of surfaces) points, and that surface contributes
    no rest point and no reference row. *)
Theorem C6_single_point_surface_is_split {A : Type} (surfaces : list (A * list A)) (h : A) :
  In (h, []) surfaces ->
  exists ref_points rest_points rest_mask idx,
    set_rest_ref_matrix (flatten surfaces) (counts surfaces)
    = Some (ref_points, rest_points, rest_mask, idx) /\
    length rest_points = (length (flatten surfaces) - length surfaces)%nat /\
    rest_points = concat (map snd surfaces) /\
    ref_points = replicated_refs surfaces.
Proof.
  intros Hin.
  assert (Hne : surfaces <> []) by (intros ->; contradiction).
  exists (replicated_refs surfaces), (concat (map snd surfaces)),
         (rest_mask_of surfaces), (nonzero (rest_mask_of surfaces)).
  split; [apply set_rest_ref_matrix_split, Hne |].
  split; [rewrite flatten_length; lia |].
  split; reflexivity.
Qed.

(** ** C9: layout of the evaluation points *)

Lemma nth_error_slice {A : Type} (l : list A) (a b k : nat) (d : A) :
  (b <= length l)%nat -> (a + k < b)%nat ->
  nth_error (slice l a b) k = Some (nth (a + k) l d).
Proof.
  intros Hb Hk. unfold slice.
  rewrite nth_error_skipn, nth_error_firstn.
  destruct (Nat.ltb_spec (a + k) b) as [_ | Hge]; [| lia].
  apply nth_error_nth'. lia.
Qed.

Lemma take_rows_slice {A : Type} (l : list A) (a b : nat) (idx : list nat) (d : A) :
  (b <= length l)%nat -> Forall (fun k => (a + k < b)%nat) idx ->
  take_rows (slice l a b) idx = Some (map (fun k => nth (a + k) l d) idx).
Proof.
  intros Hb Hidx. induction Hidx as [| k idx Hk _ IH]; [reflexivity |].
  cbn [take_rows map]. rewrite (nth_error_slice l a b k d Hb Hk). cbn [bind].
  rewrite IH. reflexivity.
Qed.

Lemma py_slice_tail {A : Type} (l : list A) (g L : nat) :
  length l = (g + 2 * L)%nat ->
  py_slice l (-2 * Z.of_nat L) (- Z.of_nat L) = slice l g (g + L).
Proof.
  intros Hlen. unfold py_slice, py_bound. rewrite Hlen.
  destruct L as [| L'].
  - cbn. unfold slice. rewrite Nat.add_0_r.
    cbn [firstn skipn]. symmetry. apply skipn_all2. rewrite length_firstn. lia.
  - destruct (Z.ltb_spec (-2 * Z.of_nat (S L')) 0) as [_ | H]; [| lia].
    destruct (Z.ltb_spec (- Z.of_nat (S L')) 0) as [_ | H]; [| lia].
    f_equal; lia.
Qed.

(** C9, as the code has it: the evaluation points are the grid points
    followed by the rest points of all series and then by the reference
    points of all series; with [len_points] the common length of those two
    blocks, the slice [Z_x[-2 * len_points: -len_points]] of a field over
    these points is the block of values at the rest points, and indexing it
    at [npf_op] returns, for each offset [k], the field value at evaluation
    point [|grid| + k], which is rest point [k]. *)
Theorem C9_evaluation_points_layout (self : TheanoGraphPro) (grid : list point)
    (Z_x : list R) :
  length (rest_layer_points_all self) = len_points self ->
  length (ref_layer_points_all self) = len_points self ->
  length Z_x = length (x_to_interpolate self grid) ->
  Forall (fun k => (k < len_points self)%nat) (npf_op self) ->
  x_to_interpolate self grid
  = grid ++ rest_layer_points_all self ++ ref_layer_points_all self /\
  py_slice Z_x (-2 * Z.of_nat (len_points self)) (- Z.of_nat (len_points self))
  = slice Z_x (length grid) (length grid + len_points self) /\
  surface_points_values self Z_x
  = Some (map (fun k => nth (length grid + k) Z_x 0) (npf_op self)) /\
  forall k, In k (npf_op self) ->
            nth (length grid + k) (x_to_interpolate self grid) origin
            = nth k (rest_layer_points_all self) origin.
Proof.
  intros Hrest Href HZ Hnpf.
  assert (Hlen : length Z_x = (length grid + 2 * len_points self)%nat).
  { rewrite HZ. unfold x_to_interpolate. rewrite !length_app, Hrest, Href. lia. }
  split; [reflexivity |].
  split; [apply py_slice_tail, Hlen |].
  split.
  - unfold surface_points_values. rewrite (py_slice_tail _ _ _ Hlen).
    apply take_rows_slice; [lia |].
    eapply Forall_impl; [| exact Hnpf]. cbv beta. intros k Hk. lia.
  - intros k Hk. rewrite Forall_forall in Hnpf. specialize (Hnpf k Hk).
    unfold x_to_interpolate.
    rewrite app_nth2 by lia.
    replace (length grid + k - length grid)%nat with k by lia.
    apply app_nth1. lia.
Qed.

(** ** Segmentation: what [compare] and its scan compute *)

Lemma compare_ok (a b : R) (s : nat) (Z_x : list R) (l : slope_t) (ns drift : matrix) :
  slope_fits l (length Z_x) = true ->
  n_rows drift = n_rows ns -> n_cols drift = n_cols ns ->
  (s + 1 < n_cols ns)%nat ->
  exists M,
    compare a b s Z_x l ns drift = Some M /\
    n_rows M = n_rows ns /\ n_cols M = length Z_x /\
    forall p i,
      entry M p i = sigmoid_pair (entry ns p s) (entry ns p (s + 1)) (entry drift p s)
                                 (slope_at l i) (nth i Z_x 0) a b.
Proof.
  intros Hl Hr Hc Hs. unfold compare.
  rewrite (guard_true _ Hl). cbn [bind].
  unfold msub, elemwise2, same_shape, column_reshaped. cbn [n_rows n_cols entry].
  rewrite !slice_len_one by lia. rewrite Hr.
  rewrite !Nat.eqb_refl. cbn [andb guard bind n_rows n_cols entry].
  rewrite !Nat.eqb_refl. cbn [andb guard bind].
  eexists. split; [reflexivity |]. cbn [n_rows n_cols entry].
  split; [lia |]. split; [reflexivity |].
  intros p i. unfold sigmoid_pair. reflexivity.
Qed.

Lemma compare_scan_ok (Z_x : list R) (l : slope_t) (ns drift : matrix)
    (thresholds : list R) (starts : list nat) :
  slope_fits l (length Z_x) = true ->
  n_rows drift = n_rows ns -> n_cols drift = n_cols ns ->
  Forall (fun s => (s + 1 < n_cols ns)%nat) starts ->
  exists steps,
    compare_scan thresholds starts Z_x l ns drift = Some steps /\
    Forall (fun M => n_rows M = n_rows ns /\ n_cols M = length Z_x) steps /\
    forall p i,
      map (fun M => entry M p i) steps =
      map (fun '((a, b), s) =>
             sigmoid_pair (entry ns p s) (entry ns p (s + 1)) (entry drift p s)
                          (slope_at l i) (nth i Z_x 0) a b)
          (combine (adjacent_pairs thresholds) starts).
Proof.
  intros Hl Hr Hc. revert starts.
  induction thresholds as [| a thr IH]; intros starts Hs.
  - exists []. repeat split; constructor.
  - destruct thr as [| b thr'].
    + exists []. cbn. destruct starts; repeat split; constructor.
    + destruct starts as [| s starts'].
      * exists []. repeat split; constructor.
      * inversion Hs as [| ? ? Hs1 Hs2]; subst.
        destruct (compare_ok a b s Z_x l ns drift Hl Hr Hc Hs1)
          as [M [HM [HMr [HMc HMe]]]].
        destruct (IH starts' Hs2) as [steps [Hsteps [Hshape Hentries]]].
        exists (M :: steps).
        split.
        { cbn [compare_scan]. rewrite HM. cbn [bind].
          cbn [compare_scan] in Hsteps. rewrite Hsteps. reflexivity. }
        split; [constructor; [split; assumption | exact Hshape] |].
        intros p i. change (adjacent_pairs (a :: b :: thr'))
          with ((a, b) :: adjacent_pairs (b :: thr')).
        cbn [combine map]. rewrite HMe, Hentries. reflexivity.
Qed.

Lemma T_arange_even (u : nat) :
  T_arange (u * 2) 2 = map (fun k => (k * 2)%nat) (seq 0 u).
Proof.
  unfold T_arange. f_equal. f_equal.
  symmetry. apply (Nat.div_unique _ 2 u 1); lia.
Qed.

Lemma T_arange_even_bound (u : nat) :
  Forall (fun s => (s + 1 < u * 2)%nat) (T_arange (u * 2) 2).
Proof.
  rewrite T_arange_even. apply Forall_forall. intros s Hs.
  apply in_map_iff in Hs. destruct Hs as [k [<- Hk]].
  apply in_seq in Hk. lia.
Qed.

Lemma thresholds_ok (Z_x sfasp : list R) (max_pot min_pot : R) :
  T_max Z_x = Some max_pot -> T_min Z_x = Some min_pot ->
  segmentation_thresholds Z_x sfasp
  = Some ([max_pot + (max_pot - min_pot) * 0.01] ++ sfasp ++
          [min_pot - (max_pot - min_pot) * 0.01]).
Proof.
  intros Hmax Hmin. unfold segmentation_thresholds. rewrite Hmax, Hmin. reflexivity.
Qed.

Lemma scan_runs (t : R) (sfasp : list R) (t' : R) (u : nat) :
  (0 < u)%nat ->
  combine (adjacent_pairs ([t] ++ sfasp ++ [t'])) (T_arange (u * 2) 2) <> [].
Proof.
  intros Hu. rewrite T_arange_even.
  destruct u as [| u']; [lia |].
  destruct sfasp; cbn; discriminate.
Qed.

(** C4: on a non-empty field, the segmentator builds the thresholds
    [max(Z) + pad, surface-point values in order, min(Z) - pad] with
    [pad = (max(Z) - min(Z)) * 0.01]; [export_formation_block] returns a
    block with one row per row of the identifiers and one column per
    evaluation point, whose entry is the sum, over the adjacent threshold
    pairs [(a, b)] taken with the column offsets 0, 2, 4, ..., of
    [- id_low / (1 + exp(- l * (Z - a))) - id_high / (1 + exp(l * (Z - b))) + drift],
    where [l = slope / (max(Z) - min(Z))]. *)
Theorem C4_formation_block (Z_x sfasp : list R) (values : matrix) (slope : R)
    (max_pot min_pot : R) :
  T_max Z_x = Some max_pot -> T_min Z_x = Some min_pot ->
  (0 < n_cols values)%nat ->
  let boundary_pad := (max_pot - min_pot) * 0.01 in
  let thresholds := [max_pot + boundary_pad] ++ sfasp ++ [min_pot - boundary_pad] in
  let l := slope / (max_pot - min_pot) in
  segmentation_thresholds Z_x sfasp = Some thresholds /\
  exists block,
    export_formation_block Z_x sfasp values slope = Some block /\
    n_rows block = n_rows values /\ n_cols block = length Z_x /\
    forall p i,
      entry block p i =
      Rsum (map (fun '((a, b), s) =>
                   sigmoid_pair (formation_ids values p s) (formation_ids values p (s + 1))
                                (formation_drift values p s) l (nth i Z_x 0) a b)
                (combine (adjacent_pairs thresholds) (T_arange (n_cols values * 2) 2))).
Proof.
  intros Hmax Hmin Hu boundary_pad thresholds l.
  split; [apply thresholds_ok; assumption |].
  unfold export_formation_block.
  rewrite Hmax, Hmin, (thresholds_ok Z_x sfasp max_pot min_pot Hmax Hmin).
  cbn [bind]. fold boundary_pad. fold thresholds. fold l.
  unfold set_whole_column. cbn [n_rows n_cols entry repeat_columns_twice].
  assert (G0 : guard (0 <? n_cols values * 2)%nat = Some tt)
    by (apply guard_true, Nat.ltb_lt; lia).
  assert (G1 : guard (n_cols values * 2 - 1 <? n_cols values * 2)%nat = Some tt)
    by (apply guard_true, Nat.ltb_lt; lia).
  assert (G2 : guard (1 <? n_cols values * 2)%nat = Some tt)
    by (apply guard_true, Nat.ltb_lt; lia).
  repeat (rewrite ?G0, ?G1, ?G2; cbn [bind n_rows n_cols entry]).
  match goal with
  | |- context [compare_scan _ _ _ _ ?ns ?dr] =>
      destruct (compare_scan_ok Z_x (Scalar l) ns dr thresholds
                  (T_arange (n_cols values * 2) 2) eq_refl eq_refl eq_refl
                  (T_arange_even_bound (n_cols values)))
        as [steps [Hsteps [Hshape Hentries]]]
  end.
  rewrite Hsteps. cbn [bind].
  destruct steps as [| first steps'].
  { exfalso. specialize (Hentries 0%nat 0%nat). cbn [map] in Hentries.
    symmetry in Hentries. apply map_eq_nil in Hentries.
    exact (scan_runs _ sfasp _ (n_cols values) Hu Hentries). }
  eexists. split; [reflexivity |]. cbn [n_rows n_cols entry].
  inversion Hshape as [| ? ? [Hr Hc] _]; subst.
  split; [exact Hr |]. split; [exact Hc |].
  intros p i. rewrite Hentries. reflexivity.
Qed.

(** ** C7: slopes of the fault segmentation *)

Lemma select_finite_faults_length (svd_Vh : matrix -> matrix) (self : TheanoGraphPro)
    (n_series : Z) (grid : list point) (sel : list bool) :
  select_finite_faults svd_Vh self n_series grid = Some sel ->
  length sel = length grid.
Proof.
  unfold select_finite_faults, bind. intros H.
  repeat match type of H with
         | match ?m with Some _ => _ | None => None end = Some _ =>
             destruct m; [| discriminate]
         end.
  injection H as <-. rewrite !length_map. reflexivity.
Qed.

Lemma fault_slopes_nth (max_pot min_pot slope offset_slope : R) (sel : list bool) (i : nat) :
  (i < length sel)%nat ->
  nth i (fault_slopes max_pot min_pot slope offset_slope sel) 0
  = (if nth i sel false then offset_slope else slope) / (max_pot - min_pot).
Proof.
  revert i. unfold fault_slopes.
  induction sel as [| s sel IH]; intros i Hi; [inversion Hi |].
  destruct i as [| i]; cbn [map nth].
  - destruct s; reflexivity.
  - apply IH. cbn [length] in Hi. lia.
Qed.

(** C7, as the code has it: for a fault series whose field is not constant
    ([min(Z) < max(Z)]), the block is the sum of the sigmoid pairs computed
    with one slope per evaluation point; a point flagged by the ellipse test
    of [select_finite_faults] has slope [5000 / (max(Z) - min(Z))], a point
    not flagged has slope [50 / (max(Z) - min(Z))], and the first is
    strictly larger than the second. *)
Theorem C7_fault_slopes (svd_Vh : matrix -> matrix) (self : TheanoGraphPro)
    (Z_x sfasp : list R) (values : matrix) (n_series : Z) (grid : list point)
    (sel : list bool) (max_pot min_pot : R) :
  select_finite_faults svd_Vh self n_series (x_to_interpolate self grid) = Some sel ->
  length Z_x = length (x_to_interpolate self grid) ->
  T_max Z_x = Some max_pot -> T_min Z_x = Some min_pot ->
  min_pot < max_pot ->
  (0 < n_rows values)%nat -> (0 < n_cols values)%nat ->
  let boundary_pad := (max_pot - min_pot) * 0.01 in
  let thresholds := [max_pot + boundary_pad] ++ sfasp ++ [min_pot - boundary_pad] in
  let l := fault_slopes max_pot min_pot fault_slope fault_offset_slope sel in
  (exists block,
      compute_fault_block svd_Vh self Z_x sfasp values n_series grid = Some block /\
      n_rows block = 1%nat /\ n_cols block = length Z_x /\
      forall p i,
        entry block p i =
        Rsum (map (fun '((a, b), s) =>
                     sigmoid_pair (fault_ids values s) (fault_ids values (s + 1))
                                  (fault_drift values s) (nth i l 0) (nth i Z_x 0) a b)
                  (combine (adjacent_pairs thresholds) (T_arange (n_cols values * 2) 2)))) /\
  (forall i j,
      (i < length sel)%nat -> (j < length sel)%nat ->
      nth i sel false = true -> nth j sel false = false ->
      nth i l 0 = 5000 / (max_pot - min_pot) /\
      nth j l 0 = 50 / (max_pot - min_pot) /\
      nth j l 0 < nth i l 0).
Proof.
  intros Hsel HZ Hmax Hmin Hrange Hrows Hu boundary_pad thresholds l.
  split.
  - unfold compute_fault_block. rewrite Hsel. cbn [bind].
    unfold export_fault_block.
    rewrite Hmax, Hmin, (thresholds_ok Z_x sfasp max_pot min_pot Hmax Hmin).
    cbn [bind]. fold boundary_pad. fold thresholds. fold l.
    unfold select_row, set_whole_column.
    assert (Gr : guard (0 <? n_rows values)%nat = Some tt)
      by (apply guard_true, Nat.ltb_lt; lia).
    assert (G0 : guard (0 <? n_cols values * 2)%nat = Some tt)
      by (apply guard_true, Nat.ltb_lt; lia).
    assert (G1 : guard (n_cols values * 2 - 1 <? n_cols values * 2)%nat = Some tt)
      by (apply guard_true, Nat.ltb_lt; lia).
    assert (G2 : guard (1 <? n_cols values * 2)%nat = Some tt)
      by (apply guard_true, Nat.ltb_lt; lia).
    repeat (rewrite ?Gr, ?G0, ?G1, ?G2;
            cbn [bind n_rows n_cols entry repeat_columns_twice]).
    assert (Hfit : slope_fits (Vector l) (length Z_x) = true).
    { cbn [slope_fits]. apply Nat.eqb_eq. unfold l, fault_slopes.
      rewrite length_map, HZ.
      apply (select_finite_faults_length _ _ _ _ _ Hsel). }
    match goal with
    | |- context [compare_scan _ _ _ _ ?ns ?dr] =>
        destruct (compare_scan_ok Z_x (Vector l) ns dr thresholds
                    (T_arange (n_cols values * 2) 2) Hfit eq_refl eq_refl
                    (T_arange_even_bound (n_cols values)))
          as [steps [Hsteps [Hshape Hentries]]]
    end.
    rewrite Hsteps. cbn [bind].
    destruct steps as [| first steps'].
    { exfalso. specialize (Hentries 0%nat 0%nat). cbn [map] in Hentries.
      symmetry in Hentries. apply map_eq_nil in Hentries.
      exact (scan_runs _ sfasp _ (n_cols values) Hu Hentries). }
    eexists. split; [reflexivity |]. cbn [n_rows n_cols entry].
    inversion Hshape as [| ? ? [Hr Hc] _]; subst.
    split; [exact Hr |]. split; [exact Hc |].
    intros p i. rewrite Hentries. reflexivity.
  - intros i j Hi Hj Hin Hout. unfold l.
    rewrite !fault_slopes_nth by assumption. rewrite Hin, Hout.
    unfold fault_offset_slope, fault_slope.
    split; [reflexivity |]. split; [reflexivity |].
    apply Rmult_lt_compat_r; [apply Rinv_0_lt_compat; lra | lra].
Qed.

(** ** C3: evaluation of the scalar field, in one chunk and in several *)

Lemma slice_length {A : Type} (l : list A) (a b : nat) :
  length (slice l a b) = slice_len (length l) a b.
Proof.
  unfold slice, slice_len. rewrite length_skipn, length_firstn. reflexivity.
Qed.

Lemma nth_firstn_lt {A : Type} (l : list A) (b n : nat) (d : A) :
  (n < b)%nat -> nth n (firstn b l) d = nth n l d.
Proof.
  revert l b. induction n as [| n IH]; intros l b H.
  - destruct b as [| b]; [lia |]. destruct l; reflexivity.
  - destruct b as [| b]; [lia |]. destruct l as [| x l]; [reflexivity |].
    cbn [firstn nth]. apply IH. lia.
Qed.

Lemma nth_slice {A : Type} (l : list A) (a b j : nat) (d : A) :
  (a + j < b)%nat -> nth j (slice l a b) d = nth (a + j) l d.
Proof.
  intros H. unfold slice. rewrite nth_skipn. apply nth_firstn_lt, H.
Qed.

Lemma column_nth (pts : list point) (k j : nat) :
  nth j (column pts k) 0 = coord (nth j pts origin) k.
Proof.
  assert (E : coord origin k = 0) by (destruct k as [| [| k]]; reflexivity).
  unfold column. rewrite <- (map_nth (fun p => coord p k)), E. reflexivity.
Qed.

Lemma hu_points_entry (dips pts : list point) (i j : nat) :
  entry (hu_points dips pts) i j
  = if (i <? length dips + length dips)%nat
    then if (i <? length dips)%nat
         then coord (nth i dips origin) 0 - coord (nth j pts origin) 0
         else coord (nth (i - length dips) dips origin) 1 - coord (nth j pts origin) 1
    else coord (nth (i - (length dips + length dips)) dips origin) 2
         - coord (nth j pts origin) 2.
Proof.
  unfold hu_points, T_vertical_stack, transpose, row_minus_col.
  cbn [n_rows n_cols entry]. rewrite !column_nth.
  unfold column. rewrite !length_map. reflexivity.
Qed.

Lemma hu_points_slice (dips grid_val : list point) (a b i j : nat) :
  (a + j < b)%nat ->
  entry (hu_points dips (slice grid_val a b)) i j = entry (hu_points dips grid_val) i (a + j).
Proof.
  intros H. rewrite !hu_points_entry, !(nth_slice grid_val a b j origin H). reflexivity.
Qed.

Lemma sed_slice (x_1 grid_val : list point) (a b i j : nat) :
  (a + j < b)%nat ->
  entry (squared_euclidean_distances x_1 (slice grid_val a b)) i j
  = entry (squared_euclidean_distances x_1 grid_val) i (a + j).
Proof.
  intros H. rewrite !sed_entry, (nth_slice grid_val a b j origin H). reflexivity.
Qed.

(** *** The gradient, interface and drift contributions on a chunk

    Evaluated on the chunk [a:b] of the evaluation points and of the tiled
    weights, each of these three contributions is the corresponding slice
    of its value on all the points. *)

Section Chunk.

Variables (self : TheanoGraphPro) (weights : list R) (grid_val : list point) (a b : nat).
Hypothesis Hev : evaluable self weights grid_val.
Hypothesis Hab : (a <= b <= length grid_val)%nat.

Let W := submatrix (extend_dual_kriging weights (length grid_val))
                   0 (length weights) a b.

Lemma weights_split :
  length weights
  = (length_of_CG self + length_of_CGI self + length_of_U_I self + length_of_faults self)%nat.
Proof. destruct Hev as [Hw _]. exact Hw. Qed.

Lemma chunk_width : slice_len (length grid_val) a b = (b - a)%nat.
Proof. apply slice_len_mid. lia. Qed.

Lemma contribution_gradient_interface_chunk :
  contribution_gradient_interface self (slice grid_val a b) W
  = Some (map (fun j => gradient_part self weights grid_val (a + j)) (seq 0 (b - a))).
Proof.
  pose proof weights_split as Hw.
  unfold contribution_gradient_interface, mmul, elemwise2, same_shape, W.
  cbn [n_rows n_cols entry submatrix extend_dual_kriging elemwise1
       squared_euclidean_distances Nat.add].
  rewrite slice_length, chunk_width, !slice_len_full.
  rewrite (slice_len_mid (length weights) 0 (length_of_CG self)) by lia.
  rewrite Nat.sub_0_r. unfold length_of_CG at 1.
  rewrite !Nat.eqb_refl. cbn [andb guard bind].
  unfold T_sum_axis0. cbn [n_rows n_cols entry]. f_equal.
  apply map_ext_in. intros j Hj. apply in_seq in Hj.
  unfold gradient_part. f_equal. apply map_ext. intros k.
  rewrite hu_points_slice by lia.
  rewrite <- !sed_entry, !sed_slice by lia. reflexivity.
Qed.

Lemma contribution_interface_chunk :
  contribution_interface self (slice grid_val a b) W
  = Some (map (fun j => interface_part self weights grid_val (a + j)) (seq 0 (b - a))).
Proof.
  pose proof weights_split as Hw. destruct Hev as [_ [Hlen _]].
  unfold contribution_interface, mmul, msub, elemwise2, same_shape, W.
  cbn [n_rows n_cols entry submatrix extend_dual_kriging elemwise1
       squared_euclidean_distances Nat.add].
  rewrite Hlen, !Nat.eqb_refl. cbn [andb guard bind n_rows n_cols entry].
  rewrite slice_length, chunk_width, !slice_len_full.
  rewrite (slice_len_mid (length weights) (length_of_CG self)
                         (length_of_CG self + length_of_CGI self)) by lia.
  replace (length_of_CG self + length_of_CGI self - length_of_CG self)%nat
    with (length_of_CGI self) by lia.
  unfold length_of_CGI at 1.
  rewrite !Nat.eqb_refl. cbn [andb guard bind].
  unfold T_sum_axis0. cbn [n_rows n_cols entry]. f_equal.
  apply map_ext_in. intros j Hj. apply in_seq in Hj.
  unfold interface_part. f_equal. apply map_ext. intros k.
  rewrite <- !sed_entry, !sed_slice by lia. reflexivity.
Qed.

Lemma contribution_universal_drift_chunk (a' b' : nat) :
  contribution_universal_drift self (slice grid_val a b) W a' b'
  = Some (map (fun j => drift_part self weights grid_val (a + j)) (seq 0 (b - a))).
Proof.
  pose proof weights_split as Hw. destruct Hev as [_ [_ [Hu _]]].
  unfold contribution_universal_drift, mmul, elemwise2, same_shape, W.
  cbn [n_rows n_cols entry submatrix extend_dual_kriging elemwise1 Nat.add].
  rewrite slice_length, chunk_width, !slice_len_full.
  rewrite (slice_len_mid (length weights) (length_of_CG self + length_of_CGI self)
                         (length_of_CG self + length_of_CGI self + length_of_U_I self))
    by lia.
  replace (length_of_CG self + length_of_CGI self + length_of_U_I self
           - (length_of_CG self + length_of_CGI self))%nat
    with (length_of_U_I self) by lia.
  rewrite length_firstn, length_app, !repeat_length.
  replace (Nat.min (n_universal_eq_T_op self) (3 + 6)) with (n_universal_eq_T_op self)
    by lia.
  unfold length_of_U_I at 1.
  rewrite !Nat.eqb_refl. cbn [andb guard bind n_rows n_cols entry].
  rewrite (slice_len_mid 9 0 (n_universal_eq_T_op self)) by lia.
  rewrite Nat.sub_0_r, !Nat.eqb_refl. cbn [andb guard bind].
  unfold T_sum_axis0. cbn [n_rows n_cols entry]. unfold drift_part.
  f_equal. apply map_ext_in. intros j Hj. apply in_seq in Hj. f_equal.
  apply map_ext_in. intros k Hk. apply in_seq in Hk.
  unfold length_of_U_I in Hk.
  rewrite nth_firstn, (nth_slice grid_val a b j origin) by lia.
  destruct (Nat.ltb_spec k (n_universal_eq_T_op self)) as [_ | Hge]; [reflexivity | lia].
Qed.

End Chunk.

(** *** The evaluation in one chunk *)

Section OneChunk.

Variables (self : TheanoGraphPro) (weights : list R) (grid_val : list point).
Hypothesis Hev : evaluable self weights grid_val.

Let W := submatrix (extend_dual_kriging weights (length grid_val))
                   0 (length weights) 0 (length grid_val).

Lemma contribution_faults_whole :
  contribution_faults self W 0 (length grid_val)
  = Some (map (fault_part self weights) (seq 0 (length grid_val))).
Proof.
  pose proof (weights_split self weights grid_val Hev) as Hw.
  destruct Hev as [_ [_ [_ [Hcols Hrows]]]].
  unfold contribution_faults, mmul, elemwise2, same_shape, W.
  cbn [n_rows n_cols entry submatrix extend_dual_kriging elemwise1 Nat.add].
  rewrite !slice_len_full.
  rewrite (slice_len_mid (length weights)
                         (length_of_CG self + length_of_CGI self + length_of_U_I self)
                         (length weights)) by lia.
  replace (length weights
           - (length_of_CG self + length_of_CGI self + length_of_U_I self))%nat
    with (length_of_faults self) by lia.
  replace (slice_len (n_rows (fault_matrix self)) 0 (length grid_val))
    with (length_of_faults self) by (unfold slice_len, length_of_faults; lia).
  rewrite Hcols, !Nat.eqb_refl. cbn [andb guard bind].
  unfold T_sum_axis0. cbn [n_rows n_cols entry]. reflexivity.
Qed.

Lemma vadd_maps (f g : nat -> R) (l : list nat) :
  vadd (map f l) (map g l) = Some (map (fun j => f j + g j) l).
Proof.
  unfold vadd. rewrite !length_map, Nat.eqb_refl. cbn [guard bind]. f_equal.
  induction l as [| x l IH]; [reflexivity |].
  cbn [map combine]. rewrite IH. reflexivity.
Qed.

Lemma set_subvector_whole (Z_x v : list R) (n : nat) :
  length Z_x = n -> length v = n ->
  set_subvector Z_x 0 n v = Some v.
Proof.
  intros <- Hlen. unfold set_subvector, broadcastable_to.
  rewrite slice_len_full, Hlen, Nat.eqb_refl. cbn [orb guard bind]. f_equal.
  rewrite <- Hlen.
  transitivity (map (fun i => nth i v 0) (seq 0 (length v))).
  - apply map_ext_in. intros i Hi. apply in_seq in Hi.
    rewrite in_slice_true by lia.
    rewrite Nat.sub_0_r, bidx_lt by lia. reflexivity.
  - clear Hlen. induction v as [| x v IH]; [reflexivity |].
    cbn [length seq map nth]. f_equal.
    rewrite <- seq_shift, map_map. exact IH.
Qed.

(** In a single chunk [0:n], the loop returns, for every evaluation point,
    the sum of the gradient, interface, universal-drift and fault
    contributions. *)
Lemma single_chunk_evaluation :
  scalar_field_scan self [0%nat; length grid_val] (repeat 0 (length grid_val)) grid_val
                    (extend_dual_kriging weights (length grid_val))
  = Some (map (field_value self weights grid_val) (seq 0 (length grid_val))).
Proof.
  assert (Hab : (0 <= length grid_val <= length grid_val)%nat) by lia.
  cbn [scalar_field_scan]. unfold scalar_field_loop.
  cbn [n_rows extend_dual_kriging]. fold W.
  unfold W at 1 2 3.
  rewrite (contribution_gradient_interface_chunk self weights grid_val _ _ Hev Hab),
    (contribution_interface_chunk self weights grid_val _ _ Hev Hab),
    (contribution_universal_drift_chunk self weights grid_val _ _ Hev Hab),
    contribution_faults_whole.
  cbn [bind Nat.add]. rewrite Nat.sub_0_r.
  repeat (rewrite vadd_maps; cbn [bind]).
  rewrite set_subvector_whole;
    [reflexivity | apply repeat_length | rewrite length_map, length_seq; reflexivity].
Qed.

End OneChunk.

(** *** The evaluation in several chunks *)

Lemma T_arange_chunks (n steps : nat) :
  (0 < steps)%nat -> (steps < n)%nat ->
  exists rest, T_arange n steps = 0%nat :: steps :: rest.
Proof.
  intros Hpos Hlt. unfold T_arange.
  assert (Hcnt : (2 <= (n + steps - 1) / steps)%nat).
  { apply Nat.div_le_lower_bound; lia. }
  destruct ((n + steps - 1) / steps)%nat as [| [| c]]; [lia | lia |].
  cbn [seq map]. rewrite Nat.mul_1_l. eexists. reflexivity.
Qed.

(** With a chunk [0:b] shorter than the fault matrix is wide, the product
    of [contribution_faults] has operands of different widths. *)
Lemma contribution_faults_chunk (self : TheanoGraphPro) (weights : matrix) (b : nat) :
  (b < n_cols weights)%nat ->
  n_cols (fault_matrix self) = n_cols weights ->
  contribution_faults self (submatrix weights 0 (n_rows weights) 0 b) 0 b = None.
Proof.
  intros Hb Hcols. unfold contribution_faults, mmul, elemwise2, same_shape.
  cbn [n_rows n_cols submatrix].
  assert (Hne : (slice_len (slice_len (n_cols weights) 0 b) 0
                           (slice_len (n_cols weights) 0 b)
                 =? slice_len (n_cols (fault_matrix self)) 0
                              (n_cols (fault_matrix self)))%nat = false).
  { apply Nat.eqb_neq. unfold slice_len. lia. }
  rewrite Hne, andb_false_r. reflexivity.
Qed.

Lemma scalar_field_loop_chunk (self : TheanoGraphPro) (b : nat) (Z_x : list R)
    (grid_val : list point) (weights : matrix) :
  (b < n_cols weights)%nat ->
  n_cols (fault_matrix self) = n_cols weights ->
  scalar_field_loop self 0 b Z_x grid_val weights = None.
Proof.
  intros Hb Hcols. unfold scalar_field_loop.
  rewrite (contribution_faults_chunk self weights b Hb Hcols).
  destruct (contribution_gradient_interface _ _ _); [| reflexivity].
  destruct (contribution_interface _ _ _); [| reflexivity].
  destruct (contribution_universal_drift _ _ _ _ _); reflexivity.
Qed.

(** Every chunk length below the number of evaluation points makes the
    evaluation raise in its first chunk. *)
Lemma chunked_evaluation_raises (self : TheanoGraphPro) (steps : nat) (weights : list R)
    (grid_val : list point) :
  (0 < steps)%nat -> (steps < length grid_val)%nat ->
  n_cols (fault_matrix self) = length grid_val ->
  scalar_field_at_all self steps weights grid_val = None.
Proof.
  intros Hpos Hlt Hcols. unfold scalar_field_at_all.
  rewrite (guard_true (0 <? steps)%nat) by (apply Nat.ltb_lt; exact Hpos).
  cbn [bind].
  destruct (T_arange_chunks (length grid_val) steps Hpos Hlt) as [rest ->].
  cbn [app length Nat.leb guard bind scalar_field_scan].
  rewrite scalar_field_loop_chunk; [reflexivity | exact Hlt | exact Hcols].
Qed.

Lemma T_arange_single (n steps : nat) :
  (0 < n)%nat -> (n <= steps)%nat -> T_arange n steps = [0%nat].
Proof.
  intros Hn Hle. unfold T_arange.
  replace ((n + steps - 1) / steps)%nat with 1%nat
    by (apply (Nat.div_unique _ steps 1 (n - 1)); lia).
  reflexivity.
Qed.

(** With a chunk length that covers all the evaluation points, the field
    is the sum of the four contributions at every point. *)
Lemma whole_grid_evaluation (self : TheanoGraphPro) (steps : nat) (weights : list R)
    (grid_val : list point) :
  evaluable self weights grid_val ->
  (0 < length grid_val)%nat -> (length grid_val <= steps)%nat ->
  scalar_field_at_all self steps weights grid_val
  = (let Z_x := map (field_value self weights grid_val) (seq 0 (length grid_val)) in
     values <- surface_points_values self Z_x ;;
     Some (Z_x, values)).
Proof.
  intros Hev Hpos Hle. unfold scalar_field_at_all.
  rewrite (guard_true (0 <? steps)%nat) by (apply Nat.ltb_lt; lia).
  cbn [bind]. rewrite (T_arange_single _ _ Hpos Hle).
  cbn [app length Nat.leb guard bind].
  rewrite (single_chunk_evaluation self weights grid_val Hev). reflexivity.
Qed.

(** C3 at a concrete series with one incoming fault and three evaluation
    points (one grid point, one rest point, one reference point): the
    evaluation in a single chunk returns the sum of the gradient, interface,
    universal-drift and fault contributions at every point, whereas the
    evaluation in chunks of two points or of one point raises, so the
    chunked result is not the unchunked one. *)
Theorem C3_chunked_evaluation_raises :
  let grid_val := x_to_interpolate one_fault_series [p010] in
  compute_scalar_field one_fault_series 3 eight_weights [p010]
  = Some (map (field_value one_fault_series eight_weights grid_val) (seq 0 3),
          [field_value one_fault_series eight_weights grid_val 1]) /\
  compute_scalar_field one_fault_series 2 eight_weights [p010] = None /\
  compute_scalar_field one_fault_series 1 eight_weights [p010] = None.
Proof.
  cbv zeta. split.
  - unfold compute_scalar_field. rewrite whole_grid_evaluation.
    + reflexivity.
    + repeat split; cbn; lia.
    + cbn; lia.
    + cbn; lia.
  - split; apply chunked_evaluation_raises; cbn; lia.
Qed.

(** ** Concrete instances *)

Ltac decide_Rlt v :=
  match goal with
  | |- context [Rlt_dec ?x ?y] =>
      replace x with v by (cbn [INR]; field);
      let H := fresh "H" in
      destruct (Rlt_dec v y) as [H | H];
      [ try (exfalso; lra) | try (exfalso; lra) ]
  end.

Lemma finite_fault_selection :
  select_finite_faults identity_Vh finite_fault_series 1
                       (x_to_interpolate finite_fault_series [p010; p_far])
  = Some [true; false; true; true].
Proof.
  unfold select_finite_faults, finite_fault_series, x_to_interpolate, identity_Vh.
  cbn -[Rlt_dec Rmax Rmin INR].
  replace (Rmax (1 * 1 + 0 * 0 + 0 * 0) (2 * 1 + 0 * 0 + 0 * 0)) with 2
    by (rewrite Rmax_right; lra).
  replace (Rmin (1 * 1 + 0 * 0 + 0 * 0) (2 * 1 + 0 * 0 + 0 * 0)) with 1
    by (rewrite Rmin_left; lra).
  replace (Rmax (1 * 0 + 0 * 1 + 0 * 0) (2 * 0 + 0 * 1 + 0 * 0)) with 0
    by (rewrite Rmax_right; lra).
  replace (Rmin (1 * 0 + 0 * 1 + 0 * 0) (2 * 0 + 0 * 1 + 0 * 0)) with 0
    by (rewrite Rmin_left; lra).
  repeat first [ decide_Rlt (149 / 4900) | decide_Rlt (38809 / 441) | decide_Rlt (1 / 441) ].
  reflexivity.
Qed.

Lemma T_max_pair (x y : R) : x <= y -> T_max [x; y] = Some y.
Proof. intros H. cbn. rewrite Rmax_right by exact H. reflexivity. Qed.

Lemma T_min_pair (x y : R) : x <= y -> T_min [x; y] = Some x.
Proof. intros H. cbn. rewrite Rmin_left by exact H. reflexivity. Qed.

Lemma T_max_const4 (x : R) : T_max [x; x; x; x] = Some x.
Proof. cbn. rewrite !(Rmax_left x x) by lra. reflexivity. Qed.

Lemma T_min_const4 (x : R) : T_min [x; x; x; x] = Some x.
Proof. cbn. rewrite !(Rmin_left x x) by lra. reflexivity. Qed.

Lemma T_max_ramp4 : T_max [0; 1; 2; 3] = Some 3.
Proof.
  cbn. rewrite (Rmax_right 0 1), (Rmax_right 1 2), (Rmax_right 2 3) by lra. reflexivity.
Qed.

Lemma T_min_ramp4 : T_min [0; 1; 2; 3] = Some 0.
Proof. cbn. rewrite (Rmin_left 0 1), (Rmin_left 0 2), (Rmin_left 0 3) by lra. reflexivity. Qed.

Lemma sed_two_apart :
  entry (squared_euclidean_distances [p000] [p200]) 0 0 = 2.
Proof.
  rewrite sed_entry. cbn [nth]. unfold sum_sq, dot, p000, p200. cbn [px py pz].
  replace (0 ^ 2 + 0 ^ 2 + 0 ^ 2 + (2 ^ 2 + 0 ^ 2 + 0 ^ 2) - 2 * (0 * 2 + 0 * 0 + 0 * 0))
    with (2 * 2) by ring.
  rewrite Rmax_left by lra. apply sqrt_square. lra.
Qed.

Lemma C1_witness :
  admissible one_fault_series /\
  exists C,
    covariance_matrix one_fault_series = Some C /\
    n_rows C = length_of_C one_fault_series /\
    symmetric C /\
    meq C (transpose C).
Proof.
  assert (H : admissible one_fault_series) by (repeat split; cbn; lia).
  split; [exact H | exact (C1_covariance_matrix_symmetric one_fault_series H)].
Defined.

Lemma sed_at_least (x_1 x_2 : list point) (i j : nat) (r : R) :
  0 <= r ->
  r * r <= sum_sq (nth i x_1 origin) + sum_sq (nth j x_2 origin)
           - 2 * dot (nth i x_1 origin) (nth j x_2 origin) ->
  r <= entry (squared_euclidean_distances x_1 x_2) i j.
Proof.
  intros Hr H. rewrite sed_entry, <- (sqrt_square r Hr).
  apply sqrt_le_1.
  - apply Rmult_le_pos; exact Hr.
  - apply Rle_trans with (2 := Rmax_r _ _). lra.
  - apply Rle_trans with (2 := Rmax_l _ _). exact H.
Qed.

Ltac far_apart :=
  apply sed_at_least; [lra | cbn [nth]; unfold sum_sq, dot; cbn [px py pz]; lra].

Lemma C2_witness :
  (1 <= entry (squared_euclidean_distances [p000] [p200]) 0 0 /\
   cov_term 1 (entry (squared_euclidean_distances [p000] [p200]) 0 0) = 0) /\
  (0%nat <> 1%nat /\
   a_T two_dips <= entry (squared_euclidean_distances (dips_position_tiled two_dips)
                                                      (dips_position_tiled two_dips)) 0 1 /\
   entry (cov_gradients two_dips) 0 1 = 0) /\
  (length (ref_layer_points far_surfaces) = length (rest_layer_points far_surfaces) /\
   a_T far_surfaces <= entry (squared_euclidean_distances (rest_layer_points far_surfaces)
                                                          (rest_layer_points far_surfaces)) 0 1 /\
   a_T far_surfaces <= entry (squared_euclidean_distances (ref_layer_points far_surfaces)
                                                          (rest_layer_points far_surfaces)) 0 1 /\
   a_T far_surfaces <= entry (squared_euclidean_distances (rest_layer_points far_surfaces)
                                                          (ref_layer_points far_surfaces)) 0 1 /\
   a_T far_surfaces <= entry (squared_euclidean_distances (ref_layer_points far_surfaces)
                                                          (ref_layer_points far_surfaces)) 0 1 /\
   exists C_I, cov_surface_points far_surfaces = Some C_I /\ entry C_I 0 1 = 0).
Proof.
  assert (H1 : 1 <= entry (squared_euclidean_distances [p000] [p200]) 0 0)
    by (rewrite sed_two_apart; lra).
  assert (H2 : a_T two_dips
               <= entry (squared_euclidean_distances (dips_position_tiled two_dips)
                                                     (dips_position_tiled two_dips)) 0 1).
  { change (1 <= entry (squared_euclidean_distances [p000] [p200]) 0 0). exact H1. }
  assert (Hne : 0%nat <> 1%nat) by discriminate.
  assert (Hlen : length (ref_layer_points far_surfaces)
                 = length (rest_layer_points far_surfaces)) by reflexivity.
  assert (D1 : a_T far_surfaces
               <= entry (squared_euclidean_distances (rest_layer_points far_surfaces)
                                                     (rest_layer_points far_surfaces)) 0 1)
    by (unfold far_surfaces, p000, p200, p030, p230; cbn [a_T rest_layer_points ref_layer_points];
        far_apart).
  assert (D2 : a_T far_surfaces
               <= entry (squared_euclidean_distances (ref_layer_points far_surfaces)
                                                     (rest_layer_points far_surfaces)) 0 1)
    by (unfold far_surfaces, p000, p200, p030, p230; cbn [a_T rest_layer_points ref_layer_points];
        far_apart).
  assert (D3 : a_T far_surfaces
               <= entry (squared_euclidean_distances (rest_layer_points far_surfaces)
                                                     (ref_layer_points far_surfaces)) 0 1)
    by (unfold far_surfaces, p000, p200, p030, p230; cbn [a_T rest_layer_points ref_layer_points];
        far_apart).
  assert (D4 : a_T far_surfaces
               <= entry (squared_euclidean_distances (ref_layer_points far_surfaces)
                                                     (ref_layer_points far_surfaces)) 0 1)
    by (unfold far_surfaces, p000, p200, p030, p230; cbn [a_T rest_layer_points ref_layer_points];
        far_apart).
  split; [| split].
  - split; [exact H1 |]. exact (proj1 C2_zero_beyond_range 1 [p000] [p200] 0%nat 0%nat H1).
  - split; [exact Hne |]. split; [exact H2 |].
    exact (proj1 (proj2 C2_zero_beyond_range) two_dips 0%nat 1%nat Hne H2).
  - split; [exact Hlen |]. split; [exact D1 |]. split; [exact D2 |].
    split; [exact D3 |]. split; [exact D4 |].
    exact (proj2 (proj2 C2_zero_beyond_range) far_surfaces 0%nat 1%nat Hlen Hne D1 D2 D3 D4).
Defined.

Lemma C4_witness :
  T_max [0; 1; 2; 3] = Some 3 /\ T_min [0; 1; 2; 3] = Some 0 /\
  (0 < n_cols two_values)%nat /\
  let boundary_pad := (3 - 0) * 0.01 in
  let thresholds := [3 + boundary_pad] ++ [1.5] ++ [0 - boundary_pad] in
  let l := formation_slope / (3 - 0) in
  segmentation_thresholds [0; 1; 2; 3] [1.5] = Some thresholds /\
  exists block,
    export_formation_block [0; 1; 2; 3] [1.5] two_values formation_slope = Some block /\
    n_rows block = n_rows two_values /\ n_cols block = length [0; 1; 2; 3] /\
    forall p i,
      entry block p i =
      Rsum (map (fun '((a, b), s) =>
                   sigmoid_pair (formation_ids two_values p s)
                                (formation_ids two_values p (s + 1))
                                (formation_drift two_values p s) l
                                (nth i [0; 1; 2; 3] 0) a b)
                (combine (adjacent_pairs thresholds) (T_arange (n_cols two_values * 2) 2))).
Proof.
  assert (Hu : (0 < n_cols two_values)%nat) by (cbn; lia).
  split; [exact T_max_ramp4 |]. split; [exact T_min_ramp4 |]. split; [exact Hu |].
  exact (C4_formation_block [0; 1; 2; 3] [1.5] two_values formation_slope 3 0
                            T_max_ramp4 T_min_ramp4 Hu).
Defined.

Lemma C5_witness :
  two_surfaces <> [] /\
  Forall (fun s : point * list point => (1 <= length (snd s))%nat) two_surfaces /\
  exists ref_points rest_points rest_mask idx,
    set_rest_ref_matrix (flatten two_surfaces) (counts two_surfaces)
    = Some (ref_points, rest_points, rest_mask, idx) /\
    length rest_points = (length (flatten two_surfaces) - length two_surfaces)%nat /\
    rest_points = concat (map snd two_surfaces) /\
    ref_points = replicated_refs two_surfaces /\
    length ref_points = length rest_points.
Proof.
  assert (Hne : two_surfaces <> []) by discriminate.
  assert (Hall : Forall (fun s : point * list point => (1 <= length (snd s))%nat)
                        two_surfaces)
    by (repeat constructor; cbn; lia).
  split; [exact Hne |]. split; [exact Hall |].
  exact (C5_reference_rest_split two_surfaces Hne Hall).
Defined.

Lemma C6_witness :
  In (p000, []) single_point_surface /\
  exists ref_points rest_points rest_mask idx,
    set_rest_ref_matrix (flatten single_point_surface) (counts single_point_surface)
    = Some (ref_points, rest_points, rest_mask, idx) /\
    length rest_points
    = (length (flatten single_point_surface) - length single_point_surface)%nat /\
    rest_points = concat (map snd single_point_surface) /\
    ref_points = replicated_refs single_point_surface.
Proof.
  assert (Hin : In (p000, @nil point) single_point_surface) by (left; reflexivity).
  split; [exact Hin |].
  exact (C6_single_point_surface_is_split single_point_surface p000 Hin).
Defined.

(** C6 as stated fails: a surface with a single point (count 0) does not
    make the split raise; on three points with counts [0; 1] the split
    returns the reference set [[p100]], the rest set [[p200]], the mask
    [[0; 0; 1]] and the rest positions [[2]]. *)
Lemma C6_counterexample :
  ~ (forall (surface_points_all : list point) (number_of_points_per_surface : list nat),
        (exists c, In c number_of_points_per_surface /\ (c + 1 < 2)%nat) ->
        set_rest_ref_matrix surface_points_all number_of_points_per_surface = None).
Proof.
  intros H.
  specialize (H [p000; p100; p200] [0%nat; 1%nat]).
  assert (Hex : exists c, In c [0%nat; 1%nat] /\ (c + 1 < 2)%nat).
  { exists 0%nat. split; [left; reflexivity | lia]. }
  specialize (H Hex).
  assert (Hsome : set_rest_ref_matrix [p000; p100; p200] [0%nat; 1%nat]
                  = Some ([p100], [p200], [0%nat; 0%nat; 1%nat], [2%nat]))
    by reflexivity.
  rewrite Hsome in H. discriminate H.
Qed.

Lemma C7_witness :
  select_finite_faults identity_Vh finite_fault_series 1
                       (x_to_interpolate finite_fault_series [p010; p_far])
  = Some [true; false; true; true] /\
  length [0; 1; 2; 3] = length (x_to_interpolate finite_fault_series [p010; p_far]) /\
  T_max [0; 1; 2; 3] = Some 3 /\ T_min [0; 1; 2; 3] = Some 0 /\
  0 < 3 /\
  (0 < n_rows two_values)%nat /\ (0 < n_cols two_values)%nat /\
  let boundary_pad := (3 - 0) * 0.01 in
  let thresholds := [3 + boundary_pad] ++ [1.5] ++ [0 - boundary_pad] in
  let l := fault_slopes 3 0 fault_slope fault_offset_slope [true; false; true; true] in
  (exists block,
      compute_fault_block identity_Vh finite_fault_series [0; 1; 2; 3] [1.5] two_values 1
                          [p010; p_far] = Some block /\
      n_rows block = 1%nat /\ n_cols block = length [0; 1; 2; 3] /\
      forall p i,
        entry block p i =
        Rsum (map (fun '((a, b), s) =>
                     sigmoid_pair (fault_ids two_values s) (fault_ids two_values (s + 1))
                                  (fault_drift two_values s) (nth i l 0)
                                  (nth i [0; 1; 2; 3] 0) a b)
                  (combine (adjacent_pairs thresholds)
                           (T_arange (n_cols two_values * 2) 2)))) /\
  (forall i j,
      (i < length [true; false; true; true])%nat ->
      (j < length [true; false; true; true])%nat ->
      nth i [true; false; true; true] false = true ->
      nth j [true; false; true; true] false = false ->
      nth i l 0 = 5000 / (3 - 0) /\
      nth j l 0 = 50 / (3 - 0) /\
      nth j l 0 < nth i l 0).
Proof.
  assert (Hlen : length [0; 1; 2; 3]
                 = length (x_to_interpolate finite_fault_series [p010; p_far]))
    by reflexivity.
  assert (Hrange : 0 < 3) by lra.
  assert (Hr : (0 < n_rows two_values)%nat) by (cbn; lia).
  assert (Hc : (0 < n_cols two_values)%nat) by (cbn; lia).
  split; [exact finite_fault_selection |]. split; [exact Hlen |].
  split; [exact T_max_ramp4 |]. split; [exact T_min_ramp4 |].
  split; [exact Hrange |]. split; [exact Hr |]. split; [exact Hc |].
  exact (C7_fault_slopes identity_Vh finite_fault_series [0; 1; 2; 3] [1.5] two_values 1
                         [p010; p_far] [true; false; true; true] 3 0
                         finite_fault_selection Hlen T_max_ramp4 T_min_ramp4 Hrange Hr Hc).
Defined.

(** C7 as stated fails on a constant field: the first evaluation point is
    flagged by the ellipse test and the second is not, but both slopes are
    the quotient by a zero range and coincide (both are infinite in
    floating point, both are 0 here), so the slope of the flagged point is
    not strictly larger. *)
Lemma C7_counterexample :
  select_finite_faults identity_Vh finite_fault_series 1
                       (x_to_interpolate finite_fault_series [p010; p_far])
  = Some [true; false; true; true] /\
  T_max [1; 1; 1; 1] = Some 1 /\ T_min [1; 1; 1; 1] = Some 1 /\
  nth 0 [true; false; true; true] false = true /\
  nth 1 [true; false; true; true] false = false /\
  ~ (nth 1 (fault_slopes 1 1 fault_slope fault_offset_slope [true; false; true; true]) 0
     < nth 0 (fault_slopes 1 1 fault_slope fault_offset_slope [true; false; true; true]) 0).
Proof.
  split; [exact finite_fault_selection |].
  split; [apply T_max_const4 |]. split; [apply T_min_const4 |].
  split; [reflexivity |]. split; [reflexivity |].
  cbn [fault_slopes map nth]. unfold Rdiv.
  rewrite Rminus_diag, Rinv_0, !Rmult_0_r. apply Rlt_irrefl.
Qed.

Lemma C8_witness :
  0 < 1 /\
  cov_poly 1 1 = 0 /\
  grad_poly 1 1 = 0 /\
  (forall d, derivable_pt_lim (cov_poly 1) d (d * grad_poly 1 d)) /\
  continuity_pt (cov_term 1) 1 /\
  derivable_pt_lim (cov_term 1) 1 0 /\
  continuity_pt (fun d => T_lt d 1 * (d * grad_poly 1 d)) 1.
Proof.
  split; [exact Rlt_0_1 | exact (C8_spline_smooth_at_range 1 Rlt_0_1)].
Defined.

Lemma C9_witness :
  length (rest_layer_points_all one_fault_series) = len_points one_fault_series /\
  length (ref_layer_points_all one_fault_series) = len_points one_fault_series /\
  length [1; 2; 3] = length (x_to_interpolate one_fault_series [p010]) /\
  Forall (fun k => (k < len_points one_fault_series)%nat) (npf_op one_fault_series) /\
  x_to_interpolate one_fault_series [p010]
  = [p010] ++ rest_layer_points_all one_fault_series
           ++ ref_layer_points_all one_fault_series /\
  py_slice [1; 2; 3] (-2 * Z.of_nat (len_points one_fault_series))
           (- Z.of_nat (len_points one_fault_series))
  = slice [1; 2; 3] (length [p010]) (length [p010] + len_points one_fault_series) /\
  surface_points_values one_fault_series [1; 2; 3]
  = Some (map (fun k => nth (length [p010] + k) [1; 2; 3] 0) (npf_op one_fault_series)) /\
  forall k, In k (npf_op one_fault_series) ->
            nth (length [p010] + k) (x_to_interpolate one_fault_series [p010]) origin
            = nth k (rest_layer_points_all one_fault_series) origin.
Proof.
  assert (H1 : length (rest_layer_points_all one_fault_series) = len_points one_fault_series)
    by reflexivity.
  assert (H2 : length (ref_layer_points_all one_fault_series) = len_points one_fault_series)
    by reflexivity.
  assert (H3 : length [1; 2; 3] = length (x_to_interpolate one_fault_series [p010]))
    by reflexivity.
  assert (H4 : Forall (fun k => (k < len_points one_fault_series)%nat)
                      (npf_op one_fault_series))
    by (repeat constructor).
  split; [exact H1 |]. split; [exact H2 |]. split; [exact H3 |]. split; [exact H4 |].
  exact (C9_evaluation_points_layout one_fault_series [p010] [1; 2; 3] H1 H2 H3 H4).
Defined.

(** C9 as stated fails when there is more than one series: for the first
    of two series, the evaluation points are the grid point followed by the
    rest and reference points of both series (five points), not the grid
    point followed by the series' own two points, in either order. *)
Lemma C9_counterexample :
  let self := compute_a_series_points two_series 0 1 in
  ref_layer_points self = [p000] /\ rest_layer_points self = [p100] /\
  x_to_interpolate self [p200] = [p200; p100; p010; p000; p001] /\
  x_to_interpolate self [p200] <> [p200] ++ ref_layer_points self ++ rest_layer_points self /\
  x_to_interpolate self [p200] <> [p200] ++ rest_layer_points self ++ ref_layer_points self.
Proof.
  cbv zeta.
  split; [reflexivity |]. split; [reflexivity |]. split; [reflexivity |].
  split; intros H; apply (f_equal (@length point)) in H; discriminate H.
Qed.

(** ** Further properties of the interpolator *)

(** ** Distances *)

Lemma sum_sq_expand (p q : point) :
  sum_sq p + sum_sq q - 2 * dot p q
  = (px p - px q) ^ 2 + (py p - py q) ^ 2 + (pz p - pz q) ^ 2.
Proof. unfold sum_sq, dot. ring. Qed.

Lemma sed_clamped_distance (x_1 x_2 : list point) (i j : nat) :
  entry (squared_euclidean_distances x_1 x_2) i j
  = Rmax (euclidean_distance (nth i x_1 origin) (nth j x_2 origin)) 1e-6.
Proof.
  rewrite sed_entry, sum_sq_expand. unfold euclidean_distance.
  set (e := (px (nth i x_1 origin) - px (nth j x_2 origin)) ^ 2 +
            (py (nth i x_1 origin) - py (nth j x_2 origin)) ^ 2 +
            (pz (nth i x_1 origin) - pz (nth j x_2 origin)) ^ 2).
  assert (He : 0 <= e)
    by (unfold e; repeat apply Rplus_le_le_0_compat; apply pow2_ge_0).
  rewrite <- clamp_value.
  destruct (Rle_dec e 1e-12) as [Hle | Hgt].
  - rewrite (Rmax_right e) by lra.
    rewrite Rmax_right; [reflexivity | apply sqrt_le_1; lra].
  - rewrite (Rmax_left e) by lra.
    rewrite Rmax_left; [reflexivity | apply sqrt_le_1; lra].
Qed.

Lemma sed_same_point (x_1 x_2 : list point) (i j : nat) :
  nth i x_1 origin = nth j x_2 origin ->
  entry (squared_euclidean_distances x_1 x_2) i j = 1e-6.
Proof.
  intros E. rewrite sed_clamped_distance, E. unfold euclidean_distance.
  replace ((px (nth j x_2 origin) - px (nth j x_2 origin)) ^ 2 +
           (py (nth j x_2 origin) - py (nth j x_2 origin)) ^ 2 +
           (pz (nth j x_2 origin) - pz (nth j x_2 origin)) ^ 2) with 0 by ring.
  rewrite sqrt_0. apply Rmax_right. lra.
Qed.

(** X1: every entry of [squared_euclidean_distances] is the Euclidean
    distance between the two points (not its square), raised to [1e-6] when
    the points are closer than that; the matrix has one row per point of
    [x_1] and one column per point of [x_2], and exchanging the two point
    sets transposes it. *)
Theorem X1_distance_matrix (x_1 x_2 : list point) :
  n_rows (squared_euclidean_distances x_1 x_2) = length x_1 /\
  n_cols (squared_euclidean_distances x_1 x_2) = length x_2 /\
  (forall i j,
      entry (squared_euclidean_distances x_1 x_2) i j
      = Rmax (euclidean_distance (nth i x_1 origin) (nth j x_2 origin)) 1e-6) /\
  (forall i j,
      1e-6 <= euclidean_distance (nth i x_1 origin) (nth j x_2 origin) ->
      entry (squared_euclidean_distances x_1 x_2) i j
      = euclidean_distance (nth i x_1 origin) (nth j x_2 origin)) /\
  meq (squared_euclidean_distances x_1 x_2)
      (transpose (squared_euclidean_distances x_2 x_1)).
Proof.
  split; [reflexivity |]. split; [reflexivity |].
  split; [intros i j; apply sed_clamped_distance |].
  split.
  - intros i j H. rewrite sed_clamped_distance. apply Rmax_left, H.
  - split; [reflexivity |]. split; [reflexivity |].
    intros i j _ _. cbn [transpose entry]. apply sed_sym.
Qed.

(** ** Shapes on which the covariance blocks raise *)

Lemma set_subtensor_shape (M : matrix) (r0 r1 c0 c1 : nat) (B M' : matrix) :
  set_subtensor M r0 r1 c0 c1 B = Some M' ->
  n_rows M' = n_rows M /\ n_cols M' = n_cols M.
Proof.
  unfold set_subtensor. destruct (guard _); cbn [bind]; [| discriminate].
  intros H. injection H as <-. split; reflexivity.
Qed.

Lemma set_subtensor_wrong_width (M : matrix) (r0 r1 c0 c1 : nat) (B : matrix) :
  n_cols B <> slice_len (n_cols M) c0 c1 -> n_cols B <> 1%nat ->
  set_subtensor M r0 r1 c0 c1 B = None.
Proof.
  intros H1 H2. unfold set_subtensor, broadcastable_to.
  apply Nat.eqb_neq in H1, H2. rewrite H1, H2.
  rewrite andb_false_r. reflexivity.
Qed.

Lemma unaligned_covariance_raises (self : TheanoGraphPro) :
  length (ref_layer_points self) <> length (rest_layer_points self) ->
  cov_surface_points self = None.
Proof.
  intros H.
  unfold cov_surface_points, msub, elemwise2, same_shape.
  cbn [n_rows n_cols elemwise1 squared_euclidean_distances].
  rewrite (proj2 (Nat.eqb_neq (length (rest_layer_points self))
                              (length (ref_layer_points self))))
    by congruence.
  reflexivity.
Qed.

(** X2: when the series has different numbers of reference and rest points,
    the interface covariance, the gradient-interface covariance and the
    drift matrices all raise, and so does [covariance_matrix]. *)
Theorem X2_unaligned_points_raise (self : TheanoGraphPro) :
  length (ref_layer_points self) <> length (rest_layer_points self) ->
  cov_surface_points self = None /\
  cov_interface_gradients self = None /\
  universal_matrix self = None /\
  covariance_matrix self = None.
Proof.
  intros H.
  assert (E : (length (rest_layer_points self) =? length (ref_layer_points self))%nat = false)
    by (apply Nat.eqb_neq; congruence).
  split; [exact (unaligned_covariance_raises self H) |]. split; [| split].
  - unfold cov_interface_gradients, msub, elemwise2, same_shape, gradient_interface_term.
    cbn [n_rows n_cols squared_euclidean_distances].
    rewrite E, andb_false_r. reflexivity.
  - unfold universal_matrix. rewrite E. reflexivity.
  - unfold covariance_matrix, matrices_shapes.
    rewrite (unaligned_covariance_raises self H). reflexivity.
Qed.

Lemma X2_witness :
  length (ref_layer_points mismatched_series) <> length (rest_layer_points mismatched_series) /\
  cov_surface_points mismatched_series = None /\
  cov_interface_gradients mismatched_series = None /\
  universal_matrix mismatched_series = None /\
  covariance_matrix mismatched_series = None.
Proof.
  split; [cbn; lia |].
  apply (X2_unaligned_points_raise mismatched_series). cbn. lia.
Defined.

(** X3: the drift has nine terms at most; a series that asks for more makes
    [covariance_matrix] raise, because the drift blocks keep their nine
    columns and no longer fit the slice reserved for them. *)
Theorem X3_more_than_nine_drift_terms_raise (self : TheanoGraphPro) :
  (9 < n_universal_eq_T_op self)%nat ->
  covariance_matrix self = None.
Proof.
  intros Hu. unfold covariance_matrix, matrices_shapes.
  destruct (cov_surface_points self) as [C_I |]; [| reflexivity]. cbn [bind].
  destruct (cov_interface_gradients self) as [C_GI |]; [| reflexivity]. cbn [bind].
  destruct (universal_matrix self) as [[U_I U_G] |] eqn:HU; [| reflexivity]. cbn [bind].
  destruct (faults_matrix self) as [[F_I F_G] |]; [| reflexivity]. cbn [bind].
  assert (HUc : n_cols U_G = 9%nat).
  { unfold universal_matrix in HU.
    destruct (guard _); cbn [bind] in HU; [| discriminate].
    injection HU as _ <-.
    cbn [n_cols submatrix set_column set_subtensor_scalar T_zeros].
    unfold slice_len, n_dimensions. lia. }
  unfold assemble_blocks.
  destruct (set_subtensor (T_zeros _ _) _ _ _ _ _) as [M1 |] eqn:H1; [| reflexivity].
  cbn [bind].
  destruct (set_subtensor M1 _ _ _ _ _) as [M2 |] eqn:H2; [| reflexivity].
  cbn [bind].
  apply set_subtensor_shape in H1, H2.
  cbn [n_rows n_cols T_zeros] in H1.
  destruct H1 as [_ H1c]. destruct H2 as [_ H2c]. rewrite H1c in H2c.
  rewrite set_subtensor_wrong_width; [reflexivity | |].
  - rewrite HUc, H2c. unfold slice_len, length_of_C, length_of_U_I. lia.
  - rewrite HUc. lia.
Qed.

Lemma X3_witness :
  (9 < n_universal_eq_T_op ten_drift_terms)%nat /\
  covariance_matrix ten_drift_terms = None.
Proof.
  split; [cbn; lia |].
  apply (X3_more_than_nine_drift_terms_raise ten_drift_terms). cbn. lia.
Defined.

(** ** The gradient covariance of one orientation with itself *)

Lemma tiled_nth (self : TheanoGraphPro) (k i : nat) :
  (k < 3)%nat -> (i < length (dips_position self))%nat ->
  nth (k * length (dips_position self) + i) (dips_position_tiled self) origin
  = nth i (dips_position self) origin.
Proof.
  intros Hk Hi. unfold dips_position_tiled.
  destruct k as [| [| [| k]]]; [| | | lia].
  - rewrite app_nth1 by lia. f_equal.
  - rewrite app_nth2 by lia. rewrite app_nth1 by lia. f_equal. lia.
  - rewrite app_nth2 by lia. rewrite app_nth2 by lia. f_equal. lia.
Qed.

Lemma band_mod (k n i : nat) : (i < n)%nat -> ((k * n + i) mod n = i)%nat.
Proof.
  intros Hi. rewrite Nat.add_comm, Nat.Div0.mod_add. apply Nat.mod_small, Hi.
Qed.

Ltac decide_ltb :=
  repeat match goal with
         | |- context [(?a <? ?b)%nat] =>
             first [ rewrite (proj2 (Nat.ltb_lt a b)) by lia
                   | rewrite (proj2 (Nat.ltb_ge a b)) by lia ]
         end.

(** Row [k * n + i] of [h_u] holds the differences of coordinate [k] to dip
    [i]; in column [k' * n + i] the difference is that of dip [i] with
    itself. *)
Lemma h_u_dips_same_dip (dips : list point) (k k' i : nat) :
  (k < 3)%nat -> (i < length dips)%nat ->
  entry (h_u_dips dips) (k * length dips + i) (k' * length dips + i) = 0.
Proof.
  intros Hk Hi. unfold h_u_dips, T_vertical_stack, T_tile, row_minus_col, n_dimensions.
  cbn [entry n_rows n_cols]. unfold column. rewrite !length_map.
  rewrite (band_mod k' _ _ Hi).
  destruct k as [| [| [| k]]]; [| | | lia]; decide_ltb.
  - replace (0 * length dips + i)%nat with i by lia. lra.
  - replace (1 * length dips + i - length dips)%nat with i by lia. lra.
  - replace (2 * length dips + i - (length dips + length dips))%nat with i by lia. lra.
Qed.

Lemma perpendicularity_bands (n : nat) (like : matrix) (k k' i j : nat) :
  n_rows like = (n * 3)%nat -> n_cols like = (n * 3)%nat ->
  (k < 3)%nat -> (k' < 3)%nat -> (i < n)%nat -> (j < n)%nat ->
  entry (perpendicularity_matrix n like) (k * n + i) (k' * n + j)
  = if (k =? k')%nat then 1 else 0.
Proof.
  intros Hr Hc Hk Hk' Hi Hj.
  unfold perpendicularity_matrix, set_subtensor_scalar.
  cbn [entry n_rows n_cols T_zeros]. rewrite Hr, Hc.
  destruct k as [| [| [| k]]]; [| | | lia];
    destruct k' as [| [| [| k']]]; try lia;
    decide_slices; reflexivity.
Qed.

(** X4: the covariance of the three components of one orientation with each
    other is diagonal.  For a range above the clamp [1e-6], the entry of
    [cov_gradients] for components [k] and [k'] of dip [i] is the nugget
    effect minus [c_o_T] times the first-derivative factor at the clamped
    distance when [k = k'], and exactly 0 when [k <> k']. *)
Theorem X4_gradient_covariance_of_one_orientation (self : TheanoGraphPro) (k k' i : nat) :
  1e-6 < a_T self ->
  (k < 3)%nat -> (k' < 3)%nat -> (i < length (dips_position self))%nat ->
  entry (cov_gradients self)
        (k * length (dips_position self) + i) (k' * length (dips_position self) + i)
  = if (k =? k')%nat
    then nugget_effect_grad_T self - c_o_T self * grad_poly (a_T self) 1e-6
    else 0.
Proof.
  intros Ha Hk Hk' Hi.
  unfold cov_gradients. cbn [entry n_rows n_cols transpose].
  rewrite T_eq_sed_zero.
  rewrite (sed_same_point (dips_position_tiled self) (dips_position_tiled self))
    by (rewrite !tiled_nth by assumption; reflexivity).
  rewrite (h_u_dips_same_dip _ k k' i Hk Hi).
  rewrite (perpendicularity_bands _ _ k k' i i)
    by (try assumption; cbn [n_rows n_cols squared_euclidean_distances];
        apply dips_tiled_length).
  unfold cov_gradients_else. rewrite (T_lt_lt _ _ Ha).
  cbn [T_eye entry].
  destruct (Nat.eqb_spec k k') as [-> | Hne].
  - rewrite Nat.eqb_refl. unfold Rdiv. ring.
  - destruct (Nat.eqb_spec (k * length (dips_position self) + i)
                           (k' * length (dips_position self) + i)) as [E | _].
    + exfalso. apply Hne. nia.
    + unfold Rdiv. ring.
Qed.

Lemma X4_witness :
  1e-6 < a_T two_dips /\
  (0 < 3)%nat /\ (2 < 3)%nat /\ (1 < length (dips_position two_dips))%nat /\
  entry (cov_gradients two_dips)
        (0 * length (dips_position two_dips) + 1) (2 * length (dips_position two_dips) + 1)
  = 0.
Proof.
  assert (Ha : 1e-6 < a_T two_dips) by (cbn; lra).
  assert (Hi : (1 < length (dips_position two_dips))%nat) by (cbn; lia).
  repeat split; try lia; try exact Ha; try exact Hi.
  apply (X4_gradient_covariance_of_one_orientation two_dips 0 2 1 Ha); [lia | lia | exact Hi].
Defined.

(** ** The blocks of the covariance matrix *)

Lemma assemble_blocks_entries (g m u f : nat) (C_G C_I C_GI U_I U_G F_I F_G : matrix) :
  n_rows C_G = g -> n_cols C_G = g ->
  n_rows C_I = m -> n_cols C_I = m ->
  n_rows C_GI = m -> n_cols C_GI = g ->
  n_rows U_I = m -> n_cols U_I = u ->
  n_rows U_G = g -> n_cols U_G = u ->
  n_rows F_I = f -> n_cols F_I = m ->
  n_rows F_G = f -> n_cols F_G = g ->
  exists C,
    assemble_blocks g m u (g + m + u + f) C_G C_I C_GI U_I U_G F_I F_G = Some C /\
    n_rows C = (g + m + u + f)%nat /\
    n_cols C = (g + m + u + f)%nat /\
    forall i j, (i < g + m + u + f)%nat -> (j < g + m + u + f)%nat ->
                entry C i j = block_entry g m u C_G C_I C_GI U_I U_G F_I F_G i j.
Proof.
  intros HGr HGc HIr HIc HGIr HGIc HUIr HUIc HUGr HUGc HFIr HFIc HFGr HFGc.
  unfold assemble_blocks.
  repeat (rewrite set_subtensor_ok
            by (cbn [n_rows n_cols transpose T_zeros]; unfold slice_len; lia);
          cbn [bind n_rows n_cols T_zeros]).
  eexists. split; [reflexivity |].
  cbn [n_rows n_cols T_zeros].
  split; [reflexivity |]. split; [reflexivity |].
  intros i j Hi Hj. cbn [entry n_rows n_cols transpose T_zeros].
  rewrite HGr, HGc, HIr, HIc, HGIr, HGIc, HUIr, HUIc, HUGr, HUGc, HFIr, HFIc, HFGr, HFGc.
  unfold block_entry.
  destruct (band_cases g m u f i Hi) as [Bi | [Bi | [Bi | Bi]]];
    destruct (band_cases g m u f j Hj) as [Bj | [Bj | [Bj | Bj]]];
    decide_slices; decide_ltb;
    rewrite ?bidx_lt by lia;
    rewrite ?Nat.sub_0_r;
    reflexivity.
Qed.

Lemma one_fault_series_admissible : admissible one_fault_series.
Proof. unfold admissible. cbn. repeat split; lia. Qed.

Lemma covariance_matrix_layout (self : TheanoGraphPro) :
  admissible self ->
  exists C C_I C_GI U_I U_G F_I F_G,
    cov_surface_points self = Some C_I /\
    cov_interface_gradients self = Some C_GI /\
    universal_matrix self = Some (U_I, U_G) /\
    faults_matrix self = Some (F_I, F_G) /\
    covariance_matrix self = Some C /\
    n_rows C = length_of_C self /\ n_cols C = length_of_C self /\
    forall i j,
      (i < length_of_C self)%nat -> (j < length_of_C self)%nat ->
      entry C i j
      = block_entry (length_of_CG self) (length_of_CGI self) (length_of_U_I self)
                    (cov_gradients self) C_I C_GI U_I U_G F_I F_G i j.
Proof.
  intros [Hlen [Hu [Hr1 [Hr2 [Hc1 Hc2]]]]].
  destruct (cov_surface_points_ok self Hlen) as [C_I [HCI [HIr [HIc _]]]].
  destruct (cov_interface_gradients_ok self Hlen) as [C_GI [HCGI [HGIr HGIc]]].
  destruct (universal_matrix_ok self Hlen Hu) as [U_I [U_G [HU [HUIr [HUIc [HUGr HUGc]]]]]].
  destruct (faults_matrix_ok self Hr1 Hr2 Hc1 Hc2)
    as [F_I [F_G [HF [HFIr [HFIc [HFGr HFGc]]]]]].
  destruct (cov_gradients_shape self) as [HGr HGc].
  destruct (assemble_blocks_entries
              (length_of_CG self) (length_of_CGI self) (length_of_U_I self)
              (length_of_faults self)
              (cov_gradients self) C_I C_GI U_I U_G F_I F_G
              HGr HGc HIr HIc HGIr HGIc HUIr HUIc HUGr HUGc HFIr HFIc HFGr HFGc)
    as [C [HC [HCr [HCc He]]]].
  exists C, C_I, C_GI, U_I, U_G, F_I, F_G.
  repeat (split; [assumption |]).
  split.
  { unfold covariance_matrix, matrices_shapes.
    rewrite HCI. cbn [bind]. rewrite HCGI. cbn [bind].
    rewrite HU. cbn [bind]. rewrite HF. cbn [bind]. exact HC. }
  split; [exact HCr |]. split; [exact HCc |]. exact He.
Qed.

(** X5: for a series whose input shapes agree, the matrix returned by
    [covariance_matrix] is laid out in four bands of rows and columns
    (gradients, interface points, drift terms, faults): its entries are those
    of the blocks computed by [cov_gradients], [cov_surface_points],
    [cov_interface_gradients], [universal_matrix] and [faults_matrix], each
    off-diagonal block together with its transpose, and every entry whose row
    and column both lie in the drift or fault bands is exactly 0. *)
Theorem X5_covariance_matrix_blocks (self : TheanoGraphPro) :
  admissible self ->
  exists C C_I C_GI U_I U_G F_I F_G,
    cov_surface_points self = Some C_I /\
    cov_interface_gradients self = Some C_GI /\
    universal_matrix self = Some (U_I, U_G) /\
    faults_matrix self = Some (F_I, F_G) /\
    covariance_matrix self = Some C /\
    n_rows C = length_of_C self /\ n_cols C = length_of_C self /\
    (forall i j,
        (i < length_of_C self)%nat -> (j < length_of_C self)%nat ->
        entry C i j
        = block_entry (length_of_CG self) (length_of_CGI self) (length_of_U_I self)
                      (cov_gradients self) C_I C_GI U_I U_G F_I F_G i j) /\
    (forall i j,
        (length_of_CG self + length_of_CGI self <= i < length_of_C self)%nat ->
        (length_of_CG self + length_of_CGI self <= j < length_of_C self)%nat ->
        entry C i j = 0).
Proof.
  intros Hadm.
  destruct (covariance_matrix_layout self Hadm)
    as [C [C_I [C_GI [U_I [U_G [F_I [F_G [HCI [HCGI [HU [HF [HC [HCr [HCc He]]]]]]]]]]]]]].
  exists C, C_I, C_GI, U_I, U_G, F_I, F_G.
  repeat (split; [assumption |]).
  intros i j Hi Hj. unfold length_of_C in Hi, Hj.
  rewrite He by (unfold length_of_C; lia).
  unfold block_entry. decide_ltb.
  destruct (i <? length_of_CG self + length_of_CGI self + length_of_U_I self)%nat;
    reflexivity.
Qed.

Lemma X5_witness :
  admissible one_fault_series /\
  exists C C_I C_GI U_I U_G F_I F_G,
    cov_surface_points one_fault_series = Some C_I /\
    cov_interface_gradients one_fault_series = Some C_GI /\
    universal_matrix one_fault_series = Some (U_I, U_G) /\
    faults_matrix one_fault_series = Some (F_I, F_G) /\
    covariance_matrix one_fault_series = Some C /\
    n_rows C = length_of_C one_fault_series /\ n_cols C = length_of_C one_fault_series /\
    (forall i j,
        (i < length_of_C one_fault_series)%nat -> (j < length_of_C one_fault_series)%nat ->
        entry C i j
        = block_entry (length_of_CG one_fault_series) (length_of_CGI one_fault_series)
                      (length_of_U_I one_fault_series)
                      (cov_gradients one_fault_series) C_I C_GI U_I U_G F_I F_G i j) /\
    (forall i j,
        (length_of_CG one_fault_series + length_of_CGI one_fault_series <= i
         < length_of_C one_fault_series)%nat ->
        (length_of_CG one_fault_series + length_of_CGI one_fault_series <= j
         < length_of_C one_fault_series)%nat ->
        entry C i j = 0).
Proof.
  split; [exact one_fault_series_admissible |].
  exact (X5_covariance_matrix_blocks one_fault_series one_fault_series_admissible).
Defined.

(** ** The drift blocks *)

Lemma nth_map_lt {A B : Type} (f : A -> B) (l : list A) (i : nat) (d : B) (d' : A) :
  (i < length l)%nat -> nth i (map f l) d = f (nth i l d').
Proof.
  intros Hi. rewrite (nth_indep _ d (f d')) by (rewrite length_map; exact Hi).
  apply map_nth.
Qed.

Lemma scaled_column_nth (c : R) (pts : list point) (k i : nat) :
  (i < length pts)%nat ->
  nth i (map (fun x => c * x) (column pts k)) 0 = c * coord (nth i pts origin) k.
Proof.
  intros Hi. rewrite (nth_map_lt _ _ _ _ 0) by (unfold column; rewrite length_map; exact Hi).
  rewrite column_nth. reflexivity.
Qed.

Lemma quadratic_deriv (a b c x : R) :
  derivable_pt_lim (fun t => a * t * t + b * t + c) x (2 * a * x + b).
Proof.
  apply (derivable_pt_lim_eq
           (plus_fct (plus_fct (mult_fct (mult_real_fct a id) id) (mult_real_fct b id))
                     (fct_cte c))).
  { intros y. unfold plus_fct, mult_fct, mult_real_fct, fct_cte, id. ring. }
  apply (derivable_pt_lim_val _ _ ((a * 1 * id x + mult_real_fct a id x * 1) + b * 1 + 0)).
  { unfold mult_real_fct, id. ring. }
  apply derivable_pt_lim_plus; [apply derivable_pt_lim_plus |].
  - apply derivable_pt_lim_mult.
    + apply derivable_pt_lim_scal, derivable_pt_lim_id.
    + apply derivable_pt_lim_id.
  - apply derivable_pt_lim_scal, derivable_pt_lim_id.
  - apply derivable_pt_lim_const.
Qed.

(** A function of degree at most two in [t] is the quadratic through its
    values at -1, 0 and 1. *)
Ltac quadratic_in_t :=
  match goal with
  | |- derivable_pt_lim ?f ?x ?l =>
      apply (derivable_pt_lim_eq
               (fun t => (f 1 + f (-1) - 2 * f 0) / 2 * t * t + (f 1 - f (-1)) / 2 * t + f 0));
      [ intros y; cbn [drift_monomial set_coord px py pz]; field
      | eapply derivable_pt_lim_val; [| apply quadratic_deriv];
        cbn [drift_monomial set_coord coord px py pz]; field ]
  end.

(** X6: the two drift blocks returned by [universal_matrix] come from one
    family of nine drift functions (the coordinates, their squares and their
    products, the second-degree ones scaled by [gi_reescale]).  An entry of
    the interface block is minus [gi_reescale] times the difference of the
    drift function between the rest point and its reference point; the entry
    of the gradient block in row [k * n + i] is the partial derivative of
    the drift function along axis [k] at dip [i]. *)
Theorem X6_drift_blocks (self : TheanoGraphPro) (U_I U_G : matrix) :
  universal_matrix self = Some (U_I, U_G) ->
  let gi := gi_reescale self in
  let dips := dips_position self in
  n_cols U_I = Nat.min (n_universal_eq_T_op self) 9 /\
  n_cols U_G = Nat.min (n_universal_eq_T_op self) 9 /\
  (forall i c,
      (c < n_cols U_I)%nat ->
      entry U_I i c
      = - gi * (drift_monomial gi c (nth i (rest_layer_points self) origin)
                - drift_monomial gi c (nth i (ref_layer_points self) origin))) /\
  (forall k i c,
      (k < 3)%nat -> (i < length dips)%nat -> (c < n_cols U_G)%nat ->
      derivable_pt_lim (fun t => drift_monomial gi c (set_coord (nth i dips origin) k t))
                       (coord (nth i dips origin) k)
                       (entry U_G (k * length dips + i) c)).
Proof.
  intros HU gi dips. unfold universal_matrix in HU.
  destruct (guard _); cbn [bind] in HU; [| discriminate].
  injection HU as <- <-.
  cbn [n_rows n_cols entry submatrix set_column set_subtensor_scalar T_zeros].
  unfold slice_len, n_dimensions. fold gi. fold dips.
  rewrite !Nat.sub_0_r.
  split; [reflexivity |]. split; [reflexivity |]. split.
  - intros i c Hc.
    assert (Hc9 : (c < 9)%nat) by lia.
    do 9 (destruct c as [| c]; [cbn [drift_interface drift_monomial Nat.add]; ring |]).
    lia.
  - intros k i c Hk Hi Hc.
    assert (Hc9 : (c < 9)%nat) by lia.
    cbn [Nat.add].
    destruct k as [| [| [| k]]]; [| | | lia];
      (do 9 (destruct c as [| c];
             [ cbn [Nat.eqb andb]; decide_slices; rewrite ?andb_false_r;
               cbn [andb];
               rewrite ?scaled_column_nth by lia;
               replace (0 * length dips + i - 0)%nat with i by lia;
               replace (1 * length dips + i - length dips * 1)%nat with i by lia;
               replace (2 * length dips + i - length dips * 2)%nat with i by lia;
               quadratic_in_t |]);
       lia).
Qed.

Lemma X6_witness :
  exists U_I U_G,
    universal_matrix one_fault_series = Some (U_I, U_G) /\
    let gi := gi_reescale one_fault_series in
    let dips := dips_position one_fault_series in
    n_cols U_I = Nat.min (n_universal_eq_T_op one_fault_series) 9 /\
    n_cols U_G = Nat.min (n_universal_eq_T_op one_fault_series) 9 /\
    (forall i c,
        (c < n_cols U_I)%nat ->
        entry U_I i c
        = - gi * (drift_monomial gi c (nth i (rest_layer_points one_fault_series) origin)
                  - drift_monomial gi c (nth i (ref_layer_points one_fault_series) origin))) /\
    (forall k i c,
        (k < 3)%nat -> (i < length dips)%nat -> (c < n_cols U_G)%nat ->
        derivable_pt_lim (fun t => drift_monomial gi c (set_coord (nth i dips origin) k t))
                         (coord (nth i dips origin) k)
                         (entry U_G (k * length dips + i) c)).
Proof.
  destruct one_fault_series_admissible as [Hlen [Hu _]].
  destruct (universal_matrix_ok one_fault_series Hlen Hu) as [U_I [U_G [HU _]]].
  exists U_I, U_G. split; [exact HU |].
  exact (X6_drift_blocks one_fault_series U_I U_G HU).
Defined.

(** ** The independent term *)

Lemma vmul_ok (u v : list R) :
  length u = length v ->
  exists w, vmul u v = Some w /\ length w = length u /\
            forall i, nth i w 0 = nth i u 0 * nth i v 0.
Proof.
  intros Hlen. unfold vmul. rewrite Hlen, Nat.eqb_refl. cbn [guard bind].
  eexists. split; [reflexivity |]. split.
  - rewrite length_map, length_combine. lia.
  - revert v Hlen. induction u as [| x u IH]; intros [| y v] Hlen i;
      try discriminate; cbn [combine map nth].
    + destruct i; ring.
    + destruct i as [| i]; [reflexivity |]. apply IH. cbn [length] in Hlen. lia.
Qed.

Lemma vmul_length (u v w : list R) : vmul u v = Some w -> length u = length v.
Proof.
  unfold vmul. destruct (Nat.eqb_spec (length u) (length v)) as [E | _];
    [intros _; exact E | discriminate].
Qed.

Lemma nth_repeat_zero (n i : nat) : nth i (repeat 0 n) 0 = 0.
Proof.
  revert i. induction n as [| n IH]; intros [| i]; cbn [repeat nth]; auto.
Qed.

Lemma set_subvector_prefix (N : nat) (G : list R) :
  (length G <= N)%nat ->
  exists b, set_subvector (repeat 0 N) 0 (length G) G = Some b /\
            length b = N /\
            (forall i, (i < length G)%nat -> nth i b 0 = nth i G 0) /\
            (forall i, (length G <= i)%nat -> nth i b 0 = 0).
Proof.
  intros HG. unfold set_subvector, broadcastable_to, slice_len.
  rewrite repeat_length.
  replace (Nat.min (length G) N - 0)%nat with (length G) by lia.
  rewrite Nat.eqb_refl. cbn [orb guard bind].
  eexists. split; [reflexivity |]. split; [| split].
  - rewrite length_map, length_seq. reflexivity.
  - intros i Hi.
    rewrite (nth_map_lt _ _ _ _ 0%nat) by (rewrite length_seq; lia).
    rewrite seq_nth by lia. cbn [Nat.add].
    rewrite in_slice_true by lia.
    rewrite Nat.sub_0_r, bidx_lt by lia. reflexivity.
  - intros i Hi.
    destruct (Nat.lt_ge_cases i N) as [HiN | HiN].
    + rewrite (nth_map_lt _ _ _ _ 0%nat) by (rewrite length_seq; lia).
      rewrite seq_nth by lia. cbn [Nat.add].
      rewrite in_slice_false by lia. apply nth_repeat_zero.
    + apply nth_overflow. rewrite length_map, length_seq. exact HiN.
Qed.

(** The three components of the gradient of one orientation. *)
Lemma b_vector_layout (self : TheanoGraphPro) (dip_angles azimuth polarity : list R) :
  length azimuth = length dip_angles ->
  length polarity = length dip_angles ->
  (3 * length dip_angles <= length_of_C self)%nat ->
  exists b,
    b_vector self dip_angles azimuth polarity = Some b /\
    length b = length_of_C self /\
    (forall i,
        (i < length dip_angles)%nat ->
        nth i b 0
        = sin (deg2rad (nth i dip_angles 0)) * sin (deg2rad (nth i azimuth 0))
          * nth i polarity 0 /\
        nth (length dip_angles + i) b 0
        = sin (deg2rad (nth i dip_angles 0)) * cos (deg2rad (nth i azimuth 0))
          * nth i polarity 0 /\
        nth (2 * length dip_angles + i) b 0
        = cos (deg2rad (nth i dip_angles 0)) * nth i polarity 0) /\
    (forall i, (3 * length dip_angles <= i)%nat -> nth i b 0 = 0).
Proof.
  intros Haz Hpol HC.
  set (n := length dip_angles) in *.
  unfold b_vector, matrices_shapes.
  destruct (vmul_ok (map (fun x => sin (deg2rad x)) dip_angles)
                    (map (fun x => sin (deg2rad x)) azimuth))
    as [sx [Hsx [Lsx Nsx]]]; [rewrite !length_map; lia |].
  rewrite Hsx. cbn [bind]. rewrite length_map in Lsx.
  destruct (vmul_ok sx polarity) as [G_x [HGx [LGx NGx]]]; [lia |].
  rewrite HGx. cbn [bind].
  destruct (vmul_ok (map (fun x => sin (deg2rad x)) dip_angles)
                    (map (fun x => cos (deg2rad x)) azimuth))
    as [sy [Hsy [Lsy Nsy]]]; [rewrite !length_map; lia |].
  rewrite Hsy. cbn [bind]. rewrite length_map in Lsy.
  destruct (vmul_ok sy polarity) as [G_y [HGy [LGy NGy]]]; [lia |].
  rewrite HGy. cbn [bind].
  destruct (vmul_ok (map (fun x => cos (deg2rad x)) dip_angles) polarity)
    as [G_z [HGz [LGz NGz]]]; [rewrite !length_map; lia |].
  rewrite HGz. cbn [bind]. rewrite length_map in LGz.
  assert (LG : length (G_x ++ G_y ++ G_z) = (3 * n)%nat)
    by (rewrite !length_app; fold n in Lsx, Lsy, LGz; lia).
  destruct (set_subvector_prefix (length_of_C self) (G_x ++ G_y ++ G_z))
    as [b [Hb [Lb [Hin Hout]]]]; [lia |].
  exists b. split; [exact Hb |]. split; [exact Lb |]. split.
  - intros i Hi. fold n in Lsx, Lsy, LGz.
    rewrite !Hin by lia.
    rewrite app_nth1 by lia.
    rewrite app_nth2 by lia. rewrite app_nth1 by lia.
    rewrite app_nth2 by lia. rewrite app_nth2 by lia.
    replace (n + i - length G_x)%nat with i by lia.
    replace (2 * n + i - length G_x - length G_y)%nat with i by lia.
    rewrite NGx, Nsx, NGy, Nsy, NGz.
    rewrite !(nth_map_lt _ _ _ _ 0) by (fold n; lia).
    repeat split.
  - intros i Hi. apply Hout. lia.
Qed.

(** X7: for a series with as many dip angles, azimuths and polarities as
    dips, [b_vector] returns a vector as long as the covariance matrix is
    wide.  Its first three bands hold the x, y and z components of the
    gradients, computed from the angles in degrees, and every entry after
    them (the rows of the interface points, the drift and the faults) is
    exactly 0. *)
Theorem X7_b_vector_layout (self : TheanoGraphPro) (dip_angles azimuth polarity : list R) :
  length dip_angles = length (dips_position self) ->
  length azimuth = length dip_angles ->
  length polarity = length dip_angles ->
  exists b,
    b_vector self dip_angles azimuth polarity = Some b /\
    length b = length_of_C self /\
    (forall i,
        (i < length dip_angles)%nat ->
        nth i b 0
        = sin (deg2rad (nth i dip_angles 0)) * sin (deg2rad (nth i azimuth 0))
          * nth i polarity 0 /\
        nth (length dip_angles + i) b 0
        = sin (deg2rad (nth i dip_angles 0)) * cos (deg2rad (nth i azimuth 0))
          * nth i polarity 0 /\
        nth (2 * length dip_angles + i) b 0
        = cos (deg2rad (nth i dip_angles 0)) * nth i polarity 0) /\
    (forall i, (length_of_CG self <= i)%nat -> nth i b 0 = 0).
Proof.
  intros Hn Haz Hpol.
  assert (Hg : length_of_CG self = (3 * length dip_angles)%nat)
    by (unfold length_of_CG; rewrite dips_tiled_length; lia).
  destruct (b_vector_layout self dip_angles azimuth polarity Haz Hpol)
    as [b [Hb [Lb [Hin Hout]]]]; [unfold length_of_C; lia |].
  exists b. repeat (split; [assumption |]).
  intros i Hi. apply Hout. lia.
Qed.

Lemma b_vector_some (self : TheanoGraphPro) (dip_angles azimuth polarity b : list R) :
  b_vector self dip_angles azimuth polarity = Some b ->
  length azimuth = length dip_angles /\
  length polarity = length dip_angles /\
  (3 * length dip_angles <= length_of_C self)%nat.
Proof.
  intros Hb. unfold b_vector, matrices_shapes in Hb.
  destruct (vmul (map _ dip_angles) (map _ azimuth)) as [sx |] eqn:Hsx in Hb;
    [| discriminate].
  cbn [bind] in Hb.
  destruct (vmul sx polarity) as [G_x |] eqn:HGx in Hb; [| discriminate].
  cbn [bind] in Hb.
  destruct (vmul (map _ dip_angles) (map _ azimuth)) as [sy |] eqn:Hsy in Hb;
    [| discriminate].
  cbn [bind] in Hb.
  destruct (vmul sy polarity) as [G_y |] eqn:HGy in Hb; [| discriminate].
  cbn [bind] in Hb.
  destruct (vmul (map _ dip_angles) polarity) as [G_z |] eqn:HGz in Hb; [| discriminate].
  cbn [bind] in Hb.
  pose proof (vmul_length _ _ _ Hsx) as L1. rewrite !length_map in L1.
  pose proof (vmul_length _ _ _ HGz) as L2. rewrite !length_map in L2.
  destruct (vmul_ok _ _ (vmul_length _ _ _ Hsx)) as [? [E [Lsx _]]].
  rewrite Hsx in E. injection E as <-. rewrite length_map in Lsx.
  destruct (vmul_ok _ _ (vmul_length _ _ _ HGx)) as [? [E [LGx _]]].
  rewrite HGx in E. injection E as <-.
  destruct (vmul_ok _ _ (vmul_length _ _ _ Hsy)) as [? [E [Lsy _]]].
  rewrite Hsy in E. injection E as <-. rewrite length_map in Lsy.
  destruct (vmul_ok _ _ (vmul_length _ _ _ HGy)) as [? [E [LGy _]]].
  rewrite HGy in E. injection E as <-.
  destruct (vmul_ok _ _ (vmul_length _ _ _ HGz)) as [? [E [LGz _]]].
  rewrite HGz in E. injection E as <-. rewrite length_map in LGz.
  split; [lia |]. split; [lia |].
  unfold set_subvector, broadcastable_to, slice_len in Hb.
  rewrite repeat_length, !length_app in Hb.
  destruct (Nat.eqb_spec (length G_x + (length G_y + length G_z))
                         (Nat.min (length G_x + (length G_y + length G_z)) (length_of_C self) - 0))
    as [E | _]; [lia |].
  destruct (Nat.eqb_spec (length G_x + (length G_y + length G_z)) 1) as [E | _];
    [lia | discriminate].
Qed.

(** X8: the gradient that [b_vector] writes for an orientation has the
    squared norm of its polarity, so it is a unit vector when the polarity
    is 1 or -1, whatever the dip and the azimuth. *)
Theorem X8_b_vector_unit_gradient (self : TheanoGraphPro)
    (dip_angles azimuth polarity b : list R) (i : nat) :
  b_vector self dip_angles azimuth polarity = Some b ->
  (i < length dip_angles)%nat ->
  nth i b 0 ^ 2 + nth (length dip_angles + i) b 0 ^ 2
  + nth (2 * length dip_angles + i) b 0 ^ 2
  = nth i polarity 0 ^ 2.
Proof.
  intros Hb Hi.
  destruct (b_vector_some _ _ _ _ _ Hb) as [Haz [Hpol HC]].
  destruct (b_vector_layout self dip_angles azimuth polarity Haz Hpol HC)
    as [b' [Hb' [_ [Hin _]]]].
  rewrite Hb in Hb'. injection Hb' as <-.
  destruct (Hin i Hi) as [-> [-> ->]].
  pose proof (sin2_cos2 (deg2rad (nth i dip_angles 0))) as Hd.
  pose proof (sin2_cos2 (deg2rad (nth i azimuth 0))) as Ha.
  unfold Rsqr in Hd, Ha.
  set (sd := sin (deg2rad (nth i dip_angles 0))) in *.
  set (cd := cos (deg2rad (nth i dip_angles 0))) in *.
  set (sa := sin (deg2rad (nth i azimuth 0))) in *.
  set (ca := cos (deg2rad (nth i azimuth 0))) in *.
  set (p := nth i polarity 0).
  transitivity (p ^ 2 * (sd * sd * (sa * sa + ca * ca) + cd * cd)); [ring |].
  rewrite Ha. replace (sd * sd * 1 + cd * cd) with (sd * sd + cd * cd) by ring.
  rewrite Hd. ring.
Qed.

(** ** The kriging system and the field it produces *)

Lemma Rsum_nil : Rsum [] = 0.
Proof. reflexivity. Qed.

Lemma Rsum_cons (x : R) (l : list R) : Rsum (x :: l) = x + Rsum l.
Proof. reflexivity. Qed.

Lemma Rsum_app (l1 l2 : list R) : Rsum (l1 ++ l2) = Rsum l1 + Rsum l2.
Proof.
  induction l1 as [| x l1 IH]; cbn [app]; rewrite ?Rsum_cons, ?Rsum_nil; [ring |].
  rewrite IH. ring.
Qed.

Lemma Rsum_map_ext {A : Type} (f g : A -> R) (l : list A) :
  (forall x, In x l -> f x = g x) -> Rsum (map f l) = Rsum (map g l).
Proof. intros H. f_equal. apply map_ext_in, H. Qed.

Lemma Rsum_map_plus {A : Type} (f g : A -> R) (l : list A) :
  Rsum (map (fun x => f x + g x) l) = Rsum (map f l) + Rsum (map g l).
Proof.
  induction l as [| x l IH]; cbn [map]; rewrite ?Rsum_cons, ?Rsum_nil; [ring |].
  rewrite IH. ring.
Qed.

Lemma Rsum_map_minus {A : Type} (f g : A -> R) (l : list A) :
  Rsum (map (fun x => f x - g x) l) = Rsum (map f l) - Rsum (map g l).
Proof.
  induction l as [| x l IH]; cbn [map]; rewrite ?Rsum_cons, ?Rsum_nil; [ring |].
  rewrite IH. ring.
Qed.

Lemma Rsum_map_scal {A : Type} (c : R) (f : A -> R) (l : list A) :
  Rsum (map (fun x => c * f x) l) = c * Rsum (map f l).
Proof.
  induction l as [| x l IH]; cbn [map]; rewrite ?Rsum_cons, ?Rsum_nil; [ring |].
  rewrite IH. ring.
Qed.

Lemma Rsum_map_zero {A : Type} (l : list A) : Rsum (map (fun _ => 0) l) = 0.
Proof.
  induction l as [| x l IH]; cbn [map]; rewrite ?Rsum_cons, ?Rsum_nil; [reflexivity |].
  rewrite IH. ring.
Qed.

Lemma Rsum_seq_shift (f : nat -> R) (a n : nat) :
  Rsum (map f (seq a n)) = Rsum (map (fun k => f (a + k)%nat) (seq 0 n)).
Proof.
  revert a. induction n as [| n IH]; intros a; [reflexivity |].
  cbn [seq map]. rewrite !Rsum_cons, Nat.add_0_r. f_equal.
  rewrite IH.
  rewrite <- seq_shift, map_map.
  apply Rsum_map_ext. intros k _. f_equal. lia.
Qed.

(** A sum over the columns of the assembled matrix, band by band. *)
Lemma Rsum_bands (f : nat -> R) (g m u n : nat) :
  Rsum (map f (seq 0 (g + m + u + n)))
  = Rsum (map f (seq 0 g))
    + Rsum (map (fun k => f (g + k)%nat) (seq 0 m))
    + Rsum (map (fun k => f (g + m + k)%nat) (seq 0 u))
    + Rsum (map (fun k => f (g + m + u + k)%nat) (seq 0 n)).
Proof.
  rewrite !seq_app, !map_app, !Rsum_app. cbn [Nat.add].
  rewrite (Rsum_seq_shift f g m), (Rsum_seq_shift f (g + m) u),
    (Rsum_seq_shift f (g + m + u) n).
  reflexivity.
Qed.

Section Rows.

Variables (g m u f : nat) (C C_G C_I C_GI U_I U_G F_I F_G : matrix) (w : list R).
Hypothesis Hcols : n_cols C = (g + m + u + f)%nat.
Hypothesis Hentries :
  forall i j, (i < g + m + u + f)%nat -> (j < g + m + u + f)%nat ->
              entry C i j = block_entry g m u C_G C_I C_GI U_I U_G F_I F_G i j.

(** The equation of interface point [i]. *)
Lemma interface_row (i : nat) :
  (i < m)%nat ->
  mat_vec C w (g + i)
  = Rsum (map (fun k => entry C_GI i k * nth k w 0) (seq 0 g))
    + Rsum (map (fun k => entry C_I i k * nth (g + k) w 0) (seq 0 m))
    + Rsum (map (fun k => entry U_I i k * nth (g + m + k) w 0) (seq 0 u))
    + Rsum (map (fun k => entry F_I k i * nth (g + m + u + k) w 0) (seq 0 f)).
Proof.
  intros Hi. unfold mat_vec. rewrite Hcols, Rsum_bands.
  f_equal; [f_equal; [f_equal |] |];
    apply Rsum_map_ext; intros k Hk; apply in_seq in Hk;
    rewrite Hentries by lia; unfold block_entry; decide_ltb;
    repeat f_equal; lia.
Qed.

(** The equation of drift term [k]. *)
Lemma drift_row (k : nat) :
  (k < u)%nat ->
  mat_vec C w (g + m + k)
  = Rsum (map (fun c => entry U_G c k * nth c w 0) (seq 0 g))
    + Rsum (map (fun c => entry U_I c k * nth (g + c) w 0) (seq 0 m)).
Proof.
  intros Hk. unfold mat_vec. rewrite Hcols, Rsum_bands.
  rewrite <- (Rplus_0_r (_ + Rsum (map (fun c => entry U_I c k * _) _))).
  rewrite <- (Rplus_0_r (_ + Rsum (map (fun c => entry U_I c k * _) _) + 0)).
  f_equal; [f_equal; [f_equal |] |].
  - apply Rsum_map_ext; intros c Hc; apply in_seq in Hc.
    rewrite Hentries by lia. unfold block_entry. decide_ltb.
    repeat f_equal; lia.
  - apply Rsum_map_ext; intros c Hc; apply in_seq in Hc.
    rewrite Hentries by lia. unfold block_entry. decide_ltb.
    repeat f_equal; lia.
  - rewrite <- (Rsum_map_zero (seq 0 u)).
    apply Rsum_map_ext; intros c Hc; apply in_seq in Hc.
    rewrite Hentries by lia. unfold block_entry. decide_ltb. ring.
  - rewrite <- (Rsum_map_zero (seq 0 f)).
    apply Rsum_map_ext; intros c Hc; apply in_seq in Hc.
    rewrite Hentries by lia. unfold block_entry. decide_ltb. ring.
Qed.

End Rows.

Lemma Rsum_map_opp {A : Type} (f : A -> R) (l : list A) :
  Rsum (map (fun x => - f x) l) = - Rsum (map f l).
Proof.
  induction l as [| x l IH]; cbn [map]; rewrite ?Rsum_cons, ?Rsum_nil; [ring |].
  rewrite IH. ring.
Qed.

Lemma hu_points_same (dips x y : list point) (k j j' : nat) :
  nth j x origin = nth j' y origin ->
  entry (hu_points dips x) k j = entry (hu_points dips y) k j'.
Proof. intros E. rewrite !hu_points_entry, E. reflexivity. Qed.

Lemma sed_same (t x y : list point) (k j j' : nat) :
  nth j x origin = nth j' y origin ->
  entry (squared_euclidean_distances t x) k j = entry (squared_euclidean_distances t y) k j'.
Proof. intros E. rewrite !sed_entry, E. reflexivity. Qed.

Lemma cov_interface_gradients_entries (self : TheanoGraphPro) :
  length (ref_layer_points self) = length (rest_layer_points self) ->
  exists C_GI,
    cov_interface_gradients self = Some C_GI /\
    forall i k,
      entry C_GI i k
      = gi_reescale self *
        (entry (hu_points (dips_position self) (rest_layer_points self)) k i
         * T_lt (entry (squared_euclidean_distances (dips_position_tiled self)
                                                    (rest_layer_points self)) k i) (a_T self)
         * (- c_o_T self
            * grad_poly (a_T self)
                        (entry (squared_euclidean_distances (dips_position_tiled self)
                                                            (rest_layer_points self)) k i))
         - entry (hu_points (dips_position self) (ref_layer_points self)) k i
           * T_lt (entry (squared_euclidean_distances (dips_position_tiled self)
                                                      (ref_layer_points self)) k i) (a_T self)
           * (- c_o_T self
              * grad_poly (a_T self)
                          (entry (squared_euclidean_distances (dips_position_tiled self)
                                                              (ref_layer_points self)) k i))).
Proof.
  intros Hlen.
  unfold cov_interface_gradients, msub, elemwise2, same_shape, gradient_interface_term.
  cbn [n_rows n_cols entry squared_euclidean_distances].
  rewrite Hlen, !Nat.eqb_refl. cbn [andb guard bind].
  eexists. split; [reflexivity |]. intros i k. reflexivity.
Qed.

Lemma universal_matrix_interface_entries (self : TheanoGraphPro) (U_I U_G : matrix) :
  universal_matrix self = Some (U_I, U_G) ->
  forall i k,
    entry U_I i k
    = - drift_interface (gi_reescale self) (nth i (rest_layer_points self) origin)
                        (nth i (ref_layer_points self) origin) k.
Proof.
  intros HU i k. unfold universal_matrix in HU.
  destruct (guard _); cbn [bind] in HU; [| discriminate].
  injection HU as <- _. reflexivity.
Qed.

Lemma faults_matrix_interface_entries (self : TheanoGraphPro) (F_I F_G : matrix) :
  faults_matrix self = Some (F_I, F_G) ->
  forall k i,
    entry F_I k i
    = entry (fault_drift_at_surface_points_ref self) k i
      - entry (fault_drift_at_surface_points_rest self) k i + 0.0001.
Proof.
  intros HF k i. unfold faults_matrix, msub, elemwise2 in HF.
  destruct (guard _); cbn [bind] in HF; [| discriminate].
  injection HF as <- _. reflexivity.
Qed.

Lemma drift_interface_scaled (gi : R) (p q : point) (k : nat) :
  (k < 9)%nat ->
  gi * nth k (repeat 1 3 ++ repeat gi 6) 0 * (universal_term p k - universal_term q k)
  = drift_interface gi p q k.
Proof.
  intros Hk.
  do 9 (destruct k as [| k]; [cbn [repeat app nth universal_term drift_interface]; ring |]).
  lia.
Qed.

(** The four parts of the field, between a rest point (evaluated at
    position [jr]) and its reference point (at position [jf]). *)
Lemma gradient_part_increment (self : TheanoGraphPro) (weights : list R)
    (grid_val : list point) (i jr jf : nat) (C_GI : matrix) :
  length (ref_layer_points self) = length (rest_layer_points self) ->
  nth jr grid_val origin = nth i (rest_layer_points self) origin ->
  nth jf grid_val origin = nth i (ref_layer_points self) origin ->
  cov_interface_gradients self = Some C_GI ->
  gradient_part self weights grid_val jr - gradient_part self weights grid_val jf
  = - Rsum (map (fun k => entry C_GI i k * nth k weights 0) (seq 0 (length_of_CG self))).
Proof.
  intros Hlen Hr Hf HC.
  destruct (cov_interface_gradients_entries self Hlen) as [C' [HC' He]].
  rewrite HC in HC'. injection HC' as <-.
  unfold gradient_part. rewrite <- Rsum_map_minus, <- Rsum_map_opp.
  apply Rsum_map_ext. intros k _. rewrite He.
  rewrite (hu_points_same _ grid_val (rest_layer_points self) k jr i Hr).
  rewrite (hu_points_same _ grid_val (ref_layer_points self) k jf i Hf).
  rewrite (sed_same _ grid_val (rest_layer_points self) k jr i Hr).
  rewrite (sed_same _ grid_val (ref_layer_points self) k jf i Hf).
  ring.
Qed.

Lemma interface_part_increment (self : TheanoGraphPro) (weights : list R)
    (grid_val : list point) (i jr jf : nat) (C_I : matrix) :
  length (ref_layer_points self) = length (rest_layer_points self) ->
  nth jr grid_val origin = nth i (rest_layer_points self) origin ->
  nth jf grid_val origin = nth i (ref_layer_points self) origin ->
  cov_surface_points self = Some C_I ->
  (i < length_of_CGI self)%nat ->
  interface_part self weights grid_val jr - interface_part self weights grid_val jf
  = - Rsum (map (fun k => entry C_I i k * nth (length_of_CG self + k) weights 0)
                (seq 0 (length_of_CGI self)))
    + 2 * nugget_effect_scalar_T self * nth (length_of_CG self + i) weights 0.
Proof.
  intros Hlen Hr Hf HC Hi.
  destruct (cov_surface_points_ok self Hlen) as [C' [HC' [_ [_ He]]]].
  rewrite HC in HC'. injection HC' as <-.
  unfold interface_part.
  rewrite <- Rsum_map_minus.
  transitivity
    (- Rsum (map (fun k => (entry C_I i k
                            - (if (i =? k)%nat then 1 else 0) * 2 * nugget_effect_scalar_T self)
                           * nth (length_of_CG self + k) weights 0)
                 (seq 0 (length_of_CGI self)))).
  - rewrite <- Rsum_map_opp. apply Rsum_map_ext. intros k _. rewrite He.
    rewrite (sed_same _ grid_val (rest_layer_points self) k jr i Hr).
    rewrite (sed_same _ grid_val (rest_layer_points self) k jr i Hr).
    rewrite (sed_same _ grid_val (ref_layer_points self) k jf i Hf).
    rewrite (sed_same _ grid_val (ref_layer_points self) k jf i Hf).
    rewrite (sed_sym (rest_layer_points self) (rest_layer_points self) i k).
    rewrite (sed_sym (ref_layer_points self) (rest_layer_points self) i k).
    rewrite (sed_sym (rest_layer_points self) (ref_layer_points self) i k).
    rewrite (sed_sym (ref_layer_points self) (ref_layer_points self) i k).
    ring.
  - transitivity
      (- (Rsum (map (fun k => entry C_I i k * nth (length_of_CG self + k) weights 0)
                    (seq 0 (length_of_CGI self)))
          - Rsum (map (fun k => (if (i =? k)%nat then 1 else 0)
                                * (2 * nugget_effect_scalar_T self
                                   * nth (length_of_CG self + k) weights 0))
                      (seq 0 (length_of_CGI self))))).
    { rewrite <- Rsum_map_minus. f_equal. apply Rsum_map_ext. intros k _. ring. }
    assert (Hpick :
              forall (h : nat -> R) (n : nat),
                (i < n)%nat ->
                Rsum (map (fun k => (if (i =? k)%nat then 1 else 0) * h k) (seq 0 n)) = h i).
    { intros h n Hn.
      replace n with (i + (1 + (n - i - 1)))%nat by lia.
      rewrite !seq_app, !map_app, !Rsum_app. cbn [seq map Nat.add].
      rewrite Rsum_cons, Rsum_nil, Nat.eqb_refl.
      rewrite (Rsum_map_ext _ (fun _ => 0) (seq 0 i)).
      2:{ intros k Hk. apply in_seq in Hk.
          destruct (Nat.eqb_spec i k); [lia | ring]. }
      rewrite (Rsum_map_ext _ (fun _ => 0) (seq (i + 1) _)).
      2:{ intros k Hk. apply in_seq in Hk.
          destruct (Nat.eqb_spec i k); [lia | ring]. }
      rewrite !Rsum_map_zero. ring. }
    rewrite (Hpick _ _ Hi). ring.
Qed.

Lemma drift_part_increment (self : TheanoGraphPro) (weights : list R)
    (grid_val : list point) (i jr jf : nat) (U_I U_G : matrix) :
  nth jr grid_val origin = nth i (rest_layer_points self) origin ->
  nth jf grid_val origin = nth i (ref_layer_points self) origin ->
  universal_matrix self = Some (U_I, U_G) ->
  (n_universal_eq_T_op self <= 9)%nat ->
  drift_part self weights grid_val jr - drift_part self weights grid_val jf
  = - Rsum (map (fun k => entry U_I i k
                          * nth (length_of_CG self + length_of_CGI self + k) weights 0)
                (seq 0 (length_of_U_I self))).
Proof.
  intros Hr Hf HU Hu. unfold drift_part.
  rewrite <- Rsum_map_minus, <- Rsum_map_opp.
  apply Rsum_map_ext. intros k Hk. apply in_seq in Hk. unfold length_of_U_I in Hk.
  rewrite (universal_matrix_interface_entries self U_I U_G HU).
  rewrite <- (drift_interface_scaled (gi_reescale self)) by lia.
  rewrite Hr, Hf. ring.
Qed.

Lemma fault_part_increment (self : TheanoGraphPro) (weights : list R)
    (i jr jf : nat) (F_I F_G : matrix) :
  faults_matrix self = Some (F_I, F_G) ->
  (forall k, (k < length_of_faults self)%nat ->
             entry (fault_drift_at_surface_points_rest self) k i
             = entry (fault_matrix self) k jr /\
             entry (fault_drift_at_surface_points_ref self) k i
             = entry (fault_matrix self) k jf) ->
  fault_part self weights jr - fault_part self weights jf
  = - Rsum (map (fun k => entry F_I k i
                          * nth (length_of_CG self + length_of_CGI self
                                 + length_of_U_I self + k) weights 0)
                (seq 0 (length_of_faults self)))
    + 0.0001 * Rsum (map (fun k => nth (length_of_CG self + length_of_CGI self
                                        + length_of_U_I self + k) weights 0)
                         (seq 0 (length_of_faults self))).
Proof.
  intros HF Hfm. unfold fault_part.
  rewrite <- Rsum_map_minus, <- Rsum_map_opp, <- Rsum_map_scal, <- Rsum_map_plus.
  apply Rsum_map_ext. intros k Hk. apply in_seq in Hk.
  rewrite (faults_matrix_interface_entries self F_I F_G HF).
  destruct (Hfm k) as [-> ->]; [lia |]. ring.
Qed.

(** *** A rest point that repeats its reference point *)

Lemma sed_same_row (x y t : list point) (i i' k : nat) :
  nth i x origin = nth i' y origin ->
  entry (squared_euclidean_distances x t) i k = entry (squared_euclidean_distances y t) i' k.
Proof. intros E. rewrite !sed_entry, E. reflexivity. Qed.

Lemma drift_interface_same_point (gi : R) (p : point) (k : nat) :
  drift_interface gi p p k = 0.
Proof.
  do 9 (destruct k as [| k]; [cbn [drift_interface]; ring |]).
  cbn [drift_interface]. ring.
Qed.

(** X28: a rest point that coincides with its reference point carries no
    information.  For a series whose input shapes agree, the row of that point
    in the matrix returned by [covariance_matrix] holds twice the nugget
    effect on the diagonal and 0 in every other column of the gradient,
    interface and drift bands: only the fault columns can hold anything
    else. *)
Theorem X28_repeated_point_gives_a_null_row (self : TheanoGraphPro) (i : nat) :
  admissible self ->
  (i < length (rest_layer_points self))%nat ->
  nth i (rest_layer_points self) origin = nth i (ref_layer_points self) origin ->
  exists C,
    covariance_matrix self = Some C /\
    forall j,
      (j < length_of_CG self + length_of_CGI self + length_of_U_I self)%nat ->
      entry C (length_of_CG self + i) j
      = if (j =? length_of_CG self + i)%nat then 2 * nugget_effect_scalar_T self else 0.
Proof.
  intros Hadm Hi Hsame.
  destruct (covariance_matrix_layout self Hadm)
    as [C [C_I [C_GI [U_I [U_G [F_I [F_G [HCI [HCGI [HU [_ [HC [_ [_ He]]]]]]]]]]]]]].
  destruct Hadm as [Hlen _].
  destruct (cov_surface_points_ok self Hlen) as [C_I' [HCI' [_ [_ HeI]]]].
  rewrite HCI in HCI'. injection HCI' as <-.
  destruct (cov_interface_gradients_entries self Hlen) as [C_GI' [HCGI' HeGI]].
  rewrite HCGI in HCGI'. injection HCGI' as <-.
  pose proof (universal_matrix_interface_entries self U_I U_G HU) as HeU.
  exists C. split; [exact HC |].
  intros j Hj.
  assert (Hm : length_of_CGI self = length (rest_layer_points self)) by reflexivity.
  rewrite He by (unfold length_of_C; lia).
  unfold block_entry.
  replace (length_of_CG self + i <? length_of_CG self)%nat with false
    by (symmetry; apply Nat.ltb_ge; lia).
  replace (length_of_CG self + i <? length_of_CG self + length_of_CGI self)%nat with true
    by (symmetry; apply Nat.ltb_lt; lia).
  replace (length_of_CG self + i - length_of_CG self)%nat with i by lia.
  destruct (j <? length_of_CG self)%nat eqn:E1.
  { apply Nat.ltb_lt in E1.
    replace (j =? length_of_CG self + i)%nat with false
      by (symmetry; apply Nat.eqb_neq; lia).
    rewrite HeGI.
    rewrite (hu_points_same _ (rest_layer_points self) (ref_layer_points self) j i i Hsame).
    rewrite (sed_same _ (rest_layer_points self) (ref_layer_points self) j i i Hsame).
    ring. }
  apply Nat.ltb_ge in E1.
  destruct (j <? length_of_CG self + length_of_CGI self)%nat eqn:E2.
  { rewrite HeI.
    rewrite (sed_same_row (rest_layer_points self) (ref_layer_points self)
                          (rest_layer_points self) i i _ Hsame).
    rewrite (sed_same_row (rest_layer_points self) (ref_layer_points self)
                          (ref_layer_points self) i i _ Hsame).
    destruct (Nat.eq_dec j (length_of_CG self + i)) as [-> | Hne].
    - replace (length_of_CG self + i - length_of_CG self)%nat with i by lia.
      rewrite !Nat.eqb_refl. ring.
    - replace (i =? j - length_of_CG self)%nat with false
        by (symmetry; apply Nat.eqb_neq; lia).
      replace (j =? length_of_CG self + i)%nat with false
        by (symmetry; apply Nat.eqb_neq; lia).
      ring. }
  apply Nat.ltb_ge in E2.
  replace (j <? length_of_CG self + length_of_CGI self + length_of_U_I self)%nat with true
    by (symmetry; apply Nat.ltb_lt; lia).
  replace (j =? length_of_CG self + i)%nat with false
    by (symmetry; apply Nat.eqb_neq; lia).
  rewrite HeU, Hsame, drift_interface_same_point. ring.
Qed.

Lemma repeated_point_series_admissible : admissible repeated_point_series.
Proof. unfold admissible. cbn. repeat split; lia. Qed.

Lemma X28_witness :
  admissible repeated_point_series /\
  (0 < length (rest_layer_points repeated_point_series))%nat /\
  nth 0 (rest_layer_points repeated_point_series) origin
  = nth 0 (ref_layer_points repeated_point_series) origin /\
  exists C,
    covariance_matrix repeated_point_series = Some C /\
    forall j,
      (j < length_of_CG repeated_point_series + length_of_CGI repeated_point_series
           + length_of_U_I repeated_point_series)%nat ->
      entry C (length_of_CG repeated_point_series + 0) j
      = if (j =? length_of_CG repeated_point_series + 0)%nat
        then 2 * nugget_effect_scalar_T repeated_point_series else 0.
Proof.
  assert (H0 : (0 < length (rest_layer_points repeated_point_series))%nat) by (cbn; lia).
  split; [exact repeated_point_series_admissible |].
  split; [exact H0 |]. split; [reflexivity |].
  exact (X28_repeated_point_gives_a_null_row repeated_point_series 0
           repeated_point_series_admissible H0 eq_refl).
Defined.

(** *** Weights that solve the system *)

Lemma solve_kriging_solves (solve : matrix -> list R -> option (list R))
    (self : TheanoGraphPro) (dip_angles azimuth polarity w : list R) :
  (forall C b w, solve C b = Some w -> solves C w b) ->
  solve_kriging solve self dip_angles azimuth polarity = Some w ->
  exists C b,
    covariance_matrix self = Some C /\
    b_vector self dip_angles azimuth polarity = Some b /\
    solves C w b.
Proof.
  intros Hspec H. unfold solve_kriging in H.
  destruct (covariance_matrix self) as [C |]; [| discriminate]. cbn [bind] in H.
  destruct (b_vector self dip_angles azimuth polarity) as [b |]; [| discriminate].
  cbn [bind] in H.
  exists C, b. split; [reflexivity |]. split; [reflexivity |]. apply Hspec, H.
Qed.

(** The right-hand side of the system is 0 below the gradient rows. *)
Lemma b_vector_zero_tail (self : TheanoGraphPro) (dip_angles azimuth polarity b : list R)
    (i : nat) :
  length dip_angles = length (dips_position self) ->
  b_vector self dip_angles azimuth polarity = Some b ->
  (length_of_CG self <= i)%nat ->
  nth i b 0 = 0.
Proof.
  intros Hn Hb Hi.
  destruct (b_vector_some _ _ _ _ _ Hb) as [Haz [Hpol HC]].
  destruct (b_vector_layout self dip_angles azimuth polarity Haz Hpol HC)
    as [b' [Hb' [_ [_ Hout]]]].
  rewrite Hb in Hb'. injection Hb' as <-.
  apply Hout. unfold length_of_CG in Hi. rewrite dips_tiled_length in Hi. lia.
Qed.

(** X9: the weights returned by [solve_kriging] satisfy the universality
    conditions.  For a solver that returns a solution of the system it is
    given, and for every drift term [k] of the series, the drift values of
    the gradient rows and of the interface rows, weighted by the kriging
    weights, add up to exactly 0. *)
Theorem X9_weights_annihilate_drift (solve : matrix -> list R -> option (list R))
    (self : TheanoGraphPro) (dip_angles azimuth polarity w : list R)
    (U_I U_G : matrix) (k : nat) :
  (forall C b w, solve C b = Some w -> solves C w b) ->
  admissible self ->
  length dip_angles = length (dips_position self) ->
  solve_kriging solve self dip_angles azimuth polarity = Some w ->
  universal_matrix self = Some (U_I, U_G) ->
  (k < n_universal_eq_T_op self)%nat ->
  Rsum (map (fun c => entry U_G c k * nth c w 0) (seq 0 (length_of_CG self)))
  + Rsum (map (fun c => entry U_I c k * nth (length_of_CG self + c) w 0)
              (seq 0 (length_of_CGI self)))
  = 0.
Proof.
  intros Hspec Hadm Hn Hw HU Hk.
  destruct (solve_kriging_solves solve self _ _ _ w Hspec Hw) as [C [b [HC [Hb [_ Hrows]]]]].
  destruct (covariance_matrix_layout self Hadm)
    as [C' [C_I [C_GI [U_I' [U_G' [F_I [F_G [_ [_ [HU' [_ [HC' [HCr [HCc He]]]]]]]]]]]]]].
  rewrite HC in HC'. injection HC' as <-.
  rewrite HU in HU'. injection HU' as <- <-.
  rewrite <- (drift_row (length_of_CG self) (length_of_CGI self) (length_of_U_I self)
                        (length_of_faults self) C (cov_gradients self) C_I C_GI U_I U_G
                        F_I F_G w HCc He k Hk).
  rewrite Hrows by (rewrite HCr; unfold length_of_C, length_of_U_I; lia).
  apply (b_vector_zero_tail self dip_angles azimuth polarity b _ Hn Hb). lia.
Qed.

(** X10: what the interpolation does to the points of a surface.  Let the
    weights be those returned by [solve_kriging], for a solver that returns
    a solution of the system it is given, and let the field be evaluated in
    one chunk at points that include rest point [i] of the series (at
    position [jr]) and its reference point (at position [jf]), the fault
    drift of the two points being the columns [jr] and [jf] of the fault
    matrix.  Then the field at the rest point exceeds the field at the
    reference point by exactly twice the scalar nugget effect times the
    weight of that point, plus [0.0001] times the sum of the fault weights:
    with no nugget effect and no fault, the two points have the same
    value. *)
Theorem X10_field_increment_on_a_surface (solve : matrix -> list R -> option (list R))
    (self : TheanoGraphPro) (dip_angles azimuth polarity w : list R)
    (grid_val : list point) (steps : nat) (Z_x vals : list R) (i jr jf : nat) :
  (forall C b w, solve C b = Some w -> solves C w b) ->
  admissible self ->
  length dip_angles = length (dips_position self) ->
  solve_kriging solve self dip_angles azimuth polarity = Some w ->
  n_cols (fault_matrix self) = length grid_val ->
  (n_rows (fault_matrix self) <= length grid_val)%nat ->
  (0 < length grid_val <= steps)%nat ->
  scalar_field_at_all self steps w grid_val = Some (Z_x, vals) ->
  (i < length (rest_layer_points self))%nat ->
  (jr < length grid_val)%nat ->
  nth jr grid_val origin = nth i (rest_layer_points self) origin ->
  (jf < length grid_val)%nat ->
  nth jf grid_val origin = nth i (ref_layer_points self) origin ->
  (forall k, (k < length_of_faults self)%nat ->
             entry (fault_drift_at_surface_points_rest self) k i
             = entry (fault_matrix self) k jr /\
             entry (fault_drift_at_surface_points_ref self) k i
             = entry (fault_matrix self) k jf) ->
  nth jr Z_x 0 - nth jf Z_x 0
  = 2 * nugget_effect_scalar_T self * nth (length_of_CG self + i) w 0
    + 0.0001 * Rsum (map (fun k => nth (length_of_CG self + length_of_CGI self
                                        + length_of_U_I self + k) w 0)
                         (seq 0 (length_of_faults self))).
Proof.
  intros Hspec Hadm Hn Hw Hfc Hfr [Hpos Hsteps] HZ Hi Hjr Hr Hjf Hf Hfm.
  destruct (solve_kriging_solves solve self _ _ _ w Hspec Hw)
    as [C [b [HC [Hb [Hwlen Hrows]]]]].
  destruct (covariance_matrix_layout self Hadm)
    as [C' [C_I [C_GI [U_I [U_G [F_I [F_G [HCI [HCGI [HU [HF [HC' [HCr [HCc He]]]]]]]]]]]]]].
  rewrite HC in HC'. injection HC' as <-.
  pose proof Hadm as [Hlen [Hu _]].
  assert (Hev : evaluable self w grid_val).
  { unfold evaluable. rewrite Hwlen, HCc. repeat split; assumption. }
  rewrite (whole_grid_evaluation self steps w grid_val Hev Hpos Hsteps) in HZ.
  cbv zeta in HZ.
  destruct (surface_points_values self _) as [vals' |]; [| discriminate].
  cbn [bind] in HZ. injection HZ as <- _.
  rewrite !(nth_map_lt _ _ _ _ 0%nat) by (rewrite length_seq; assumption).
  rewrite !seq_nth by assumption. cbn [Nat.add].
  unfold field_value.
  pose proof (gradient_part_increment self w grid_val i jr jf C_GI Hlen Hr Hf HCGI) as E1.
  pose proof (interface_part_increment self w grid_val i jr jf C_I Hlen Hr Hf HCI Hi) as E2.
  pose proof (drift_part_increment self w grid_val i jr jf U_I U_G Hr Hf HU Hu) as E3.
  pose proof (fault_part_increment self w i jr jf F_I F_G HF Hfm) as E4.
  pose proof (interface_row (length_of_CG self) (length_of_CGI self) (length_of_U_I self)
                            (length_of_faults self) C (cov_gradients self) C_I C_GI U_I U_G
                            F_I F_G w HCc He i Hi) as Erow.
  rewrite Hrows in Erow by (rewrite HCr; unfold length_of_C, length_of_CGI; lia).
  rewrite (b_vector_zero_tail self dip_angles azimuth polarity b _ Hn Hb) in Erow by lia.
  lra.
Qed.

(** *** A horizontal orientation

    One orientation with dip 0 and polarity 1, a surface of two points at
    the same height and a linear drift: the weights that are 0 except on
    the drift term along z solve the kriging system. *)

Lemma T_eq_true (x y : R) : x = y -> T_eq x y = true.
Proof. intros ->. unfold T_eq. destruct (Req_dec_T y y); [reflexivity | contradiction]. Qed.

Lemma T_eq_sound (x y : R) : T_eq x y = true -> x = y.
Proof. unfold T_eq. destruct (Req_dec_T x y); [auto | discriminate]. Qed.

Lemma solves_b_true (C : matrix) (w b : list R) : solves C w b -> solves_b C w b = true.
Proof.
  intros [Hl Hrows]. unfold solves_b. rewrite Hl, Nat.eqb_refl. cbn [andb].
  apply forallb_forall. intros i Hi. apply in_seq in Hi.
  apply T_eq_true, Hrows. lia.
Qed.

Lemma solves_b_sound (C : matrix) (w b : list R) : solves_b C w b = true -> solves C w b.
Proof.
  unfold solves_b. intros H. apply andb_prop in H. destruct H as [Hl Hrows].
  split; [apply Nat.eqb_eq, Hl |].
  intros i Hi. apply T_eq_sound.
  rewrite forallb_forall in Hrows. apply Hrows, in_seq. lia.
Qed.

Lemma checking_solver_spec (w0 : list R) (C : matrix) (b w : list R) :
  checking_solver w0 C b = Some w -> solves C w b.
Proof.
  unfold checking_solver. destruct (solves_b C w0 b) eqn:E; [| discriminate].
  intros H. injection H as <-. apply solves_b_sound, E.
Qed.

Lemma horizontal_series_admissible : admissible horizontal_series.
Proof. unfold admissible. cbn. repeat split; lia. Qed.

(** The columns of the linear drift terms in the gradient block: row
    [k * n + i] has a 1 in column [k]. *)
Lemma universal_matrix_gradient_linear (self : TheanoGraphPro) (U_I U_G : matrix)
    (k i c : nat) :
  universal_matrix self = Some (U_I, U_G) ->
  (k < 3)%nat -> (i < length (dips_position self))%nat -> (c < 3)%nat ->
  entry U_G (k * length (dips_position self) + i) c = if (k =? c)%nat then 1 else 0.
Proof.
  intros HU Hk Hi Hc. unfold universal_matrix in HU.
  destruct (guard _); cbn [bind] in HU; [| discriminate].
  injection HU as _ <-.
  cbn [n_rows n_cols entry submatrix set_column set_subtensor_scalar T_zeros Nat.add].
  unfold n_dimensions.
  destruct k as [| [| [| k]]]; [| | | lia];
    (do 3 (destruct c as [| c];
           [cbn [Nat.eqb andb]; decide_slices; rewrite ?andb_false_r; reflexivity |]);
     lia).
Qed.

Lemma deg2rad_0 : deg2rad 0 = 0.
Proof. unfold deg2rad. ring. Qed.

Lemma horizontal_series_solution :
  solve_kriging (checking_solver vertical_drift_weights) horizontal_series level_dip north_azimuth normal_polarity
  = Some vertical_drift_weights.
Proof.
  destruct (covariance_matrix_layout horizontal_series horizontal_series_admissible)
    as [C [C_I [C_GI [U_I [U_G [F_I [F_G [_ [_ [HU [_ [HC [HCr [HCc He]]]]]]]]]]]]]].
  destruct (b_vector_layout horizontal_series level_dip north_azimuth normal_polarity eq_refl eq_refl)
    as [b [Hb [Lb [Hin Hout]]]]; [cbn; lia |].
  unfold solve_kriging. rewrite HC, Hb. cbn [bind].
  unfold checking_solver. rewrite solves_b_true; [reflexivity |].
  change (length_of_C horizontal_series) with 7%nat in *.
  change (length_of_CG horizontal_series) with 3%nat in *.
  change (length_of_CGI horizontal_series) with 1%nat in *.
  change (length_of_U_I horizontal_series) with 3%nat in *.
  split; [rewrite HCc; reflexivity |].
  rewrite HCr. intros i Hi.
  unfold mat_vec. rewrite HCc.
  cbn [seq map nth vertical_drift_weights]. rewrite !Rsum_cons, Rsum_nil.
  transitivity (entry C i 6); [ring |].
  rewrite He by lia. unfold block_entry.
  destruct (Hin 0%nat) as [H0 [H1 H2]]; [cbn; lia |].
  cbn [length nth Nat.add Nat.mul level_dip north_azimuth normal_polarity] in H0, H1, H2.
  rewrite !deg2rad_0 in H0, H1, H2.
  assert (G0 : entry U_G 0 2 = 0)
    by (apply (universal_matrix_gradient_linear horizontal_series U_I U_G 0 0 2 HU);
        cbn; lia).
  assert (G1 : entry U_G 1 2 = 0)
    by (apply (universal_matrix_gradient_linear horizontal_series U_I U_G 1 0 2 HU);
        cbn; lia).
  assert (G2 : entry U_G 2 2 = 1)
    by (apply (universal_matrix_gradient_linear horizontal_series U_I U_G 2 0 2 HU);
        cbn; lia).
  pose proof (universal_matrix_interface_entries horizontal_series U_I U_G HU 0 2) as HI.
  cbn [drift_interface horizontal_series rest_layer_points ref_layer_points gi_reescale
       nth pz p100 p200] in HI.
  destruct i as [| [| [| [| [| [| [| i]]]]]]]; [| | | | | | | lia];
    cbn [Nat.ltb Nat.leb Nat.sub Nat.add].
  - rewrite G0, H0, sin_0. ring.
  - rewrite G1, H1, sin_0. ring.
  - rewrite G2, H2, cos_0. ring.
  - rewrite HI, Hout by (cbn; lia). ring.
  - symmetry. apply Hout. cbn. lia.
  - symmetry. apply Hout. cbn. lia.
  - symmetry. apply Hout. cbn. lia.
Qed.

Lemma X7_witness :
  length level_dip = length (dips_position horizontal_series) /\
  length north_azimuth = length level_dip /\
  length normal_polarity = length level_dip /\
  exists b,
    b_vector horizontal_series level_dip north_azimuth normal_polarity = Some b /\
    length b = length_of_C horizontal_series /\
    (forall i,
        (i < length level_dip)%nat ->
        nth i b 0
        = sin (deg2rad (nth i level_dip 0)) * sin (deg2rad (nth i north_azimuth 0))
          * nth i normal_polarity 0 /\
        nth (length level_dip + i) b 0
        = sin (deg2rad (nth i level_dip 0)) * cos (deg2rad (nth i north_azimuth 0))
          * nth i normal_polarity 0 /\
        nth (2 * length level_dip + i) b 0
        = cos (deg2rad (nth i level_dip 0)) * nth i normal_polarity 0) /\
    (forall i, (length_of_CG horizontal_series <= i)%nat -> nth i b 0 = 0).
Proof.
  repeat (split; [reflexivity |]).
  apply (X7_b_vector_layout horizontal_series level_dip north_azimuth normal_polarity); reflexivity.
Defined.

Lemma X8_witness :
  exists b,
    b_vector horizontal_series dip_30 azimuth_45 reversed_polarity = Some b /\
    (0 < length dip_30)%nat /\
    nth 0 b 0 ^ 2 + nth (length dip_30 + 0) b 0 ^ 2
    + nth (2 * length dip_30 + 0) b 0 ^ 2
    = nth 0 reversed_polarity 0 ^ 2.
Proof.
  destruct (b_vector_layout horizontal_series dip_30 azimuth_45 reversed_polarity eq_refl eq_refl)
    as [b [Hb _]]; [cbn; lia |].
  exists b. split; [exact Hb |].
  assert (Hi : (0 < length dip_30)%nat) by (cbn; lia).
  split; [exact Hi |].
  exact (X8_b_vector_unit_gradient horizontal_series dip_30 azimuth_45 reversed_polarity b 0 Hb Hi).
Defined.

Lemma X9_witness :
  (forall C b w, checking_solver vertical_drift_weights C b = Some w -> solves C w b) /\
  admissible horizontal_series /\
  length level_dip = length (dips_position horizontal_series) /\
  solve_kriging (checking_solver vertical_drift_weights) horizontal_series level_dip north_azimuth normal_polarity
  = Some vertical_drift_weights /\
  exists U_I U_G,
    universal_matrix horizontal_series = Some (U_I, U_G) /\
    (2 < n_universal_eq_T_op horizontal_series)%nat /\
    Rsum (map (fun c => entry U_G c 2 * nth c vertical_drift_weights 0)
              (seq 0 (length_of_CG horizontal_series)))
    + Rsum (map (fun c => entry U_I c 2
                          * nth (length_of_CG horizontal_series + c) vertical_drift_weights 0)
                (seq 0 (length_of_CGI horizontal_series)))
    = 0.
Proof.
  split; [exact (checking_solver_spec vertical_drift_weights) |].
  split; [exact horizontal_series_admissible |].
  split; [reflexivity |].
  split; [exact horizontal_series_solution |].
  destruct horizontal_series_admissible as [Hlen [Hu _]].
  destruct (universal_matrix_ok horizontal_series Hlen Hu) as [U_I [U_G [HU _]]].
  exists U_I, U_G. split; [exact HU |].
  assert (Hk : (2 < n_universal_eq_T_op horizontal_series)%nat) by (cbn; lia).
  split; [exact Hk |].
  exact (X9_weights_annihilate_drift
           (checking_solver vertical_drift_weights) horizontal_series level_dip north_azimuth normal_polarity
           vertical_drift_weights U_I U_G 2
           (checking_solver_spec vertical_drift_weights)
           horizontal_series_admissible eq_refl horizontal_series_solution HU Hk).
Defined.

Lemma horizontal_series_field :
  let grid_val := x_to_interpolate horizontal_series [p010] in
  scalar_field_at_all horizontal_series 3 vertical_drift_weights grid_val
  = Some (map (field_value horizontal_series vertical_drift_weights grid_val) (seq 0 3),
          [field_value horizontal_series vertical_drift_weights grid_val 1]).
Proof.
  cbv zeta. rewrite whole_grid_evaluation.
  - reflexivity.
  - repeat split; cbn; lia.
  - cbn; lia.
  - cbn; lia.
Qed.

Lemma X10_witness :
  let grid_val := x_to_interpolate horizontal_series [p010] in
  let Z_x := map (field_value horizontal_series vertical_drift_weights grid_val) (seq 0 3) in
  (forall C b w, checking_solver vertical_drift_weights C b = Some w -> solves C w b) /\
  admissible horizontal_series /\
  length level_dip = length (dips_position horizontal_series) /\
  solve_kriging (checking_solver vertical_drift_weights) horizontal_series level_dip north_azimuth normal_polarity
  = Some vertical_drift_weights /\
  n_cols (fault_matrix horizontal_series) = length grid_val /\
  (n_rows (fault_matrix horizontal_series) <= length grid_val)%nat /\
  (0 < length grid_val <= 3)%nat /\
  scalar_field_at_all horizontal_series 3 vertical_drift_weights grid_val
  = Some (Z_x, [field_value horizontal_series vertical_drift_weights grid_val 1]) /\
  (0 < length (rest_layer_points horizontal_series))%nat /\
  (1 < length grid_val)%nat /\
  nth 1 grid_val origin = nth 0 (rest_layer_points horizontal_series) origin /\
  (2 < length grid_val)%nat /\
  nth 2 grid_val origin = nth 0 (ref_layer_points horizontal_series) origin /\
  (forall k, (k < length_of_faults horizontal_series)%nat ->
             entry (fault_drift_at_surface_points_rest horizontal_series) k 0
             = entry (fault_matrix horizontal_series) k 1 /\
             entry (fault_drift_at_surface_points_ref horizontal_series) k 0
             = entry (fault_matrix horizontal_series) k 2) /\
  nth 1 Z_x 0 - nth 2 Z_x 0
  = 2 * nugget_effect_scalar_T horizontal_series
    * nth (length_of_CG horizontal_series + 0) vertical_drift_weights 0
    + 0.0001 * Rsum (map (fun k => nth (length_of_CG horizontal_series
                                        + length_of_CGI horizontal_series
                                        + length_of_U_I horizontal_series + k)
                                       vertical_drift_weights 0)
                         (seq 0 (length_of_faults horizontal_series))).
Proof.
  intros grid_val Z_x.
  assert (H1 : n_cols (fault_matrix horizontal_series) = length grid_val) by reflexivity.
  assert (H2 : (n_rows (fault_matrix horizontal_series) <= length grid_val)%nat)
    by (cbn; lia).
  assert (H3 : (0 < length grid_val <= 3)%nat) by (cbn; lia).
  assert (H4 : (0 < length (rest_layer_points horizontal_series))%nat) by (cbn; lia).
  assert (H5 : (1 < length grid_val)%nat) by (cbn; lia).
  assert (H6 : (2 < length grid_val)%nat) by (cbn; lia).
  assert (H7 : forall k, (k < length_of_faults horizontal_series)%nat ->
                         entry (fault_drift_at_surface_points_rest horizontal_series) k 0
                         = entry (fault_matrix horizontal_series) k 1 /\
                         entry (fault_drift_at_surface_points_ref horizontal_series) k 0
                         = entry (fault_matrix horizontal_series) k 2)
    by (intros k Hk; cbn in Hk; lia).
  split; [exact (checking_solver_spec vertical_drift_weights) |].
  split; [exact horizontal_series_admissible |].
  split; [reflexivity |].
  split; [exact horizontal_series_solution |].
  split; [exact H1 |]. split; [exact H2 |]. split; [exact H3 |].
  split; [exact horizontal_series_field |].
  split; [exact H4 |]. split; [exact H5 |]. split; [reflexivity |].
  split; [exact H6 |]. split; [reflexivity |]. split; [exact H7 |].
  exact (X10_field_increment_on_a_surface
           (checking_solver vertical_drift_weights) horizontal_series level_dip north_azimuth normal_polarity
           vertical_drift_weights grid_val 3 Z_x
           [field_value horizontal_series vertical_drift_weights grid_val 1] 0 1 2
           (checking_solver_spec vertical_drift_weights)
           horizontal_series_admissible eq_refl horizontal_series_solution
           H1 H2 H3 horizontal_series_field H4 H5 eq_refl H6 eq_refl H7).
Defined.

(** ** The scalar field of one series *)

Lemma surface_points_values_ok (self : TheanoGraphPro) (Z_x : list R) (n_grid : nat) :
  length Z_x = (n_grid + 2 * len_points self)%nat ->
  Forall (fun k => (k < len_points self)%nat) (npf_op self) ->
  surface_points_values self Z_x
  = Some (map (fun k => nth (n_grid + k) Z_x 0) (npf_op self)).
Proof.
  intros HZ Hnpf. unfold surface_points_values.
  rewrite (py_slice_tail Z_x n_grid (len_points self) HZ).
  apply take_rows_slice; [lia |].
  eapply Forall_impl; [| exact Hnpf]. cbn beta. intros k Hk. lia.
Qed.

(** X11: what [compute_scalar_field] returns when the chunk length covers
    all the evaluation points.  The evaluation points are the grid followed
    by all the rest points and all the reference points; the field at each
    of them is the sum of the gradient, interface, drift and fault
    contributions, and the values reported for the surfaces are the field
    at the rest points that [npf_op] selects. *)
Theorem X11_scalar_field_in_one_chunk (self : TheanoGraphPro) (steps : nat)
    (weights : list R) (grid : list point) :
  let grid_val := x_to_interpolate self grid in
  evaluable self weights grid_val ->
  length (rest_layer_points_all self) = len_points self ->
  length (ref_layer_points_all self) = len_points self ->
  Forall (fun k => (k < len_points self)%nat) (npf_op self) ->
  (0 < length grid_val <= steps)%nat ->
  compute_scalar_field self steps weights grid
  = Some (map (field_value self weights grid_val) (seq 0 (length grid_val)),
          map (fun k => field_value self weights grid_val (length grid + k)) (npf_op self)).
Proof.
  intros grid_val Hev Hrest Href Hnpf [Hpos Hsteps].
  unfold compute_scalar_field. fold grid_val.
  rewrite (whole_grid_evaluation self steps weights grid_val Hev Hpos Hsteps).
  cbv zeta.
  assert (Hn : length grid_val = (length grid + 2 * len_points self)%nat)
    by (unfold grid_val, x_to_interpolate; rewrite !length_app; lia).
  rewrite (surface_points_values_ok self _ (length grid))
    by (rewrite ?length_map, ?length_seq; assumption).
  cbn [bind]. f_equal. f_equal.
  apply map_ext_in. intros k Hk.
  rewrite Forall_forall in Hnpf. specialize (Hnpf k Hk).
  rewrite (nth_map_lt _ _ _ _ 0%nat) by (rewrite length_seq; lia).
  rewrite seq_nth by lia. reflexivity.
Qed.

(** X12: a chunk length below the number of evaluation points makes
    [compute_scalar_field] raise, for every series whose fault matrix has
    one column per evaluation point: the first chunk multiplies the weights
    of the chunk with a slice of the rows of the fault matrix, whose width
    is still that of all the points. *)
Theorem X12_scalar_field_in_chunks_raises (self : TheanoGraphPro) (steps : nat)
    (weights : list R) (grid : list point) :
  (0 < steps < length (x_to_interpolate self grid))%nat ->
  n_cols (fault_matrix self) = length (x_to_interpolate self grid) ->
  compute_scalar_field self steps weights grid = None.
Proof.
  intros [Hpos Hlt] Hcols. unfold compute_scalar_field.
  apply chunked_evaluation_raises; assumption.
Qed.

Lemma X12_witness :
  (0 < 2 < length (x_to_interpolate horizontal_series [p010]))%nat /\
  n_cols (fault_matrix horizontal_series) = length (x_to_interpolate horizontal_series [p010]) /\
  compute_scalar_field horizontal_series 2 vertical_drift_weights [p010] = None.
Proof.
  assert (H : (0 < 2 < length (x_to_interpolate horizontal_series [p010]))%nat)
    by (cbn; lia).
  split; [exact H |]. split; [reflexivity |].
  exact (X12_scalar_field_in_chunks_raises horizontal_series 2 vertical_drift_weights
                                           [p010] H eq_refl).
Defined.

Lemma horizontal_series_evaluable :
  evaluable horizontal_series vertical_drift_weights
            (x_to_interpolate horizontal_series [p010]).
Proof. repeat split; cbn; lia. Qed.

Lemma X11_witness :
  let grid_val := x_to_interpolate horizontal_series [p010] in
  evaluable horizontal_series vertical_drift_weights grid_val /\
  length (rest_layer_points_all horizontal_series) = len_points horizontal_series /\
  length (ref_layer_points_all horizontal_series) = len_points horizontal_series /\
  Forall (fun k => (k < len_points horizontal_series)%nat) (npf_op horizontal_series) /\
  (0 < length grid_val <= 3)%nat /\
  compute_scalar_field horizontal_series 3 vertical_drift_weights [p010]
  = Some (map (field_value horizontal_series vertical_drift_weights grid_val)
              (seq 0 (length grid_val)),
          map (fun k => field_value horizontal_series vertical_drift_weights grid_val
                                    (length [p010] + k))
              (npf_op horizontal_series)).
Proof.
  intros grid_val.
  assert (Hnpf : Forall (fun k => (k < len_points horizontal_series)%nat)
                        (npf_op horizontal_series))
    by (repeat constructor).
  assert (Hn : (0 < length grid_val <= 3)%nat) by (cbn; lia).
  split; [exact horizontal_series_evaluable |].
  split; [reflexivity |]. split; [reflexivity |].
  split; [exact Hnpf |]. split; [exact Hn |].
  exact (X11_scalar_field_in_one_chunk horizontal_series 3 vertical_drift_weights [p010]
                                       horizontal_series_evaluable eq_refl eq_refl Hnpf Hn).
Defined.

(** *** Far from the data *)


(** *** The contributions that can be computed in chunks *)

Lemma firstn_seq_le (b : nat) : forall s n, (b <= n)%nat -> firstn b (seq s n) = seq s b.
Proof.
  induction b as [| b IH]; intros s n H; [reflexivity |].
  destruct n as [| n]; [lia |].
  cbn [seq firstn]. rewrite IH by lia. reflexivity.
Qed.

Lemma slice_seq (n a b : nat) :
  (a <= b <= n)%nat -> slice (seq 0 n) a b = seq a (b - a).
Proof.
  intros H. unfold slice. rewrite firstn_seq_le by lia. rewrite skipn_seq.
  reflexivity.
Qed.

Lemma seq_as_map (a k : nat) : forall s, seq (s + a) k = map (fun j => (a + j)%nat) (seq s k).
Proof.
  induction k as [| k IH]; intros s; [reflexivity |].
  cbn [seq map]. rewrite <- (IH (S s)). f_equal. lia.
Qed.

Lemma slice_map_seq (f : nat -> R) (n a b : nat) :
  (a <= b <= n)%nat ->
  slice (map (fun j => f (0 + j)%nat) (seq 0 (n - 0))) a b
  = map (fun j => f (a + j)%nat) (seq 0 (b - a)).
Proof.
  intros H. unfold slice. rewrite firstn_map, skipn_map.
  fold (slice (seq 0 (n - 0)) a b). rewrite slice_seq by lia.
  change (seq a (b - a)) with (seq (0 + a) (b - a)).
  rewrite (seq_as_map a (b - a) 0). rewrite map_map. reflexivity.
Qed.

(** X29: the gradient, interface and drift contributions can be computed in
    chunks.  Evaluated on the chunk [a:b] of the evaluation points and of
    the tiled weights, each of the three returns the slice [a:b] of what it
    returns on all the points. *)
Theorem X29_kernel_contributions_in_chunks (self : TheanoGraphPro) (weights : list R)
    (grid_val : list point) (a b : nat) :
  evaluable self weights grid_val ->
  (a <= b <= length grid_val)%nat ->
  let n := length grid_val in
  let W := extend_dual_kriging weights n in
  exists sigma_0_grad sigma_0_interf f_0,
    contribution_gradient_interface self (slice grid_val 0 n) (submatrix W 0 (n_rows W) 0 n)
    = Some sigma_0_grad /\
    contribution_interface self (slice grid_val 0 n) (submatrix W 0 (n_rows W) 0 n)
    = Some sigma_0_interf /\
    contribution_universal_drift self (slice grid_val 0 n) (submatrix W 0 (n_rows W) 0 n) 0 n
    = Some f_0 /\
    contribution_gradient_interface self (slice grid_val a b) (submatrix W 0 (n_rows W) a b)
    = Some (slice sigma_0_grad a b) /\
    contribution_interface self (slice grid_val a b) (submatrix W 0 (n_rows W) a b)
    = Some (slice sigma_0_interf a b) /\
    contribution_universal_drift self (slice grid_val a b) (submatrix W 0 (n_rows W) a b) a b
    = Some (slice f_0 a b).
Proof.
  intros Hev Hab n W.
  assert (H0n : (0 <= n <= length grid_val)%nat) by (unfold n; lia).
  unfold W. cbn [n_rows extend_dual_kriging]. fold n.
  eexists. eexists. eexists.
  split; [apply (contribution_gradient_interface_chunk self weights grid_val 0 n Hev H0n) |].
  split; [apply (contribution_interface_chunk self weights grid_val 0 n Hev H0n) |].
  split; [apply (contribution_universal_drift_chunk self weights grid_val 0 n Hev H0n) |].
  rewrite !slice_map_seq by (unfold n; lia).
  split; [apply (contribution_gradient_interface_chunk self weights grid_val a b Hev Hab) |].
  split; [apply (contribution_interface_chunk self weights grid_val a b Hev Hab) |].
  apply (contribution_universal_drift_chunk self weights grid_val a b Hev Hab).
Qed.

Lemma X29_witness :
  let grid_val := x_to_interpolate horizontal_series [p010] in
  evaluable horizontal_series vertical_drift_weights grid_val /\
  (1 <= 2 <= length grid_val)%nat /\
  let n := length grid_val in
  let W := extend_dual_kriging vertical_drift_weights n in
  exists sigma_0_grad sigma_0_interf f_0,
    contribution_gradient_interface horizontal_series (slice grid_val 0 n)
                                    (submatrix W 0 (n_rows W) 0 n)
    = Some sigma_0_grad /\
    contribution_interface horizontal_series (slice grid_val 0 n)
                           (submatrix W 0 (n_rows W) 0 n)
    = Some sigma_0_interf /\
    contribution_universal_drift horizontal_series (slice grid_val 0 n)
                                 (submatrix W 0 (n_rows W) 0 n) 0 n
    = Some f_0 /\
    contribution_gradient_interface horizontal_series (slice grid_val 1 2)
                                    (submatrix W 0 (n_rows W) 1 2)
    = Some (slice sigma_0_grad 1 2) /\
    contribution_interface horizontal_series (slice grid_val 1 2)
                           (submatrix W 0 (n_rows W) 1 2)
    = Some (slice sigma_0_interf 1 2) /\
    contribution_universal_drift horizontal_series (slice grid_val 1 2)
                                 (submatrix W 0 (n_rows W) 1 2) 1 2
    = Some (slice f_0 1 2).
Proof.
  intros grid_val.
  assert (Hab : (1 <= 2 <= length grid_val)%nat) by (cbn; lia).
  split; [exact horizontal_series_evaluable |]. split; [exact Hab |].
  exact (X29_kernel_contributions_in_chunks horizontal_series vertical_drift_weights
                                           grid_val 1 2 horizontal_series_evaluable Hab).
Defined.




(** *** Superposition *)

Lemma vadd_ok (u v w : list R) :
  vadd u v = Some w ->
  length u = length v /\ length w = length u /\
  forall k, nth k w 0 = nth k u 0 + nth k v 0.
Proof.
  unfold vadd. destruct (Nat.eqb_spec (length u) (length v)) as [E | _]; [| discriminate].
  cbn [guard bind]. intros H. injection H as <-.
  split; [exact E |]. split; [rewrite length_map, length_combine; lia |].
  revert v E. induction u as [| x u IH]; intros [| y v] E k; try discriminate;
    cbn [combine map nth].
  - destruct k; ring.
  - destruct k as [| k]; [reflexivity |]. apply IH. cbn [length] in E. lia.
Qed.

Lemma field_value_additive (self : TheanoGraphPro) (w1 w2 w : list R)
    (grid_val : list point) (j : nat) :
  (forall k, nth k w 0 = nth k w1 0 + nth k w2 0) ->
  field_value self w grid_val j
  = field_value self w1 grid_val j + field_value self w2 grid_val j.
Proof.
  intros Hw.
  assert (Hg : gradient_part self w grid_val j
               = gradient_part self w1 grid_val j + gradient_part self w2 grid_val j).
  { unfold gradient_part. rewrite <- Rsum_map_plus.
    apply Rsum_map_ext. intros k _. rewrite Hw. ring. }
  assert (Hi : interface_part self w grid_val j
               = interface_part self w1 grid_val j + interface_part self w2 grid_val j).
  { unfold interface_part. rewrite <- Rsum_map_plus.
    apply Rsum_map_ext. intros k _. rewrite Hw. ring. }
  assert (Hd : drift_part self w grid_val j
               = drift_part self w1 grid_val j + drift_part self w2 grid_val j).
  { unfold drift_part. rewrite <- Rsum_map_plus.
    apply Rsum_map_ext. intros k _. rewrite Hw. ring. }
  assert (Hf : fault_part self w j = fault_part self w1 j + fault_part self w2 j).
  { unfold fault_part. rewrite <- Rsum_map_plus.
    apply Rsum_map_ext. intros k _. rewrite Hw. ring. }
  unfold field_value. rewrite Hg, Hi, Hd, Hf. ring.
Qed.

Lemma take_rows_map {A B : Type} (f : A -> B) (l : list A) (idx : list nat) :
  take_rows (map f l) idx
  = match take_rows l idx with
    | Some r => Some (map f r)
    | None => None
    end.
Proof.
  induction idx as [| i idx IH]; [reflexivity |].
  cbn [take_rows]. rewrite nth_error_map.
  destruct (nth_error l i) as [x |]; cbn [option_map bind]; [| reflexivity].
  rewrite IH. destruct (take_rows l idx); reflexivity.
Qed.

Lemma py_slice_map {A B : Type} (f : A -> B) (l : list A) (a b : Z) :
  py_slice (map f l) a b = map f (py_slice l a b).
Proof.
  unfold py_slice, slice. rewrite length_map, firstn_map, skipn_map. reflexivity.
Qed.

Lemma surface_points_values_map (self : TheanoGraphPro) (f : nat -> R) (l : list nat) :
  surface_points_values self (map f l)
  = match take_rows (py_slice l (-2 * Z.of_nat (len_points self))
                              (- Z.of_nat (len_points self))) (npf_op self) with
    | Some r => Some (map f r)
    | None => None
    end.
Proof. unfold surface_points_values. rewrite py_slice_map. apply take_rows_map. Qed.

(** X14: the field is linear in the weights.  When the one-chunk evaluation
    returns a field and surface values for each of two weight vectors, it
    returns, for the sum of the two weight vectors, the sum of the two
    fields and the sum of the two lists of surface values. *)
Theorem X14_field_is_additive_in_the_weights (self : TheanoGraphPro) (steps : nat)
    (w1 w2 w : list R) (grid_val : list point) (Z1 v1 Z2 v2 : list R) :
  evaluable self w1 grid_val ->
  evaluable self w2 grid_val ->
  (0 < length grid_val <= steps)%nat ->
  vadd w1 w2 = Some w ->
  scalar_field_at_all self steps w1 grid_val = Some (Z1, v1) ->
  scalar_field_at_all self steps w2 grid_val = Some (Z2, v2) ->
  exists Z v,
    scalar_field_at_all self steps w grid_val = Some (Z, v) /\
    vadd Z1 Z2 = Some Z /\
    vadd v1 v2 = Some v.
Proof.
  intros Hev1 Hev2 [Hpos Hsteps] Hw H1 H2.
  destruct (vadd_ok _ _ _ Hw) as [_ [Hlw Hnth]].
  assert (Hev : evaluable self w grid_val).
  { destruct Hev1 as [L1 Hrest]. split; [rewrite Hlw; exact L1 | exact Hrest]. }
  rewrite (whole_grid_evaluation self steps _ grid_val Hev1 Hpos Hsteps) in H1.
  rewrite (whole_grid_evaluation self steps _ grid_val Hev2 Hpos Hsteps) in H2.
  rewrite (whole_grid_evaluation self steps _ grid_val Hev Hpos Hsteps).
  cbv zeta in *.
  rewrite surface_points_values_map in *.
  destruct (take_rows _ (npf_op self)) as [r |]; [| discriminate].
  cbn [bind] in *.
  injection H1 as <- <-. injection H2 as <- <-.
  eexists. eexists. split; [reflexivity |].
  rewrite !vadd_maps. split; f_equal; apply map_ext; intros j;
    symmetry; apply field_value_additive, Hnth.
Qed.

Lemma X14_witness :
  let grid_val := x_to_interpolate horizontal_series [p010] in
  let Z_x := map (field_value horizontal_series vertical_drift_weights grid_val) (seq 0 3) in
  let vals := [field_value horizontal_series vertical_drift_weights grid_val 1] in
  evaluable horizontal_series vertical_drift_weights grid_val /\
  evaluable horizontal_series vertical_drift_weights grid_val /\
  (0 < length grid_val <= 3)%nat /\
  vadd vertical_drift_weights vertical_drift_weights
  = Some (map (fun '(x, y) => x + y)
              (combine vertical_drift_weights vertical_drift_weights)) /\
  scalar_field_at_all horizontal_series 3 vertical_drift_weights grid_val
  = Some (Z_x, vals) /\
  scalar_field_at_all horizontal_series 3 vertical_drift_weights grid_val
  = Some (Z_x, vals) /\
  exists Z v,
    scalar_field_at_all horizontal_series 3
                        (map (fun '(x, y) => x + y)
                             (combine vertical_drift_weights vertical_drift_weights))
                        grid_val
    = Some (Z, v) /\
    vadd Z_x Z_x = Some Z /\
    vadd vals vals = Some v.
Proof.
  intros grid_val Z_x vals.
  assert (Hn : (0 < length grid_val <= 3)%nat) by (cbn; lia).
  assert (Hw : vadd vertical_drift_weights vertical_drift_weights
               = Some (map (fun '(x, y) => x + y)
                           (combine vertical_drift_weights vertical_drift_weights)))
    by reflexivity.
  split; [exact horizontal_series_evaluable |].
  split; [exact horizontal_series_evaluable |].
  split; [exact Hn |]. split; [exact Hw |].
  split; [exact horizontal_series_field |].
  split; [exact horizontal_series_field |].
  exact (X14_field_is_additive_in_the_weights
           horizontal_series 3 vertical_drift_weights vertical_drift_weights _ grid_val
           Z_x vals Z_x vals
           horizontal_series_evaluable horizontal_series_evaluable Hn Hw
           horizontal_series_field horizontal_series_field).
Defined.

(** ** The split and the indices the constructor derives from it *)

Lemma cumsum_block_starts (off c : nat) (cs : list nat) :
  off :: cumsum_from off (removelast (c :: cs)) = block_starts off (c :: cs).
Proof.
  revert off c. induction cs as [| c' cs IH]; intros off c; [reflexivity |].
  change (removelast (c :: c' :: cs)) with (c :: removelast (c' :: cs)).
  cbn [cumsum_from]. rewrite IH. reflexivity.
Qed.

Lemma npf_block_starts (counts : list nat) :
  counts <> [] -> npf counts = block_starts 0 counts.
Proof.
  destruct counts as [| c cs]; [congruence | intros _].
  unfold npf, cumsum. cbn [cumsum_from Nat.add]. apply cumsum_block_starts.
Qed.

Lemma block_starts_length (off : nat) (lengths : list nat) :
  length (block_starts off lengths) = length lengths.
Proof.
  revert off. induction lengths as [| n t IH]; intros off; [reflexivity |].
  cbn [block_starts length]. rewrite IH. reflexivity.
Qed.

Lemma take_rows_block_starts {B : Type} (d : B) (pre : list B) (blocks : list (list B)) :
  Forall (fun b => (1 <= length b)%nat) blocks ->
  take_rows (pre ++ concat blocks) (block_starts (length pre) (map (@length B) blocks))
  = Some (map (fun b => nth 0 b d) blocks).
Proof.
  intros H. revert pre. induction H as [| b blocks Hb _ IH]; intros pre; [reflexivity |].
  cbn [map block_starts take_rows concat].
  rewrite nth_error_app2 by lia. rewrite Nat.sub_diag.
  destruct b as [| x b]; [cbn [length] in Hb; lia |].
  cbn [app nth_error bind nth].
  replace (pre ++ x :: b ++ concat blocks) with ((pre ++ x :: b) ++ concat blocks)
    by (rewrite <- app_assoc; reflexivity).
  replace (length pre + length (x :: b))%nat with (length (pre ++ x :: b))
    by (rewrite length_app; reflexivity).
  rewrite IH. reflexivity.
Qed.

(** X15: the two indices that the constructor derives from the counts agree
    with the split.  For surfaces that each have at least one point beyond
    their first one, [len_points] is the number of rest points, and [npf]
    has one entry per surface: at that position the rest set holds the
    first rest point of the surface and the reference set holds the first
    point of the surface. *)
Theorem X15_indices_of_the_split {A : Type} (surfaces : list (A * list A)) :
  surfaces <> [] ->
  Forall (fun s => (1 <= length (snd s))%nat) surfaces ->
  exists ref_points rest_points rest_mask idx,
    set_rest_ref_matrix (flatten surfaces) (counts surfaces)
    = Some (ref_points, rest_points, rest_mask, idx) /\
    init_len_points (flatten surfaces) (counts surfaces) = Z.of_nat (length rest_points) /\
    length (npf (counts surfaces)) = length surfaces /\
    take_rows rest_points (npf (counts surfaces))
    = Some (map (fun s => nth 0 (snd s) (fst s)) surfaces) /\
    take_rows ref_points (npf (counts surfaces)) = Some (map fst surfaces).
Proof.
  intros Hne Hall.
  exists (replicated_refs surfaces), (concat (map snd surfaces)),
         (rest_mask_of surfaces), (nonzero (rest_mask_of surfaces)).
  assert (Hc : counts surfaces <> [])
    by (destruct surfaces; [congruence | discriminate]).
  split; [apply set_rest_ref_matrix_split, Hne |].
  split.
  { unfold init_len_points, counts. rewrite flatten_length, length_map. lia. }
  rewrite (npf_block_starts _ Hc).
  split; [rewrite block_starts_length; unfold counts; apply length_map |].
  destruct surfaces as [| s0 ss] eqn:Es; [congruence |]. rewrite <- Es in *.
  split.
  - pose proof (take_rows_block_starts (fst s0) [] (map snd surfaces)) as H.
    rewrite map_map in H. cbn [app length] in H.
    unfold counts. rewrite H.
    + f_equal. rewrite map_map. apply map_ext_in. intros s Hs.
      rewrite Forall_forall in Hall. specialize (Hall s Hs).
      apply nth_indep. lia.
    + rewrite Forall_map. exact Hall.
  - pose proof (take_rows_block_starts
                  (fst s0) []
                  (map (fun s : A * list A => repeat (fst s) (length (snd s))) surfaces)) as H.
    rewrite map_map in H. cbn [app length] in H.
    unfold counts, replicated_refs.
    rewrite (map_ext (fun s : A * list A => length (snd s))
                     (fun s => length (repeat (fst s) (length (snd s)))))
      by (intros s; rewrite repeat_length; reflexivity).
    rewrite H.
    + f_equal. rewrite map_map. apply map_ext_in. intros s Hs.
      rewrite Forall_forall in Hall. specialize (Hall s Hs).
      destruct (length (snd s)); [lia | reflexivity].
    + rewrite Forall_map. eapply Forall_impl; [| exact Hall].
      cbn beta. intros s Hs. rewrite repeat_length. exact Hs.
Qed.

Lemma two_surfaces_nonempty :
  Forall (fun s : point * list point => (1 <= length (snd s))%nat) two_surfaces.
Proof. repeat constructor; cbn; lia. Qed.

Lemma X15_witness :
  two_surfaces <> [] /\
  Forall (fun s : point * list point => (1 <= length (snd s))%nat) two_surfaces /\
  exists ref_points rest_points rest_mask idx,
    set_rest_ref_matrix (flatten two_surfaces) (counts two_surfaces)
    = Some (ref_points, rest_points, rest_mask, idx) /\
    init_len_points (flatten two_surfaces) (counts two_surfaces)
    = Z.of_nat (length rest_points) /\
    length (npf (counts two_surfaces)) = length two_surfaces /\
    take_rows rest_points (npf (counts two_surfaces))
    = Some (map (fun s => nth 0 (snd s) (fst s)) two_surfaces) /\
    take_rows ref_points (npf (counts two_surfaces)) = Some (map fst two_surfaces).
Proof.
  assert (Hne : two_surfaces <> []) by discriminate.
  split; [exact Hne |]. split; [exact two_surfaces_nonempty |].
  exact (X15_indices_of_the_split two_surfaces Hne two_surfaces_nonempty).
Defined.

(** *** Inputs on which the split raises, and inputs it does not check *)

Lemma take_rows_out_of_range {A : Type} (x : list A) (idx : list nat) (k : nat) :
  In k idx -> (length x <= k)%nat -> take_rows x idx = None.
Proof.
  intros Hin Hk. induction idx as [| i idx IH]; [contradiction |].
  cbn [take_rows]. destruct Hin as [-> | Hin].
  - rewrite (proj2 (nth_error_None x k) Hk). reflexivity.
  - destruct (nth_error x i); cbn [bind]; [| reflexivity].
    rewrite (IH Hin). reflexivity.
Qed.

(** X16: [set_rest_ref_matrix] raises when there is no surface at all, and
    when the array of points ends before the first point of some surface,
    that is, at or before one of the reference positions that the counts
    give. *)
Theorem X16_split_raises {A : Type} (surface_points_all : list A) :
  set_rest_ref_matrix surface_points_all [] = None /\
  forall (number_of_points_per_surface : list nat) (k : nat),
    In k (cumsum (0%nat :: map (fun c => (c + 1)%nat)
                                (removelast number_of_points_per_surface))) ->
    (length surface_points_all <= k)%nat ->
    set_rest_ref_matrix surface_points_all number_of_points_per_surface = None.
Proof.
  split.
  - unfold set_rest_ref_matrix. cbn [removelast map cumsum cumsum_from take_rows Nat.add].
    destruct (nth_error surface_points_all 0); reflexivity.
  - intros n k Hin Hk. unfold set_rest_ref_matrix.
    rewrite (take_rows_out_of_range _ _ k Hin Hk). reflexivity.
Qed.

Lemma X16_witness :
  In 3%nat (cumsum (0%nat :: map (fun c => (c + 1)%nat) (removelast [2%nat; 1%nat]))) /\
  (length [p000; p100; p200] <= 3)%nat /\
  set_rest_ref_matrix [p000; p100; p200] [2%nat; 1%nat] = None.
Proof.
  assert (Hin : In 3%nat (cumsum (0%nat :: map (fun c => (c + 1)%nat)
                                                (removelast [2%nat; 1%nat]))))
    by (cbn; auto).
  assert (Hk : (length [p000; p100; p200] <= 3)%nat) by (cbn; lia).
  split; [exact Hin |]. split; [exact Hk |].
  exact (proj2 (X16_split_raises [p000; p100; p200]) [2%nat; 1%nat] 3%nat Hin Hk).
Defined.

Lemma take_rows_app_l {A : Type} (x y : list A) (idx : list nat) (r : list A) :
  take_rows x idx = Some r -> take_rows (x ++ y) idx = Some r.
Proof.
  revert r. induction idx as [| i idx IH]; intros r H; [exact H |].
  cbn [take_rows] in *.
  destruct (nth_error x i) as [a |] eqn:E; cbn [bind] in *; [| discriminate].
  assert (Hi : (i < length x)%nat) by (apply nth_error_Some; congruence).
  rewrite nth_error_app1, E by exact Hi. cbn [bind].
  destruct (take_rows x idx) as [rs |]; cbn [bind] in *; [| discriminate].
  rewrite (IH rs eq_refl). exact H.
Qed.

Lemma clear_at_app_l (mask tail : list nat) (idx : list nat) (mask' : list nat) :
  clear_at mask idx = Some mask' -> clear_at (mask ++ tail) idx = Some (mask' ++ tail).
Proof.
  revert mask mask'. induction idx as [| i idx IH]; intros mask mask' H.
  - cbn [clear_at] in *. injection H as <-. reflexivity.
  - cbn [clear_at] in *.
    destruct (Nat.ltb_spec i (length mask)) as [Hi | Hi]; cbn [guard bind] in H;
      [| discriminate].
    rewrite (proj2 (Nat.ltb_lt i (length (mask ++ tail))))
      by (rewrite length_app; lia).
    cbn [guard bind].
    rewrite firstn_app, skipn_app.
    replace (i - length mask)%nat with 0%nat by lia.
    replace (S i - length mask)%nat with 0%nat by lia.
    rewrite firstn_0, skipn_O, app_nil_r.
    replace (firstn i mask ++ 0%nat :: skipn (S i) mask ++ tail)
      with ((firstn i mask ++ 0%nat :: skipn (S i) mask) ++ tail)
      by (rewrite <- app_assoc; reflexivity).
    apply IH, H.
Qed.

Lemma select_app {A : Type} (x y : list A) (m m' : list nat) :
  length x = length m -> select (x ++ y) (m ++ m') = select x m ++ select y m'.
Proof.
  revert m. induction x as [| a x IH]; intros [| b m] Hlen; try discriminate.
  - reflexivity.
  - cbn [app select]. injection Hlen as Hlen. rewrite (IH m Hlen).
    destruct (b =? 0)%nat; reflexivity.
Qed.

Lemma select_all_ones {A : Type} (x : list A) : select x (repeat 1%nat (length x)) = x.
Proof.
  induction x as [| a x IH]; [reflexivity |].
  cbn [length repeat select Nat.eqb]. rewrite IH. reflexivity.
Qed.

(** The split of an array that holds more points than the counts say. *)
Lemma set_rest_ref_matrix_trailing {A : Type} (surfaces : list (A * list A))
    (extra : list A) :
  surfaces <> [] ->
  set_rest_ref_matrix (flatten surfaces ++ extra) (counts surfaces)
  = Some (replicated_refs surfaces, concat (map snd surfaces) ++ extra,
          rest_mask_of surfaces ++ repeat 1%nat (length extra),
          nonzero (rest_mask_of surfaces ++ repeat 1%nat (length extra))).
Proof.
  intros Hne. unfold set_rest_ref_matrix.
  rewrite (ref_positions_eq surfaces Hne).
  pose proof (take_rows_refs [] surfaces) as Hrefs.
  pose proof (clear_at_refs [] surfaces) as Hmask.
  cbn [app length] in Hrefs, Hmask.
  rewrite (take_rows_app_l _ extra _ _ Hrefs). cbn [bind].
  rewrite T_repeat_refs. cbn [bind].
  rewrite length_app, repeat_app.
  rewrite (clear_at_app_l _ _ _ _ Hmask). cbn [bind].
  rewrite take_rows_nonzero
    by (rewrite !length_app, repeat_length, rest_mask_length; reflexivity).
  cbn [bind].
  rewrite select_app by (symmetry; apply rest_mask_length).
  rewrite select_rest, select_all_ones. reflexivity.
Qed.

(** X17: [set_rest_ref_matrix] does not compare the counts with the number
    of points.  Points that follow the counted ones are returned as rest
    points without a reference point, so the rest set is longer than the
    reference set, and a series that takes the two sets as they are
    returned cannot build its covariance matrix. *)
Theorem X17_uncounted_points_are_rest_points (surfaces : list (point * list point))
    (extra : list point) :
  surfaces <> [] ->
  extra <> [] ->
  exists ref_points rest_points rest_mask idx,
    set_rest_ref_matrix (flatten surfaces ++ extra) (counts surfaces)
    = Some (ref_points, rest_points, rest_mask, idx) /\
    ref_points = replicated_refs surfaces /\
    rest_points = concat (map snd surfaces) ++ extra /\
    length rest_points = (length ref_points + length extra)%nat /\
    forall self,
      ref_layer_points self = ref_points ->
      rest_layer_points self = rest_points ->
      covariance_matrix self = None.
Proof.
  intros Hne Hextra.
  exists (replicated_refs surfaces), (concat (map snd surfaces) ++ extra),
         (rest_mask_of surfaces ++ repeat 1%nat (length extra)),
         (nonzero (rest_mask_of surfaces ++ repeat 1%nat (length extra))).
  split; [apply set_rest_ref_matrix_trailing, Hne |].
  split; [reflexivity |]. split; [reflexivity |].
  assert (Hlen : length (concat (map snd surfaces) ++ extra)
                 = (length (replicated_refs surfaces) + length extra)%nat)
    by (rewrite length_app, replicated_refs_length; reflexivity).
  split; [exact Hlen |].
  intros self Href Hrest.
  unfold covariance_matrix, matrices_shapes.
  rewrite unaligned_covariance_raises; [reflexivity |].
  rewrite Href, Hrest, Hlen.
  destruct extra; [congruence | cbn [length]; lia].
Qed.

Lemma X17_witness :
  two_surfaces <> [] /\
  [p_far] <> [] /\
  exists ref_points rest_points rest_mask idx,
    set_rest_ref_matrix (flatten two_surfaces ++ [p_far]) (counts two_surfaces)
    = Some (ref_points, rest_points, rest_mask, idx) /\
    ref_points = replicated_refs two_surfaces /\
    rest_points = concat (map snd two_surfaces) ++ [p_far] /\
    length rest_points = (length ref_points + length [p_far])%nat /\
    forall self,
      ref_layer_points self = ref_points ->
      rest_layer_points self = rest_points ->
      covariance_matrix self = None.
Proof.
  assert (H1 : two_surfaces <> []) by discriminate.
  assert (H2 : [p_far] <> []) by discriminate.
  split; [exact H1 |]. split; [exact H2 |].
  exact (X17_uncounted_points_are_rest_points two_surfaces [p_far] H1 H2).
Defined.

(** ** Finite faults *)

Lemma py_index_last {A : Type} (l : list A) :
  py_index l (0 - 1) = py_index l (Z.of_nat (length l) - 1).
Proof.
  unfold py_index. destruct l as [| x l].
  - reflexivity.
  - cbn [length]. change (0 - 1)%Z with (-1)%Z.
    destruct (Z.ltb_spec (-1) 0) as [_ | H]; [| lia].
    destruct (Z.ltb_spec (-1 + Z.of_nat (S (length l))) 0) as [H | _]; [lia |].
    destruct (Z.ltb_spec (Z.of_nat (S (length l)) - 1) 0) as [H | _]; [lia |].
    repeat (f_equal; try lia).
Qed.

(** X18: [select_finite_faults] reads the inflation factor at index
    [n_series - 1], and a negative index counts from the end: called for
    series 0 it uses the inflation factor of the last series, exactly as if
    it had been called with the number of series. *)
Theorem X18_series_zero_reads_the_last_factor (svd_Vh : matrix -> matrix)
    (self : TheanoGraphPro) (grid : list point) :
  select_finite_faults svd_Vh self 0 grid
  = select_finite_faults svd_Vh self (Z.of_nat (length (inf_factor self))) grid.
Proof.
  unfold select_finite_faults. rewrite py_index_last. reflexivity.
Qed.

Lemma T_max_some (l : list R) : l <> [] -> exists M, T_max l = Some M.
Proof. destruct l; [congruence | intros _; eexists; reflexivity]. Qed.

Lemma T_min_some (l : list R) : l <> [] -> exists m, T_min l = Some m.
Proof. destruct l; [congruence | intros _; eexists; reflexivity]. Qed.

Lemma fold_left_Rmax_ge (t : list R) (x : R) : x <= fold_left Rmax t x.
Proof.
  revert x. induction t as [| y t IH]; intros x; cbn [fold_left]; [lra |].
  apply Rle_trans with (Rmax x y); [apply Rmax_l | apply IH].
Qed.

Lemma fold_left_Rmin_le (t : list R) (x : R) : fold_left Rmin t x <= x.
Proof.
  revert x. induction t as [| y t IH]; intros x; cbn [fold_left]; [lra |].
  apply Rle_trans with (Rmin x y); [apply IH | apply Rmin_l].
Qed.

Lemma T_min_le_T_max (l : list R) (M m : R) :
  T_max l = Some M -> T_min l = Some m -> m <= M.
Proof.
  destruct l as [| x t]; [discriminate |]. cbn [T_max T_min].
  intros HM Hm. injection HM as <-. injection Hm as <-.
  apply Rle_trans with x; [apply fold_left_Rmin_le | apply fold_left_Rmax_ge].
Qed.

(** X19: [select_finite_faults] raises exactly when the series has no
    reference point or when [n_series - 1] is not a valid index of the
    inflation factors; otherwise it returns one flag per evaluation
    point. *)
Theorem X19_finite_fault_selection_raises_or_flags (svd_Vh : matrix -> matrix)
    (self : TheanoGraphPro) (n_series : Z) (grid : list point) :
  (select_finite_faults svd_Vh self n_series grid = None <->
   ref_layer_points self = [] \/ py_index (inf_factor self) (n_series - 1) = None) /\
  (forall sel, select_finite_faults svd_Vh self n_series grid = Some sel ->
               length sel = length grid).
Proof.
  split.
  - unfold select_finite_faults.
    destruct (ref_layer_points self) as [| ref0 refs]; cbn [nth_error bind].
    { split; [intros _; left; reflexivity | reflexivity]. }
    destruct (py_index (inf_factor self) (n_series - 1)) as [inf |]; cbn [bind].
    + cbn [map column T_max T_min bind].
      split; [discriminate | intros [H | H]; discriminate].
    + split; [intros _; right; reflexivity | reflexivity].
  - intros sel. apply select_finite_faults_length.
Qed.

Lemma mean_point_rotate (U : matrix) (pts : list point) :
  mean_point (map (rotate U) pts) = rotate U (mean_point pts).
Proof.
  unfold mean_point, rotate. rewrite length_map.
  cbn [coord px py pz]. unfold column. rewrite !map_map. cbn [coord px py pz].
  assert (Hlin : forall a b c : R,
             Rsum (map (fun p => px p * a + py p * b + pz p * c) pts)
             = Rsum (map (fun p => px p) pts) * a + Rsum (map (fun p => py p) pts) * b
               + Rsum (map (fun p => pz p) pts) * c).
  { intros a b c. induction pts as [| p pts IH]; cbn [map];
      rewrite ?Rsum_cons, ?Rsum_nil; [ring | rewrite IH; ring]. }
  rewrite !Hlin. f_equal; unfold Rdiv; ring.
Qed.

(** X20: the centre of a finite fault lies inside its ellipse.  For a
    positive inflation factor (so that both semi-axes are positive), and
    whatever axes the singular value decomposition returns, an evaluation
    point placed at the mean of the fault's points (the first reference
    point and the rest points) is flagged. *)
Theorem X20_fault_centre_is_selected (svd_Vh : matrix -> matrix) (self : TheanoGraphPro)
    (n_series : Z) (grid : list point) (ref0 : point) (inf : R) (j : nat) :
  nth_error (ref_layer_points self) 0 = Some ref0 ->
  py_index (inf_factor self) (n_series - 1) = Some inf ->
  0 < inf ->
  (j < length grid)%nat ->
  nth j grid origin = mean_point (ref0 :: rest_layer_points self) ->
  exists sel,
    select_finite_faults svd_Vh self n_series grid = Some sel /\
    nth j sel false = true.
Proof.
  intros Href Hinf Hpos Hj Hctr.
  unfold select_finite_faults. rewrite Href, Hinf. cbn [bind].
  cbn [map column T_max T_min bind].
  eexists. split; [reflexivity |].
  rewrite (nth_map_lt _ _ _ _ origin) by (rewrite length_map; exact Hj).
  rewrite (nth_map_lt _ _ _ _ origin) by exact Hj.
  rewrite Hctr.
  change (rotate (svd_Vh ?M) ref0 :: map (rotate (svd_Vh ?M)) (rest_layer_points self))
    with (map (rotate (svd_Vh M)) (ref0 :: rest_layer_points self)).
  rewrite mean_point_rotate.
  match goal with
  | |- (if Rlt_dec ?x 1 then true else false) = true =>
      replace x with 0 by (unfold Rdiv; ring)
  end.
  destruct (Rlt_dec 0 1) as [_ | H]; [reflexivity | exfalso; apply H; lra].
Qed.

Lemma X20_witness :
  nth_error (ref_layer_points finite_fault_series) 0 = Some p100 /\
  py_index (inf_factor finite_fault_series) (1 - 1) = Some 10 /\
  0 < 10 /\
  (0 < length [mean_point [p100; p200]])%nat /\
  nth 0 [mean_point [p100; p200]] origin
  = mean_point (p100 :: rest_layer_points finite_fault_series) /\
  exists sel,
    select_finite_faults identity_Vh finite_fault_series 1 [mean_point [p100; p200]]
    = Some sel /\
    nth 0 sel false = true.
Proof.
  assert (Hpos : 0 < 10) by lra.
  assert (Hj : (0 < length [mean_point [p100; p200]])%nat) by (cbn; lia).
  split; [reflexivity |]. split; [reflexivity |]. split; [exact Hpos |].
  split; [exact Hj |]. split; [reflexivity |].
  exact (X20_fault_centre_is_selected identity_Vh finite_fault_series 1
                                      [mean_point [p100; p200]] p100 10 0
                                      eq_refl eq_refl Hpos Hj eq_refl).
Defined.

(** ** Block export: when it raises *)

Lemma T_max_none (l : list R) : T_max l = None <-> l = [].
Proof. destruct l; cbn [T_max]; split; congruence. Qed.

Lemma T_min_none (l : list R) : T_min l = None <-> l = [].
Proof. destruct l; cbn [T_min]; split; congruence. Qed.

Lemma export_formation_block_some (Z_x sfasp : list R) (values : matrix) (slope : R) :
  Z_x <> [] -> (0 < n_cols values)%nat ->
  exists block,
    export_formation_block Z_x sfasp values slope = Some block /\
    n_rows block = n_rows values /\ n_cols block = length Z_x.
Proof.
  intros HZ Hu.
  destruct (T_max_some Z_x HZ) as [max_pot Hmax].
  destruct (T_min_some Z_x HZ) as [min_pot Hmin].
  unfold export_formation_block.
  rewrite Hmax, Hmin, (thresholds_ok Z_x sfasp max_pot min_pot Hmax Hmin).
  cbn [bind].
  unfold set_whole_column. cbn [n_rows n_cols entry repeat_columns_twice].
  assert (G0 : guard (0 <? n_cols values * 2)%nat = Some tt)
    by (apply guard_true, Nat.ltb_lt; lia).
  assert (G1 : guard (n_cols values * 2 - 1 <? n_cols values * 2)%nat = Some tt)
    by (apply guard_true, Nat.ltb_lt; lia).
  assert (G2 : guard (1 <? n_cols values * 2)%nat = Some tt)
    by (apply guard_true, Nat.ltb_lt; lia).
  repeat (rewrite ?G0, ?G1, ?G2; cbn [bind n_rows n_cols entry]).
  match goal with
  | |- context [compare_scan ?th _ _ ?l ?ns ?dr] =>
      destruct (compare_scan_ok Z_x l ns dr th
                  (T_arange (n_cols values * 2) 2) eq_refl eq_refl eq_refl
                  (T_arange_even_bound (n_cols values)))
        as [steps [Hsteps [Hshape Hentries]]]
  end.
  rewrite Hsteps. cbn [bind].
  destruct steps as [| first steps'].
  { exfalso. specialize (Hentries 0%nat 0%nat). cbn [map] in Hentries.
    symmetry in Hentries. apply map_eq_nil in Hentries.
    exact (scan_runs _ sfasp _ (n_cols values) Hu Hentries). }
  eexists. split; [reflexivity |]. cbn [n_rows n_cols entry].
  inversion Hshape as [| ? ? [Hr Hc] _]; subst.
  split; [exact Hr | exact Hc].
Qed.

(** X21: [export_formation_block] raises exactly when the field is empty or
    the matrix of values has no column; in every other case it returns a
    block with one row per row of the values and one column per evaluation
    point, whatever the surface-point values and the slope are. *)
Theorem X21_formation_block_raises_or_returns (Z_x sfasp : list R) (values : matrix)
    (slope : R) :
  (export_formation_block Z_x sfasp values slope = None <->
   Z_x = [] \/ n_cols values = 0%nat) /\
  (forall block,
      export_formation_block Z_x sfasp values slope = Some block ->
      n_rows block = n_rows values /\ n_cols block = length Z_x).
Proof.
  assert (Hnone : Z_x = [] \/ n_cols values = 0%nat ->
                  export_formation_block Z_x sfasp values slope = None).
  { intros [-> | Hu]; [reflexivity |].
    unfold export_formation_block.
    destruct (T_max Z_x); [| reflexivity]. cbn [bind].
    destruct (T_min Z_x); [| reflexivity]. cbn [bind].
    destruct (segmentation_thresholds Z_x sfasp); [| reflexivity]. cbn [bind].
    unfold set_whole_column. cbn [n_rows n_cols repeat_columns_twice].
    rewrite Hu. reflexivity. }
  split.
  - split; [| exact Hnone].
    intros H.
    destruct Z_x as [| z Z_x]; [left; reflexivity |].
    destruct (n_cols values) as [| u] eqn:Hu; [right; reflexivity |].
    destruct (export_formation_block_some (z :: Z_x) sfasp values slope)
      as [block [Hb _]]; [discriminate | lia |].
    rewrite Hb in H. discriminate.
  - intros block Hb.
    destruct Z_x as [| z Z_x]; [rewrite Hnone in Hb by (left; reflexivity); discriminate |].
    destruct (n_cols values) as [| u] eqn:Hu;
      [rewrite Hnone in Hb by (right; reflexivity); discriminate |].
    destruct (export_formation_block_some (z :: Z_x) sfasp values slope)
      as [block' [Hb' Hshape]]; [discriminate | lia |].
    rewrite Hb in Hb'. injection Hb' as <-. exact Hshape.
Qed.

Lemma export_fault_block_closed_form (Z_x sfasp : list R) (values : matrix)
    (sel : list bool) (slope offset_slope : R) :
  Z_x <> [] -> (0 < n_rows values)%nat -> (0 < n_cols values)%nat ->
  length sel = length Z_x ->
  exists block max_pot min_pot,
    T_max Z_x = Some max_pot /\ T_min Z_x = Some min_pot /\
    export_fault_block Z_x sfasp values sel slope offset_slope = Some block /\
    n_rows block = 1%nat /\ n_cols block = length Z_x /\
    forall p i,
      entry block p i =
      Rsum (map (fun '((a, b), s) =>
                   sigmoid_pair (fault_ids values s) (fault_ids values (s + 1))
                                (fault_drift values s)
                                (nth i (fault_slopes max_pot min_pot slope offset_slope sel) 0)
                                (nth i Z_x 0) a b)
                (combine (adjacent_pairs
                            ([max_pot + (max_pot - min_pot) * 0.01] ++ sfasp ++
                             [min_pot - (max_pot - min_pot) * 0.01]))
                         (T_arange (n_cols values * 2) 2))).
Proof.
  intros HZ Hrows Hu Hsel.
  destruct (T_max_some Z_x HZ) as [max_pot Hmax].
  destruct (T_min_some Z_x HZ) as [min_pot Hmin].
  unfold export_fault_block.
  rewrite Hmax, Hmin, (thresholds_ok Z_x sfasp max_pot min_pot Hmax Hmin).
  cbn [bind].
  unfold select_row, set_whole_column.
  assert (Gr : guard (0 <? n_rows values)%nat = Some tt)
    by (apply guard_true, Nat.ltb_lt; lia).
  assert (G0 : guard (0 <? n_cols values * 2)%nat = Some tt)
    by (apply guard_true, Nat.ltb_lt; lia).
  assert (G1 : guard (n_cols values * 2 - 1 <? n_cols values * 2)%nat = Some tt)
    by (apply guard_true, Nat.ltb_lt; lia).
  assert (G2 : guard (1 <? n_cols values * 2)%nat = Some tt)
    by (apply guard_true, Nat.ltb_lt; lia).
  repeat (rewrite ?Gr, ?G0, ?G1, ?G2;
          cbn [bind n_rows n_cols entry repeat_columns_twice]).
  assert (Hfit : slope_fits (Vector (fault_slopes max_pot min_pot slope offset_slope sel))
                            (length Z_x) = true).
  { cbn [slope_fits]. apply Nat.eqb_eq. unfold fault_slopes.
    rewrite length_map. exact Hsel. }
  match goal with
  | |- context [compare_scan ?th _ _ ?l ?ns ?dr] =>
      destruct (compare_scan_ok Z_x l ns dr th
                  (T_arange (n_cols values * 2) 2) Hfit eq_refl eq_refl
                  (T_arange_even_bound (n_cols values)))
        as [steps [Hsteps [Hshape Hentries]]]
  end.
  rewrite Hsteps. cbn [bind].
  destruct steps as [| first steps'].
  { exfalso. specialize (Hentries 0%nat 0%nat). cbn [map] in Hentries.
    symmetry in Hentries. apply map_eq_nil in Hentries.
    exact (scan_runs _ sfasp _ (n_cols values) Hu Hentries). }
  eexists. exists max_pot, min_pot.
  split; [reflexivity |]. split; [reflexivity |].
  split; [reflexivity |]. cbn [n_rows n_cols entry].
  inversion Hshape as [| ? ? [Hr Hc] _]; subst.
  split; [exact Hr |]. split; [exact Hc |].
  intros p i. rewrite Hentries. reflexivity.
Qed.

Lemma export_fault_block_none (Z_x sfasp : list R) (values : matrix)
    (sel : list bool) (slope offset_slope : R) :
  Z_x = [] \/ n_rows values = 0%nat \/ n_cols values = 0%nat \/ length sel <> length Z_x ->
  export_fault_block Z_x sfasp values sel slope offset_slope = None.
Proof.
  intros H. unfold export_fault_block.
  destruct (T_max Z_x) as [max_pot |] eqn:Hmax; [| reflexivity]. cbn [bind].
  destruct (T_min Z_x) as [min_pot |] eqn:Hmin; [| reflexivity]. cbn [bind].
  rewrite (thresholds_ok Z_x sfasp max_pot min_pot Hmax Hmin). cbn [bind].
  destruct H as [-> | [Hr | [Hu | Hsel]]]; [discriminate | | |].
  - unfold select_row. rewrite Hr. reflexivity.
  - unfold select_row, set_whole_column.
    destruct (guard (0 <? n_rows values)%nat); [| reflexivity].
    cbn [bind n_rows n_cols repeat_columns_twice]. rewrite Hu. reflexivity.
  - unfold select_row, set_whole_column.
    destruct (guard (0 <? n_rows values)%nat); [| reflexivity].
    cbn [bind n_rows n_cols repeat_columns_twice].
    destruct (guard (1 <? n_cols values * 2)%nat) eqn:G1; [| reflexivity].
    cbn [bind n_rows n_cols].
    destruct (guard (n_cols values * 2 - 1 <? n_cols values * 2)%nat); [| reflexivity].
    cbn [bind n_rows n_cols]. rewrite G1. cbn [bind].
    destruct (guard (0 <? n_cols values * 2)%nat); [| reflexivity].
    cbn [bind n_rows n_cols].
    assert (Hu : (0 < n_cols values)%nat).
    { destruct (Nat.ltb_spec 1 (n_cols values * 2)); [lia | discriminate]. }
    rewrite T_arange_even.
    destruct (n_cols values) as [| c]; [lia |].
    cbn [seq map]. destruct sfasp as [| t sfasp]; cbn [app compare_scan];
      unfold compare; cbn [slope_fits]; unfold fault_slopes; rewrite length_map;
      apply Nat.eqb_neq in Hsel; rewrite Hsel; reflexivity.
Qed.

(** X22: [export_fault_block] raises exactly when the field is empty, the
    matrix of values has no row or no column, or the selection of
    [select_finite_faults] does not have one flag per evaluation point.
    Otherwise it returns a block of a single row with one column per
    evaluation point, and that block depends on the first row of the values
    only: values that agree on their first row give the same block. *)
Theorem X22_fault_block_raises_or_returns (Z_x sfasp : list R) (values : matrix)
    (sel : list bool) (slope offset_slope : R) :
  (export_fault_block Z_x sfasp values sel slope offset_slope = None <->
   Z_x = [] \/ n_rows values = 0%nat \/ n_cols values = 0%nat \/
   length sel <> length Z_x) /\
  (forall block,
      export_fault_block Z_x sfasp values sel slope offset_slope = Some block ->
      n_rows block = 1%nat /\ n_cols block = length Z_x) /\
  (forall values' block block',
      n_cols values' = n_cols values ->
      (forall j, entry values' 0 j = entry values 0 j) ->
      export_fault_block Z_x sfasp values sel slope offset_slope = Some block ->
      export_fault_block Z_x sfasp values' sel slope offset_slope = Some block' ->
      forall p i, entry block p i = entry block' p i).
Proof.
  assert (Hsome : forall v block,
             export_fault_block Z_x sfasp v sel slope offset_slope = Some block ->
             Z_x <> [] /\ (0 < n_rows v)%nat /\ (0 < n_cols v)%nat /\
             length sel = length Z_x).
  { intros v block Hb.
    destruct Z_x as [| z Z]; [rewrite export_fault_block_none in Hb by auto; discriminate |].
    destruct (n_rows v) as [| r] eqn:Hr;
      [rewrite export_fault_block_none in Hb by auto; discriminate |].
    destruct (n_cols v) as [| c] eqn:Hc;
      [rewrite export_fault_block_none in Hb by auto; discriminate |].
    destruct (Nat.eq_dec (length sel) (length (z :: Z))) as [E | E];
      [| rewrite export_fault_block_none in Hb by auto; discriminate].
    repeat split; try lia; try exact E. discriminate. }
  split; [| split].
  - split; [| apply export_fault_block_none].
    intros H.
    destruct Z_x as [| z Z]; [auto |].
    destruct (n_rows values) as [| r] eqn:Hr; [auto |].
    destruct (n_cols values) as [| c] eqn:Hc; [auto |].
    destruct (Nat.eq_dec (length sel) (length (z :: Z))) as [E | E]; [| auto].
    destruct (export_fault_block_closed_form (z :: Z) sfasp values sel slope offset_slope)
      as [block [? [? [_ [_ [Hb _]]]]]]; try lia; try exact E; [discriminate |].
    rewrite Hb in H. discriminate.
  - intros block Hb.
    destruct (Hsome values block Hb) as [HZ [Hr [Hc E]]].
    destruct (export_fault_block_closed_form Z_x sfasp values sel slope offset_slope
                                             HZ Hr Hc E)
      as [block' [? [? [_ [_ [Hb' [Hrows [Hcols _]]]]]]]].
    rewrite Hb in Hb'. injection Hb' as <-. split; assumption.
  - intros values' block block' Hw Hrow Hb Hb' p i.
    destruct (Hsome values block Hb) as [HZ [Hr [Hc E]]].
    destruct (Hsome values' block' Hb') as [_ [Hr' [Hc' _]]].
    destruct (export_fault_block_closed_form Z_x sfasp values sel slope offset_slope
                                             HZ Hr Hc E)
      as [b1 [M [m [HM [Hm [Hb1 [_ [_ He1]]]]]]]].
    destruct (export_fault_block_closed_form Z_x sfasp values' sel slope offset_slope
                                             HZ Hr' Hc' E)
      as [b2 [M' [m' [HM' [Hm' [Hb2 [_ [_ He2]]]]]]]].
    rewrite Hb in Hb1. injection Hb1 as <-.
    rewrite Hb' in Hb2. injection Hb2 as <-.
    rewrite HM in HM'. injection HM' as <-.
    rewrite Hm in Hm'. injection Hm' as <-.
    rewrite He1, He2, Hw. f_equal.
    apply map_ext. intros [[a b] s].
    unfold fault_drift, fault_ids. rewrite Hw, !Hrow. reflexivity.
Qed.

(** ** The points of the series, one after the other *)

Lemma slice_app {A : Type} (l : list A) (a b c : nat) :
  (a <= b)%nat -> (b <= c)%nat -> slice l a b ++ slice l b c = slice l a c.
Proof.
  intros Hab Hbc. unfold slice.
  rewrite <- (firstn_skipn b (firstn c l)) at 2.
  rewrite firstn_firstn, (Nat.min_l b c Hbc), skipn_app.
  f_equal.
  destruct (Nat.le_gt_cases a (length (firstn b l))) as [H | H].
  - replace (a - length (firstn b l))%nat with 0%nat by lia. reflexivity.
  - rewrite length_firstn in H.
    assert (Hl : (length l < b)%nat) by lia.
    rewrite (skipn_all2 (firstn c l)) by (rewrite length_firstn; lia).
    symmetry. apply skipn_nil.
Qed.

Lemma slices_concat {A : Type} (l : list A) (off : nat) (sizes : list nat) :
  concat (map (fun '(a, b) => slice l a b)
              (combine (off :: cumsum_from off sizes) (cumsum_from off sizes)))
  = slice l off (off + list_sum sizes).
Proof.
  revert off. induction sizes as [| s sizes IH]; intros off.
  - cbn [cumsum_from combine map concat list_sum]. unfold slice.
    rewrite Nat.add_0_r. symmetry. apply skipn_all2. rewrite length_firstn. lia.
  - change (combine (off :: cumsum_from off (s :: sizes)) (cumsum_from off (s :: sizes)))
      with ((off, (off + s)%nat)
              :: combine ((off + s)%nat :: cumsum_from (off + s) sizes)
                         (cumsum_from (off + s) sizes)).
    cbn [map concat].
    change (list_sum (s :: sizes)) with (s + list_sum sizes)%nat.
    rewrite IH, slice_app by lia. f_equal. lia.
Qed.

(** X23: the series share out the points.  With the boundaries
    [0, s1, s1 + s2, ...] that the sizes of the series give, the rest points
    that [compute_a_series] slices for the successive series, put one after
    the other, are all the rest points, in order and without overlap, and
    the same holds for the reference points. *)
Theorem X23_series_share_out_the_points (self : TheanoGraphPro) (sizes : list nat) :
  list_sum sizes = length (rest_layer_points_all self) ->
  length (ref_layer_points_all self) = length (rest_layer_points_all self) ->
  let len_series_i := cumsum (0%nat :: sizes) in
  let series := combine len_series_i (tl len_series_i) in
  concat (map (fun '(len_i_0, len_i_1) =>
                 rest_layer_points (compute_a_series_points self len_i_0 len_i_1)) series)
  = rest_layer_points_all self /\
  concat (map (fun '(len_i_0, len_i_1) =>
                 ref_layer_points (compute_a_series_points self len_i_0 len_i_1)) series)
  = ref_layer_points_all self.
Proof.
  intros Hsum Href len_series_i series.
  unfold series, len_series_i, cumsum. cbn [cumsum_from tl Nat.add].
  split.
  - rewrite (map_ext _ (fun '(a, b) => slice (rest_layer_points_all self) a b))
      by (intros [a b]; reflexivity).
    rewrite slices_concat, Hsum. apply slice_full.
  - rewrite (map_ext _ (fun '(a, b) => slice (ref_layer_points_all self) a b))
      by (intros [a b]; reflexivity).
    rewrite slices_concat, Hsum, <- Href. apply slice_full.
Qed.

Lemma X23_witness :
  list_sum [1%nat; 1%nat] = length (rest_layer_points_all two_series) /\
  length (ref_layer_points_all two_series) = length (rest_layer_points_all two_series) /\
  let len_series_i := cumsum (0%nat :: [1%nat; 1%nat]) in
  let series := combine len_series_i (tl len_series_i) in
  concat (map (fun '(len_i_0, len_i_1) =>
                 rest_layer_points (compute_a_series_points two_series len_i_0 len_i_1))
              series)
  = rest_layer_points_all two_series /\
  concat (map (fun '(len_i_0, len_i_1) =>
                 ref_layer_points (compute_a_series_points two_series len_i_0 len_i_1))
              series)
  = ref_layer_points_all two_series.
Proof.
  split; [reflexivity |]. split; [reflexivity |].
  exact (X23_series_share_out_the_points two_series [1%nat; 1%nat] eq_refl eq_refl).
Defined.

(** * Properties of the variogram models *)

Lemma exp_opp_le_1 (x : R) : 0 <= x -> exp (- x) <= 1.
Proof.
  intros Hx. rewrite <- exp_0.
  destruct (Req_dec x 0) as [-> | Hne].
  - rewrite Ropp_0. lra.
  - left. apply exp_increasing. lra.
Qed.

(** X24: for each of the three variogram models, a non-zero range and
    every distance, the semivariance and the covariance add up to the sill;
    a model name other
    than "exponential", "gaussian" and "spherical" makes both
    [calculate_semivariance] and [calculate_covariance] raise. *)
Theorem X24_semivariance_plus_covariance_is_the_sill (self : variogram_model) (d : R) :
  range_ self <> 0 ->
  (forall gamma,
      calculate_semivariance self d = Some gamma ->
      exists cov, calculate_covariance self d = Some cov /\ gamma + cov = sill self) /\
  (calculate_semivariance self d = None <->
   theoretical_model self <> "exponential"%string /\
   theoretical_model self <> "gaussian"%string /\
   theoretical_model self <> "spherical"%string) /\
  (calculate_covariance self d = None <-> calculate_semivariance self d = None).
Proof.
  intros _. unfold calculate_semivariance, calculate_covariance.
  destruct (String.eqb_spec (theoretical_model self) "exponential") as [E1 | N1].
  { split; [| split].
    - intros gamma H. injection H as <-. eexists. split; [reflexivity |].
      unfold exponential_variogram_model, exponential_covariance_model. ring.
    - split; [discriminate | intros [H _]; contradiction].
    - split; discriminate. }
  destruct (String.eqb_spec (theoretical_model self) "gaussian") as [E2 | N2].
  { split; [| split].
    - intros gamma H. injection H as <-. eexists. split; [reflexivity |].
      unfold gaussian_variogram_model, gaussian_covariance_model. ring.
    - split; [discriminate | intros [_ [H _]]; contradiction].
    - split; discriminate. }
  destruct (String.eqb_spec (theoretical_model self) "spherical") as [E3 | N3].
  { split; [| split].
    - intros gamma H. injection H as <-. eexists. split; [reflexivity |].
      unfold spherical_variogram_model, spherical_covariance_model.
      destruct (Rle_dec d (range_ self)); ring.
    - split; [discriminate | intros [_ [_ H]]; contradiction].
    - split; discriminate. }
  split; [discriminate |]. split; [| split; reflexivity].
  split; [intros _; auto | reflexivity].
Qed.

Lemma X24_witness :
  range_ spherical_2_3_1 <> 0 /\
  (forall gamma,
      calculate_semivariance spherical_2_3_1 1 = Some gamma ->
      exists cov, calculate_covariance spherical_2_3_1 1 = Some cov /\
                  gamma + cov = sill spherical_2_3_1) /\
  (calculate_semivariance spherical_2_3_1 1 = None <->
   theoretical_model spherical_2_3_1 <> "exponential"%string /\
   theoretical_model spherical_2_3_1 <> "gaussian"%string /\
   theoretical_model spherical_2_3_1 <> "spherical"%string) /\
  (calculate_covariance spherical_2_3_1 1 = None <->
   calculate_semivariance spherical_2_3_1 1 = None).
Proof.
  assert (H : range_ spherical_2_3_1 <> 0) by (cbn; lra).
  split; [exact H |].
  exact (X24_semivariance_plus_covariance_is_the_sill spherical_2_3_1 1 H).
Defined.

Lemma spherical_shape (r d : R) :
  r <> 0 ->
  (3 * d) / (2 * r) - d ^ 3 / (2 * r ^ 3) = 3 / 2 * (d / r) - 1 / 2 * (d / r) ^ 3.
Proof. intros Hr. field. exact Hr. Qed.

(** X25: the spherical model, for a positive range and a nugget not above
    the sill.  Its semivariance is the nugget at distance 0, stays between
    the nugget and the sill up to the range, and is exactly the sill at the
    range and beyond, where the covariance is exactly 0: the two branches
    of the piecewise definition meet at the range. *)
Theorem X25_spherical_model_reaches_the_sill (self : variogram_model) :
  0 < range_ self ->
  nugget self <= sill self ->
  spherical_variogram_model self 0 = nugget self /\
  (forall d, 0 <= d <= range_ self ->
             nugget self <= spherical_variogram_model self d <= sill self) /\
  (forall d, range_ self <= d ->
             spherical_variogram_model self d = sill self /\
             spherical_covariance_model self d = 0).
Proof.
  intros Hr Hn.
  assert (Hr0 : range_ self <> 0) by lra.
  unfold spherical_variogram_model, spherical_covariance_model.
  split; [| split].
  - destruct (Rle_dec 0 (range_ self)) as [_ | H]; [| lra].
    rewrite (spherical_shape _ _ Hr0). unfold Rdiv. ring.
  - intros d [Hd0 Hdr].
    destruct (Rle_dec d (range_ self)) as [_ | H]; [| lra].
    rewrite (spherical_shape _ _ Hr0).
    set (t := d / range_ self).
    assert (Ht : 0 <= t <= 1).
    { unfold t. split.
      - apply Rmult_le_pos; [lra | left; apply Rinv_0_lt_compat, Hr].
      - apply (Rmult_le_reg_r (range_ self)); [exact Hr |].
        unfold Rdiv. rewrite Rmult_assoc, Rinv_l by exact Hr0. lra. }
    assert (Hs0 : 0 <= 3 / 2 * t - 1 / 2 * t ^ 3) by nra.
    assert (Hs1 : 3 / 2 * t - 1 / 2 * t ^ 3 <= 1).
    { assert (E : 1 - (3 / 2 * t - 1 / 2 * t ^ 3) = 1 / 2 * ((1 - t) * (1 - t) * (t + 2)))
        by field.
      assert (0 <= (1 - t) * (1 - t) * (t + 2)); [| lra].
      apply Rmult_le_pos; [nra | lra]. }
    split; nra.
  - intros d Hd.
    destruct (Rle_dec d (range_ self)) as [Hle | _]; [| split; reflexivity].
    assert (E : d = range_ self) by lra. rewrite E.
    rewrite (spherical_shape _ _ Hr0).
    unfold Rdiv. rewrite Rinv_r by exact Hr0. split; field.
Qed.

Lemma X25_witness :
  0 < range_ spherical_2_3_1 /\
  nugget spherical_2_3_1 <= sill spherical_2_3_1 /\
  spherical_variogram_model spherical_2_3_1 0 = nugget spherical_2_3_1 /\
  (forall d, 0 <= d <= range_ spherical_2_3_1 ->
             nugget spherical_2_3_1 <= spherical_variogram_model spherical_2_3_1 d
             <= sill spherical_2_3_1) /\
  (forall d, range_ spherical_2_3_1 <= d ->
             spherical_variogram_model spherical_2_3_1 d = sill spherical_2_3_1 /\
             spherical_covariance_model spherical_2_3_1 d = 0).
Proof.
  assert (H1 : 0 < range_ spherical_2_3_1) by (cbn; lra).
  assert (H2 : nugget spherical_2_3_1 <= sill spherical_2_3_1) by (cbn; lra).
  split; [exact H1 |]. split; [exact H2 |].
  exact (X25_spherical_model_reaches_the_sill spherical_2_3_1 H1 H2).
Defined.

(** X26: the exponential and the Gaussian model, for a positive range and a
    nugget below the sill.  The semivariance is the nugget at distance 0,
    never falls below the nugget and never reaches the sill, and the
    covariance is positive at every distance; both models give a distance
    and its opposite the same value. *)
Theorem X26_exponential_and_gaussian_models_stay_below_the_sill (self : variogram_model) :
  0 < range_ self ->
  nugget self < sill self ->
  exponential_variogram_model self 0 = nugget self /\
  gaussian_variogram_model self 0 = nugget self /\
  forall d,
    nugget self <= exponential_variogram_model self d < sill self /\
    nugget self <= gaussian_variogram_model self d < sill self /\
    0 < exponential_covariance_model self d /\
    0 < gaussian_covariance_model self d /\
    exponential_variogram_model self (- d) = exponential_variogram_model self d /\
    gaussian_variogram_model self (- d) = gaussian_variogram_model self d.
Proof.
  intros Hr Hn.
  unfold exponential_variogram_model, gaussian_variogram_model,
    exponential_covariance_model, gaussian_covariance_model.
  split; [| split].
  - rewrite Rabs_R0. unfold Rdiv. rewrite Rmult_0_l, Ropp_0, exp_0. ring.
  - replace (- 0 ^ 2 / range_ self ^ 2) with 0 by (unfold Rdiv; ring).
    rewrite exp_0. ring.
  - intros d.
    assert (He : 0 <= Rabs d / range_ self).
    { apply Rmult_le_pos; [apply Rabs_pos | left; apply Rinv_0_lt_compat, Hr]. }
    assert (Hg : - d ^ 2 / range_ self ^ 2 = - (d ^ 2 / range_ self ^ 2))
      by (unfold Rdiv; ring).
    assert (Hg0 : 0 <= d ^ 2 / range_ self ^ 2).
    { apply Rmult_le_pos; [apply pow2_ge_0 |].
      left. apply Rinv_0_lt_compat. apply pow_lt, Hr. }
    pose proof (exp_pos (- (Rabs d / range_ self))) as P1.
    pose proof (exp_opp_le_1 _ He) as L1.
    pose proof (exp_pos (- (d ^ 2 / range_ self ^ 2))) as P2.
    pose proof (exp_opp_le_1 _ Hg0) as L2.
    rewrite Hg.
    repeat split; try nra.
    + rewrite Rabs_Ropp. reflexivity.
    + replace (- (- d) ^ 2 / range_ self ^ 2) with (- (d ^ 2 / range_ self ^ 2))
        by (unfold Rdiv; ring).
      reflexivity.
Qed.

Lemma X26_witness :
  0 < range_ exponential_2_3_1 /\
  nugget exponential_2_3_1 < sill exponential_2_3_1 /\
  exponential_variogram_model exponential_2_3_1 0 = nugget exponential_2_3_1 /\
  gaussian_variogram_model exponential_2_3_1 0 = nugget exponential_2_3_1 /\
  forall d,
    nugget exponential_2_3_1 <= exponential_variogram_model exponential_2_3_1 d
    < sill exponential_2_3_1 /\
    nugget exponential_2_3_1 <= gaussian_variogram_model exponential_2_3_1 d
    < sill exponential_2_3_1 /\
    0 < exponential_covariance_model exponential_2_3_1 d /\
    0 < gaussian_covariance_model exponential_2_3_1 d /\
    exponential_variogram_model exponential_2_3_1 (- d)
    = exponential_variogram_model exponential_2_3_1 d /\
    gaussian_variogram_model exponential_2_3_1 (- d)
    = gaussian_variogram_model exponential_2_3_1 d.
Proof.
  assert (H1 : 0 < range_ exponential_2_3_1) by (cbn; lra).
  assert (H2 : nugget exponential_2_3_1 < sill exponential_2_3_1) by (cbn; lra).
  split; [exact H1 |]. split; [exact H2 |].
  exact (X26_exponential_and_gaussian_models_stay_below_the_sill exponential_2_3_1 H1 H2).
Defined.

(** * Properties of the gravity preprocessing *)

Lemma euclidean_distance_nonneg (p q : point) : 0 <= euclidean_distance p q.
Proof. unfold euclidean_distance. apply sqrt_pos. Qed.

(** X27: the distance function compiled by [compile_eu_f] returns the exact
    Euclidean distance between the points, with no lower bound, and the
    distance used by the interpolator is that distance raised to [1e-6];
    [default_range] raises on an empty grid only and is never negative. *)
Theorem X27_distances_and_range_of_the_gravity_preprocessing :
  (forall x_1 x_2 i j,
      entry (eu x_1 x_2) i j = euclidean_distance (nth i x_1 origin) (nth j x_2 origin)) /\
  (forall x_1 x_2 i j,
      entry (squared_euclidean_distances x_1 x_2) i j = Rmax (entry (eu x_1 x_2) i j) 1e-6) /\
  (forall model_grid, default_range model_grid = None <-> model_grid = []) /\
  (forall model_grid r, default_range model_grid = Some r -> 0 <= r).
Proof.
  assert (Heu : forall x_1 x_2 i j,
             entry (eu x_1 x_2) i j
             = euclidean_distance (nth i x_1 origin) (nth j x_2 origin)).
  { intros x_1 x_2 i j. unfold eu. cbn [entry]. rewrite sum_sq_expand.
    unfold euclidean_distance. f_equal. apply Rmax_left.
    repeat apply Rplus_le_le_0_compat; apply pow2_ge_0. }
  split; [exact Heu |]. split; [| split].
  - intros x_1 x_2 i j. rewrite Heu. apply sed_clamped_distance.
  - intros model_grid. unfold default_range.
    destruct model_grid as [| p g]; cbn [column map T_max T_min bind].
    + split; reflexivity.
    + split; discriminate.
  - intros model_grid r. unfold default_range.
    destruct (T_max (column model_grid 2)) as [M |] eqn:HM; [| discriminate].
    destruct (T_min (column model_grid 2)) as [m |] eqn:Hm; [| discriminate].
    cbn [bind]. intros H. injection H as <-.
    pose proof (T_min_le_T_max _ _ _ HM Hm). nra.
Qed.
